(** * hft-straddle: market-data primitives, ring buffer, symbol table, risk gate

  A shallow embedding of [include/market_data.h] (Price, MarketTick,
  CircularBuffer, SymbolMapper) and of the strategy header's configuration
  records, with the properties the specification states about them. *)

From Stdlib Require Import ZArith Lia Bool List QArith.
From Stdlib Require Import Floats.SpecFloat.
From stdpp Require Import gmap strings list.

Local Open Scope Z_scope.

(** ** Machine integers

  [size_t] and [uint64_t] are 64-bit and [uint32_t] is 32-bit unsigned;
  their arithmetic wraps.  [int64_t] is signed: leaving its range is
  undefined behaviour, which the embedding reports as [None]. *)

Definition wrap64 (z : Z) : Z := z mod 2 ^ 64.
Definition wrap32 (z : Z) : Z := z mod 2 ^ 32.

Definition INT64_MIN : Z := - 2 ^ 63.
Definition INT64_MAX : Z := 2 ^ 63 - 1.

Definition in_int64 (z : Z) : bool := (INT64_MIN <=? z) && (z <=? INT64_MAX).

(** ** IEEE-754 binary64

  The C++ type [double], through the reference definitions of the standard
  library ([prec = 53], [emax = 1024], round to nearest, ties to even). *)

Module Double.

Definition prec : Z := 53.
Definition emax : Z := 1024.

Definition add : spec_float -> spec_float -> spec_float := SFadd prec emax.
Definition sub : spec_float -> spec_float -> spec_float := SFsub prec emax.
Definition mul : spec_float -> spec_float -> spec_float := SFmul prec emax.
Definition div : spec_float -> spec_float -> spec_float := SFdiv prec emax.

(** [a > b] on doubles; false as soon as one side is a NaN. *)
Definition gtb (a b : spec_float) : bool := SFltb b a.

Definition zero : spec_float := S754_zero false.

(** Integer to double conversion (exact below [2^53], rounded above). *)
Definition of_Z (z : Z) : spec_float := binary_normalize prec emax z 0 false.

(** The integer part of a finite double, rounding toward zero. *)
Definition truncate (s : bool) (m : positive) (e : Z) : Z :=
  cond_Zopp s
    (match e with
     | Zneg k => Z.pos m / 2 ^ Z.pos k
     | _ => Z.pos m * 2 ^ e
     end).

(** [static_cast<int64_t>(d)]: defined when the truncated value fits. *)
Definition to_int64 (d : spec_float) : option Z :=
  match d with
  | S754_zero _ => Some 0
  | S754_finite s m e =>
      let z := truncate s m e in
      if in_int64 z then Some z else None
  | S754_infinity _ | S754_nan => None
  end.

End Double.

(** ** Price  (market_data.h, lines 48-59) *)

Record Price : Type := mkPrice { value : Z }.

Module PriceOps.

(** [Price(double price) : value(static_cast<int64_t>(price * 10000))] *)
Definition of_double (price : spec_float) : option Price :=
  mkPrice <$> Double.to_int64 (Double.mul price (Double.of_Z 10000)).

(** [to_double() { return value / 10000.0; }] *)
Definition to_double (p : Price) : spec_float :=
  Double.div (Double.of_Z (value p)) (Double.of_Z 10000).

(** [operator+ { return {(value + other.value) / 10000.0}; }]: the integer
    sum is turned into a double, divided, and handed to [Price(double)]. *)
Definition plus (a b : Price) : option Price :=
  let s := value a + value b in
  if in_int64 s
  then of_double (Double.div (Double.of_Z s) (Double.of_Z 10000))
  else None.

(** [operator- { return {(value - other.value) / 10000.0}; }] *)
Definition minus (a b : Price) : option Price :=
  let s := value a - value b in
  if in_int64 s
  then of_double (Double.div (Double.of_Z s) (Double.of_Z 10000))
  else None.

(** [operator>] and [operator<] compare the integer representation. *)
Definition gt (a b : Price) : bool := value b <? value a.
Definition lt (a b : Price) : bool := value a <? value b.

End PriceOps.

(** ** CircularBuffer  (market_data.h, lines 149-199)

  [std::array<T, Size> buffer_] with the two indices [head_] and [tail_].
  The atomics are read and written by one thread at a time here, so each
  load and store is a plain field access. *)

Module CircularBuffer.
Section CircularBuffer.

Context {T : Type} `{!Inhabited T}.
Variable Size : Z.

Record t : Type := mk { buffer_ : list T; head_ : Z; tail_ : Z }.

(** [bool push(const T& item)] *)
Definition push (item : T) (cb : t) : bool * t :=
  let current_tail := tail_ cb in
  let next_tail := wrap64 (current_tail + 1) mod Size in
  if next_tail =? head_ cb then (false, cb)
  else (true, {| buffer_ := <[Z.to_nat current_tail := item]> (buffer_ cb);
                 head_ := head_ cb;
                 tail_ := next_tail |}).

(** [bool pop(T& item)]: [Some x] stands for [true] with [item = x],
    [None] for [false] with [item] left alone. *)
Definition pop (cb : t) : option T * t :=
  let current_head := head_ cb in
  if current_head =? tail_ cb then (None, cb)
  else (Some (buffer_ cb !!! Z.to_nat current_head),
        {| buffer_ := buffer_ cb;
           head_ := wrap64 (current_head + 1) mod Size;
           tail_ := tail_ cb |}).

(** [size_t size() const] *)
Definition size (cb : t) : Z :=
  let h := head_ cb in
  let t := tail_ cb in
  if h <=? t then wrap64 (t - h) else wrap64 (wrap64 (Size - h) + t).

(** [bool empty() const] *)
Definition empty (cb : t) : bool := head_ cb =? tail_ cb.

(** [bool full() const] *)
Definition full (cb : t) : bool :=
  let current_tail := tail_ cb in
  let next_tail := wrap64 (current_tail + 1) mod Size in
  next_tail =? head_ cb.

(** A buffer as its constructor leaves it: both indices zero, the cells
    holding whatever [T]'s default initialisation produced. *)
Definition fresh (cells : list T) : t :=
  {| buffer_ := cells; head_ := 0; tail_ := 0 |}.

(** Sequences of calls. *)
Fixpoint push_all (items : list T) (cb : t) : list bool * t :=
  match items with
  | [] => ([], cb)
  | x :: rest =>
      let (ok, cb1) := push x cb in
      let (oks, cb2) := push_all rest cb1 in
      (ok :: oks, cb2)
  end.

Fixpoint pop_n (n : nat) (cb : t) : list (option T) * t :=
  match n with
  | O => ([], cb)
  | S k =>
      let (r, cb1) := pop cb in
      let (rs, cb2) := pop_n k cb1 in
      (r :: rs, cb2)
  end.

Inductive op : Type := Push (item : T) | Pop.

Definition step (o : op) (cb : t) : t :=
  match o with
  | Push x => snd (push x cb)
  | Pop => snd (pop cb)
  end.

Definition run (ops : list op) (cb : t) : t := foldl (fun c o => step o c) cb ops.

(** The representation invariant: the array has [Size] cells and both
    indices point into it. *)
Definition wf (cb : t) : Prop :=
  length (buffer_ cb) = Z.to_nat Size /\
  0 <= head_ cb < Size /\ 0 <= tail_ cb < Size.

(** The queue a buffer stands for: the cells from [head_] up to, not
    including, [tail_], walking cyclically. *)
Definition contents (cb : t) : list T :=
  (fun k => buffer_ cb !!! Z.to_nat ((head_ cb + k) mod Size)) <$> seqZ 0 (size cb).

End CircularBuffer.
End CircularBuffer.

(** ** SymbolMapper  (market_data.h, lines 202-228)

    [symbol_to_id_] is the hash map, [id_to_symbol_] the reverse vector and
    [next_id_] the 32-bit counter, which starts at 1. *)

Module SymbolMapper.

Record t : Type := mk {
  symbol_to_id_ : gmap string Z;
  id_to_symbol_ : list string;
  next_id_ : Z
}.

Definition init : t :=
  {| symbol_to_id_ := ∅; id_to_symbol_ := []; next_id_ := 1 |}.

(** [uint32_t get_id(const std::string& symbol)].  [fetch_add] wraps at
    [2^32], and so does the [id + 1] handed to [resize].  The store
    [id_to_symbol_[id] = symbol] is unchecked: when [id] is not below the
    vector's size the call has no defined behaviour, and the result is
    [None]. *)
Definition get_id (symbol : string) (m : t) : option (Z * t) :=
  match symbol_to_id_ m !! symbol with
  | Some id => Some (id, m)
  | None =>
      let id := next_id_ m in
      let table := <[symbol := id]> (symbol_to_id_ m) in
      let names :=
        if Z.of_nat (length (id_to_symbol_ m)) <=? id
        then resize (Z.to_nat (wrap32 (id + 1))) EmptyString (id_to_symbol_ m)
        else id_to_symbol_ m in
      if id <? Z.of_nat (length names)
      then Some (id, {| symbol_to_id_ := table;
                        id_to_symbol_ := <[Z.to_nat id := symbol]> names;
                        next_id_ := wrap32 (id + 1) |})
      else None
  end.

(** [const std::string& get_symbol(uint32_t id) const] *)
Definition get_symbol (id : Z) (m : t) : string :=
  if id <? Z.of_nat (length (id_to_symbol_ m))
  then id_to_symbol_ m !!! Z.to_nat id
  else EmptyString.

(** A sequence of [get_id] calls, with the id each call returned. *)
Fixpoint get_ids (symbols : list string) (m : t) : option (list Z * t) :=
  match symbols with
  | [] => Some ([], m)
  | s :: rest =>
      match get_id s m with
      | None => None
      | Some (id, m1) =>
          match get_ids rest m1 with
          | None => None
          | Some (ids, m2) => Some (id :: ids, m2)
          end
      end
  end.

(** What ties the three fields together between calls. *)
Record inv (m : t) : Prop := mk_inv {
  inv_next : 1 <= next_id_ m < 2 ^ 32;
  inv_len : id_to_symbol_ m = [] /\ next_id_ m = 1 \/
            Z.of_nat (length (id_to_symbol_ m)) = next_id_ m;
  inv_zero : forall s, id_to_symbol_ m !! 0%nat = Some s -> s = EmptyString;
  inv_fwd : forall s id, symbol_to_id_ m !! s = Some id ->
            1 <= id < next_id_ m /\ id_to_symbol_ m !! Z.to_nat id = Some s;
  inv_bwd : forall id, 1 <= id < next_id_ m ->
            exists s, symbol_to_id_ m !! s = Some id
}.

End SymbolMapper.

(** ** Timestamp and MarketTick  (market_data.h, lines 29-45 and 62-92) *)

Record Timestamp : Type := mkTimestamp { nanoseconds_since_epoch : Z }.

Record MarketTick : Type := mkMarketTick {
  timestamp : Timestamp;
  symbol_id : Z;
  bid : Price;
  ask : Price;
  last : Price;
  bid_size : Z;
  ask_size : Z;
  volume : Z;
  sequence_number : Z;
  exchange_id : Z;
  padding : Z
}.

Module MarketTickOps.

(** [Price midpoint() const]: built through [Price(double)], so it is
    defined when that conversion is. *)
Definition midpoint (t : MarketTick) : option Price :=
  PriceOps.of_double
    (Double.div (Double.add (PriceOps.to_double (bid t)) (PriceOps.to_double (ask t)))
                (Double.of_Z 2)).

(** [double spread() const] *)
Definition spread (t : MarketTick) : spec_float :=
  Double.sub (PriceOps.to_double (ask t)) (PriceOps.to_double (bid t)).

(** [double spread_pct() const]:
    [mid > 0 ? (spread() / mid) * 100.0 : 0.0] *)
Definition spread_pct (t : MarketTick) : option spec_float :=
  match midpoint t with
  | None => None
  | Some m =>
      let mid := PriceOps.to_double m in
      Some (if Double.gtb mid (Double.of_Z 0)
            then Double.mul (Double.div (spread t) mid) (Double.of_Z 100)
            else Double.zero)
  end.

End MarketTickOps.

(** ** MarketDataAggregator  (market_data.h, lines 231-251)

    The header declares [add_tick] and [get_latest_tick]; their bodies are
    not part of the repository. *)

Module MarketDataAggregator.

(** Modelled from the spec: the aggregator's state as section 4.3 describes
    it: per symbol id the latest tick and a bounded rolling history, and a
    rejection counter.  The header's private fields are a tick ring
    ([tick_buffer_]) and one [price_history_] vector; how the missing
    [add_tick] fills them is not in the repository, and the header has no
    counter. *)
Record t : Type := mk {
  latest_ : gmap Z MarketTick;
  price_history_ : gmap Z (list MarketTick);
  rejected_count_ : Z
}.

(** Modelled from the spec: the validity test of [add_tick], whose body is
    missing.  Section 3 asks [ask >= bid] of a valid tick and calls a tick
    with [ask <= 0] or [bid <= 0] invalid; section 8 has every tick with
    [ask <= bid] rejected, as the repository's EventValidation test does.
    All of them hold when a valid tick has [0 < bid < ask]. *)
Definition is_valid (tick : MarketTick) : bool :=
  PriceOps.lt (bid tick) (ask tick)
  && PriceOps.gt (ask tick) (mkPrice 0)
  && PriceOps.gt (bid tick) (mkPrice 0).

(** Modelled from the spec: appending to a rolling window of [window]
    ticks, evicting the oldest entries once it is full (section 4.3). *)
Definition append_window (window : nat) (tick : MarketTick)
    (h : list MarketTick) : list MarketTick :=
  let h' := h ++ [tick] in
  drop (length h' - window)%nat h'.

(** Modelled from the spec: [add_tick], declared in the header and defined
    nowhere in the repository.  Section 4.3: a tick failing the validity
    invariant is a no-op that increments the rejection counter; any other
    tick overwrites the latest tick of its symbol and is appended to that
    symbol's history. *)
Definition add_tick (window : nat) (tick : MarketTick) (a : t) : t :=
  if is_valid tick
  then {| latest_ := <[symbol_id tick := tick]> (latest_ a);
          price_history_ :=
            <[symbol_id tick :=
                append_window window tick
                  (default [] (price_history_ a !! symbol_id tick))]>
              (price_history_ a);
          rejected_count_ := rejected_count_ a |}
  else {| latest_ := latest_ a;
          price_history_ := price_history_ a;
          rejected_count_ := wrap64 (rejected_count_ a + 1) |}.

(** Modelled from the spec: [get_latest_tick], declared only; section 4.3
    gives it the type [symbol_id -> Optional<MarketTick>]. *)
Definition get_latest_tick (id : Z) (a : t) : option MarketTick :=
  latest_ a !! id.

(** Modelled from the spec: the rolling history of one symbol. *)
Definition get_history (id : Z) (a : t) : list MarketTick :=
  default [] (price_history_ a !! id).

End MarketDataAggregator.

(** ** Strategy header: positions, configuration, risk limits
    (straddle_strategy.h) *)

(** Dollar amounts for the risk gate, as exact rationals over the [Price]
    grid of 1/10000. *)
Definition Price_to_Q (p : Price) : Q := value p # 10000.

Inductive PositionStatus : Type :=
  | NONE | ANALYZING | ENTRY_PENDING | ACTIVE | EXIT_PENDING | CLOSED | ERROR.

(** [struct StraddlePosition]; its [symbol_id] is [position_symbol_id] here,
    the tick's field already has the name. *)
Record StraddlePosition : Type := mkStraddlePosition {
  position_id : Z;
  position_symbol_id : Z;
  symbol : string;
  entry_time : Timestamp;
  underlying_entry_price : Price;
  call_strike : Price;
  put_strike : Price;
  call_entry_price : Price;
  put_entry_price : Price;
  total_premium_paid : Price;
  status : PositionStatus;
  last_update : Timestamp;
  current_call_price : Price;
  current_put_price : Price;
  current_underlying_price : Price;
  unrealized_pnl : Price;
  realized_pnl : Price;
  max_profit : Price;
  max_loss : Price;
  delta : spec_float;
  gamma : spec_float;
  theta : spec_float;
  vega : spec_float;
  profit_target : Price;
  stop_loss : Price;
  days_held : Z;
  max_hold_days : Z
}.

(** A decimal literal of the source with numerator [n] and denominator [d]
    (0.15 is [double_literal 15 100]).  Both integers are exact doubles and
    the division rounds correctly, so this is the double nearest to the
    decimal, which is how the compiler reads the literal. *)
Definition double_literal (n d : Z) : spec_float :=
  Double.div (Double.of_Z n) (Double.of_Z d).

Module StraddleStrategy.

(** [struct Config]: the percentages and bounds are [double]s, the two
    counts are integers. *)
Record Config : Type := mkConfig {
  otm_offset_pct : spec_float;
  max_premium_pct : spec_float;
  profit_target_pct : spec_float;
  stop_loss_pct : spec_float;
  cfg_max_hold_days : Z;
  min_implied_vol : spec_float;
  max_implied_vol : spec_float;
  min_time_to_expiry : spec_float;
  max_time_to_expiry : spec_float;
  max_positions : Z;
  position_size_pct : spec_float
}.

(** [Config()]: [otm_offset_pct(0.02)], [max_premium_pct(0.05)],
    [profit_target_pct(0.15)], [stop_loss_pct(0.25)], [max_hold_days(30)],
    [min_implied_vol(0.15)], [max_implied_vol(1.0)],
    [min_time_to_expiry(7.0)], [max_time_to_expiry(60.0)],
    [max_positions(10)], [position_size_pct(0.02)]. *)
Definition default_config : Config :=
  {| otm_offset_pct := double_literal 2 100;
     max_premium_pct := double_literal 5 100;
     profit_target_pct := double_literal 15 100;
     stop_loss_pct := double_literal 25 100;
     cfg_max_hold_days := 30;
     min_implied_vol := double_literal 15 100;
     max_implied_vol := Double.of_Z 1;
     min_time_to_expiry := Double.of_Z 7;
     max_time_to_expiry := Double.of_Z 60;
     max_positions := 10;
     position_size_pct := double_literal 2 100 |}.




End StraddleStrategy.

Module RiskManager.

(** [struct RiskLimits], fractions as exact rationals. *)
Record RiskLimits : Type := mkRiskLimits {
  max_portfolio_risk : Q;
  max_position_size : Q;
  max_correlation : Q;
  max_sector_exposure : Q;
  max_positions : Z;
  max_daily_loss : Q;
  max_monthly_loss : Q
}.

(** [RiskLimits()] *)
Definition default_limits : RiskLimits :=
  {| max_portfolio_risk := 10 # 100;
     max_position_size := 5 # 100;
     max_correlation := 70 # 100;
     max_sector_exposure := 30 # 100;
     max_positions := 20;
     max_daily_loss := 2 # 100;
     max_monthly_loss := 5 # 100 |}.

(** The manager's fields.  [open_positions_] is not in the header: section
    4.6 needs the number of open positions and the header does not say where
    it is kept. *)
Record t : Type := mk {
  limits_ : RiskLimits;
  current_portfolio_risk_ : Q;
  daily_pnl_ : Q;
  monthly_pnl_ : Q;
  open_positions_ : Z
}.

Inductive denial : Type :=
  | PositionTooLarge | PortfolioRiskExceeded | TooManyPositions | DailyLossExceeded.

(** [a > b] on exact amounts. *)
Definition Qgt_bool (a b : Q) : bool := negb (Qle_bool a b).

(** Modelled from the spec: the notional of a position, which section 4.6
    compares with the portfolio and does not define; taken to be the premium
    paid for it. *)
Definition notional (p : StraddlePosition) : Q := Price_to_Q (total_premium_paid p).

(** Modelled from the spec: the four predicates of section 4.6 in their
    fixed order, returning the first that fails.  The daily loss is the
    negated daily P&L, as a fraction of the portfolio value. *)
Definition first_denial (rm : t) (p : StraddlePosition) (portfolio_value : Q)
    : option denial :=
  if Qgt_bool (notional p) (max_position_size (limits_ rm) * portfolio_value)
  then Some PositionTooLarge
  else if Qgt_bool (current_portfolio_risk_ rm) (max_portfolio_risk (limits_ rm))
  then Some PortfolioRiskExceeded
  else if max_positions (limits_ rm) <? open_positions_ rm + 1
  then Some TooManyPositions
  else if Qgt_bool (- daily_pnl_ rm) (max_daily_loss (limits_ rm) * portfolio_value)
  then Some DailyLossExceeded
  else None.

(** Modelled from the spec: [can_open_position], declared in the header and
    defined nowhere; section 4.6 rejects when any predicate fails. *)
Definition can_open_position (rm : t) (p : StraddlePosition) (portfolio_value : Q)
    : bool :=
  match first_denial rm p portfolio_value with
  | None => true
  | Some _ => false
  end.

(** Every limit other than the position size is satisfied. *)
Definition other_limits_ok (rm : t) (portfolio_value : Q) : Prop :=
  (current_portfolio_risk_ rm <= max_portfolio_risk (limits_ rm))%Q /\
  open_positions_ rm + 1 <= max_positions (limits_ rm) /\
  (- daily_pnl_ rm <= max_daily_loss (limits_ rm) * portfolio_value)%Q.

End RiskManager.

(** ** Auxiliary notions for the proofs *)

(** A double that is not strictly positive: a zero, a NaN, or a value whose
    sign bit is set. *)
Definition not_positive (f : spec_float) : Prop :=
  match f with
  | S754_zero _ | S754_nan => True
  | S754_infinity s | S754_finite s _ _ => s = true
  end.

(** Magnitude bound: a zero, or a finite double below [2^k] in absolute value. *)
Definition mag_le (k : Z) (f : spec_float) : Prop :=
  match f with
  | S754_zero _ => True
  | S754_finite _ m e => Z.pos (digits2_pos m) + e <= k
  | S754_infinity _ | S754_nan => False
  end.

(** ** Timestamp::to_seconds  (market_data.h, lines 42-44) *)

Module TimestampOps.

(** [to_seconds() { return nanoseconds_since_epoch / 1e9; }]: the unsigned
    count is converted to a double and divided. *)
Definition to_seconds (t : Timestamp) : spec_float :=
  Double.div (Double.of_Z (nanoseconds_since_epoch t)) (Double.of_Z 1000000000).

End TimestampOps.

(** ** OptionTick  (market_data.h, lines 95-137) *)

Module OptionTick.

Record t : Type := mk {
  timestamp : Timestamp;
  symbol_id : Z;
  underlying_id : Z;
  strike : Price;
  bid : Price;
  ask : Price;
  last : Price;
  expiration_date : Z;
  days_to_expiry : Z;
  option_type : Z;
  exercise_style : Z;
  volume : Z;
  open_interest : Z;
  implied_volatility : spec_float;
  padding : Z
}.

(** [time_to_expiry() { return days_to_expiry / 365.0; }] *)
Definition time_to_expiry (o : t) : spec_float :=
  Double.div (Double.of_Z (days_to_expiry o)) (Double.of_Z 365).

(** [moneyness(underlying_price)
      { return underlying_price.to_double() / strike.to_double(); }] *)
Definition moneyness (o : t) (underlying_price : Price) : spec_float :=
  Double.div (PriceOps.to_double underlying_price) (PriceOps.to_double (strike o)).

End OptionTick.

(** ** StraddlePosition: the inline valuations  (straddle_strategy.h, lines 96-109) *)

Module StraddlePositionOps.

(** [Price(current_call_price.to_double() + current_put_price.to_double())] *)
Definition calculate_position_value (p : StraddlePosition) : option Price :=
  PriceOps.of_double
    (Double.add (PriceOps.to_double (current_call_price p))
                (PriceOps.to_double (current_put_price p))).

(** [calculate_position_value() - total_premium_paid] *)
Definition calculate_pnl (p : StraddlePosition) : option Price :=
  match calculate_position_value p with
  | Some v => PriceOps.minus v (total_premium_paid p)
  | None => None
  end.

(** [if (total_premium_paid.to_double() == 0) return 0.0;
     return (calculate_pnl().to_double() / total_premium_paid.to_double()) * 100.0;]
    The guard is evaluated first, so a zero premium never reaches
    [calculate_pnl]. *)
Definition calculate_return_pct (p : StraddlePosition) : option spec_float :=
  if SFeqb (PriceOps.to_double (total_premium_paid p)) Double.zero
  then Some Double.zero
  else match calculate_pnl p with
       | Some pnl =>
           Some (Double.mul
                   (Double.div (PriceOps.to_double pnl)
                               (PriceOps.to_double (total_premium_paid p)))
                   (Double.of_Z 100))
       | None => None
       end.

End StraddlePositionOps.

(** ** Reference queue for the circular buffer *)

Module RingModel.
Section RingModel.
Context {T : Type} `{!Inhabited T}.
Variable Size : Z.

(** What one call reports back. *)
Inductive outcome : Type := Pushed (ok : bool) | Popped (item : option T).

(** One call on the buffer, with its result. *)
Definition exec (o : CircularBuffer.op) (cb : CircularBuffer.t)
    : outcome * CircularBuffer.t :=
  match o with
  | CircularBuffer.Push x =>
      let (ok, cb') := CircularBuffer.push Size x cb in (Pushed ok, cb')
  | CircularBuffer.Pop =>
      let (r, cb') := CircularBuffer.pop Size cb in (Popped r, cb')
  end.

Fixpoint exec_all (ops : list CircularBuffer.op) (cb : CircularBuffer.t)
    : list outcome * CircularBuffer.t :=
  match ops with
  | [] => ([], cb)
  | o :: rest =>
      let (r, cb1) := exec o cb in
      let (rs, cb2) := exec_all rest cb1 in
      (r :: rs, cb2)
  end.

(** The same call on a plain list used as a queue of at most [Size - 1]
    values: the reference the buffer is compared with. *)
Definition queue_exec (o : CircularBuffer.op) (q : list T) : outcome * list T :=
  match o with
  | CircularBuffer.Push x =>
      if Z.of_nat (length q) <? Size - 1 then (Pushed true, q ++ [x])
      else (Pushed false, q)
  | CircularBuffer.Pop =>
      match q with
      | [] => (Popped None, [])
      | y :: q' => (Popped (Some y), q')
      end
  end.

Fixpoint queue_exec_all (ops : list CircularBuffer.op) (q : list T)
    : list outcome * list T :=
  match ops with
  | [] => ([], q)
  | o :: rest =>
      let (r, q1) := queue_exec o q in
      let (rs, q2) := queue_exec_all rest q1 in
      (r :: rs, q2)
  end.

End RingModel.
End RingModel.

(** ** Auxiliary predicates for the arithmetic facts *)

(** The counter is one more than the number of recorded symbols. *)
Definition counted (m : SymbolMapper.t) : Prop :=
  SymbolMapper.next_id_ m = 1 + Z.of_nat (size (SymbolMapper.symbol_to_id_ m)).

(** The absolute value of a double, in units of [2^c]. *)
Definition scaled (c : Z) (f : spec_float) : Z :=
  match f with
  | S754_finite _ m e => Z.pos m * 2 ^ (e - c)
  | _ => 0
  end.

(** A zero or a finite double with sign bit [s] and exponent in [lo, hi]. *)
Definition finite_in (s : bool) (lo hi : Z) (f : spec_float) : Prop :=
  match f with
  | S754_zero s' => s' = s
  | S754_finite s' _ e => s' = s /\ lo <= e <= hi
  | S754_infinity _ | S754_nan => False
  end.

(** ** Sample data *)

Definition cells4 : list Z := [0; 0; 0; 0].

Definition ops6 : list (CircularBuffer.op (T:=Z)) :=
  [CircularBuffer.Push 1; CircularBuffer.Push 2; CircularBuffer.Pop;
   CircularBuffer.Push 3; CircularBuffer.Push 4; CircularBuffer.Push 5].

Definition trace3 : list string := ["AAPL"; "MSFT"; "AAPL"]%string.

Definition mapper3 : SymbolMapper.t :=
  {| SymbolMapper.symbol_to_id_ := <["MSFT"%string := 2]> (<["AAPL"%string := 1]> ∅);
     SymbolMapper.id_to_symbol_ := [EmptyString; "AAPL"; "MSFT"]%string;
     SymbolMapper.next_id_ := 3 |}.

Definition tick_of (b a : Z) : MarketTick :=
  {| timestamp := mkTimestamp 0; symbol_id := 1;
     bid := mkPrice b; ask := mkPrice a; last := mkPrice a;
     bid_size := 100; ask_size := 100; volume := 1000;
     sequence_number := 1; exchange_id := 0; padding := 0 |}.

Definition empty_aggregator : MarketDataAggregator.t :=
  {| MarketDataAggregator.latest_ := ∅;
     MarketDataAggregator.price_history_ := ∅;
     MarketDataAggregator.rejected_count_ := 0 |}.

Definition pending_position (premium : Price) : StraddlePosition :=
  {| position_id := 1; position_symbol_id := 1; symbol := "AAPL";
     entry_time := mkTimestamp 0;
     underlying_entry_price := mkPrice 1500000;
     call_strike := mkPrice 1530000; put_strike := mkPrice 1470000;
     call_entry_price := mkPrice 55500; put_entry_price := mkPrice 54500;
     total_premium_paid := premium;
     status := ENTRY_PENDING;
     last_update := mkTimestamp 0;
     current_call_price := mkPrice 55500; current_put_price := mkPrice 54500;
     current_underlying_price := mkPrice 1500000;
     unrealized_pnl := mkPrice 0; realized_pnl := mkPrice 0;
     max_profit := mkPrice 0; max_loss := mkPrice 0;
     delta := Double.zero; gamma := Double.zero;
     theta := Double.zero; vega := Double.zero;
     profit_target := mkPrice 0; stop_loss := mkPrice 0;
     days_held := 0; max_hold_days := 30 |}.

Definition idle_manager : RiskManager.t :=
  {| RiskManager.limits_ := RiskManager.default_limits;
     RiskManager.current_portfolio_risk_ := 0;
     RiskManager.daily_pnl_ := 0;
     RiskManager.monthly_pnl_ := 0;
     RiskManager.open_positions_ := 0 |}.

Definition exhausted_mapper : SymbolMapper.t :=
  {| SymbolMapper.symbol_to_id_ := ∅;
     SymbolMapper.id_to_symbol_ := [];
     SymbolMapper.next_id_ := 2 ^ 32 - 1 |}.

Definition sample_option : OptionTick.t :=
  {| OptionTick.timestamp := mkTimestamp 0;
     OptionTick.symbol_id := 7; OptionTick.underlying_id := 1;
     OptionTick.strike := mkPrice 1500000;
     OptionTick.bid := mkPrice 55000; OptionTick.ask := mkPrice 56000;
     OptionTick.last := mkPrice 55500;
     OptionTick.expiration_date := 20261218;
     OptionTick.days_to_expiry := 30;
     OptionTick.option_type := 0; OptionTick.exercise_style := 0;
     OptionTick.volume := 10; OptionTick.open_interest := 100;
     OptionTick.implied_volatility := Double.zero;
     OptionTick.padding := 0 |}.

(** * Properties *)

(** ** CircularBuffer *)

Lemma wrap64_small z : 0 <= z < 2 ^ 64 -> wrap64 z = z.
Proof. intros H. unfold wrap64. apply Z.mod_small. exact H. Qed.

Lemma mod_succ_cases a n :
  0 <= a < n -> (a + 1) mod n = if a + 1 =? n then 0 else a + 1.
Proof.
  intros H. destruct (Z.eqb_spec (a + 1) n) as [->|Hne].
  - apply Z_mod_same_full.
  - apply Z.mod_small. lia.
Qed.

Section CircularBufferFacts.
Import CircularBuffer.
Context {T : Type} `{!Inhabited T}.
Variable Size : Z.
Hypothesis Size_pos : 0 < Size < 2 ^ 64.

Abbreviation buf := (t (T:=T)).
Implicit Types cb : buf.

Lemma next_index i : 0 <= i < Size ->
  wrap64 (i + 1) mod Size = if i + 1 =? Size then 0 else i + 1.
Proof.
  intros Hi. rewrite wrap64_small by lia. apply mod_succ_cases. exact Hi.
Qed.

Lemma size_eq cb : wf Size cb ->
  size Size cb = if head_ cb <=? tail_ cb then tail_ cb - head_ cb
                    else Size - head_ cb + tail_ cb.
Proof.
  intros (_ & Hh & Ht). unfold size.
  destruct (Z.leb_spec (head_ cb) (tail_ cb)).
  - apply wrap64_small. lia.
  - rewrite (wrap64_small (Size - _)) by lia. apply wrap64_small. lia.
Qed.

Lemma size_bounds cb : wf Size cb -> 0 <= size Size cb <= Size - 1.
Proof.
  intros Hwf. rewrite size_eq by done. destruct Hwf as (_ & Hh & Ht).
  destruct (Z.leb_spec (head_ cb) (tail_ cb)); lia.
Qed.

Lemma full_iff_size cb : wf Size cb ->
  full Size cb = true <-> size Size cb = Size - 1.
Proof.
  intros Hwf. rewrite size_eq by done. destruct Hwf as (_ & Hh & Ht).
  unfold full. rewrite next_index by done. rewrite Z.eqb_eq.
  destruct (Z.eqb_spec (tail_ cb + 1) Size);
    destruct (Z.leb_spec (head_ cb) (tail_ cb)); lia.
Qed.

Lemma empty_iff_size cb : wf Size cb ->
  empty cb = true <-> size Size cb = 0.
Proof.
  intros Hwf. rewrite size_eq by done. destruct Hwf as (_ & Hh & Ht).
  unfold empty. rewrite Z.eqb_eq.
  destruct (Z.leb_spec (head_ cb) (tail_ cb)); lia.
Qed.

Lemma length_contents cb : wf Size cb ->
  Z.of_nat (length (contents Size cb)) = size Size cb.
Proof.
  intros Hwf. unfold contents. rewrite length_fmap, length_seqZ.
  pose proof (size_bounds cb Hwf). lia.
Qed.

Lemma push_full cb x : full Size cb = true -> push Size x cb = (false, cb).
Proof. unfold full, push. intros ->. reflexivity. Qed.

Lemma slot_index cb k : wf Size cb -> 0 <= k < Size ->
  (head_ cb + k) mod Size =
    if head_ cb + k <? Size then head_ cb + k else head_ cb + k - Size.
Proof.
  intros (_ & Hh & _) Hk. destruct (Z.ltb_spec (head_ cb + k) Size).
  - apply Z.mod_small. lia.
  - symmetry. apply Z.mod_unique_pos with (q := 1); lia.
Qed.

Lemma push_not_full cb x : wf Size cb -> full Size cb = false ->
  exists cb', push Size x cb = (true, cb') /\ wf Size cb' /\
              contents Size cb' = contents Size cb ++ [x].
Proof.
  intros Hwf Hfull. pose proof Hwf as (Hlen & Hh & Ht).
  unfold full in Hfull. unfold push. rewrite Hfull.
  eexists. split; [reflexivity|].
  rewrite next_index in Hfull |- * by done.
  set (cb' := mk _ _ _).
  assert (Hwf' : wf Size cb').
  { unfold wf, cb'. simpl. rewrite length_insert.
    destruct (Z.eqb_spec (tail_ cb + 1) Size); lia. }
  split; [exact Hwf'|].
  assert (Hsz : size Size cb' = size Size cb + 1).
  { rewrite !size_eq by done. unfold cb'. simpl.
    apply Z.eqb_neq in Hfull.
    destruct (Z.eqb_spec (tail_ cb + 1) Size);
      repeat match goal with
             | |- context [?a <=? ?b] => destruct (Z.leb_spec a b)
             end; lia. }
  pose proof (size_bounds cb Hwf) as Hb.
  pose proof (size_bounds cb' Hwf') as Hb'.
  unfold contents. rewrite Hsz.
  replace (size Size cb + 1) with (Z.of_nat (S (Z.to_nat (size Size cb)))) by lia.
  rewrite seqZ_S, fmap_app. rewrite Z2Nat.id by lia. f_equal.
  - apply Forall_fmap_ext, Forall_seqZ. intros k Hk. simpl.
    apply list_lookup_total_insert_ne.
    rewrite slot_index by (done || lia). rewrite size_eq in Hk by done.
    destruct (Z.ltb_spec (head_ cb + k) Size);
      destruct (Z.leb_spec (head_ cb) (tail_ cb)); lia.
  - simpl. f_equal.
    assert (Hidx : (head_ cb + (0 + size Size cb)) mod Size = tail_ cb).
    { rewrite slot_index by (done || lia). rewrite size_eq by done.
      match goal with |- context [?a <? ?b] => destruct (Z.ltb_spec a b) end;
        destruct (Z.leb_spec (head_ cb) (tail_ cb)); lia. }
    rewrite Hidx.
    apply list_lookup_total_insert_eq. lia.
Qed.

Lemma pop_empty cb : empty cb = true -> pop Size cb = (None, cb).
Proof. unfold empty, pop. intros ->. reflexivity. Qed.

Lemma pop_not_empty cb : wf Size cb -> empty cb = false ->
  exists x cb', pop Size cb = (Some x, cb') /\ wf Size cb' /\
                contents Size cb = x :: contents Size cb'.
Proof.
  intros Hwf Hne. pose proof Hwf as (Hlen & Hh & Ht).
  unfold empty in Hne. unfold pop. rewrite Hne.
  do 2 eexists. split; [reflexivity|].
  rewrite next_index by done.
  set (cb' := mk _ _ _).
  assert (Hwf' : wf Size cb').
  { unfold wf, cb'. simpl.
    destruct (Z.eqb_spec (head_ cb + 1) Size); lia. }
  split; [exact Hwf'|].
  apply Z.eqb_neq in Hne.
  assert (Hsz : size Size cb = size Size cb' + 1).
  { rewrite !size_eq by done. unfold cb'. simpl.
    destruct (Z.eqb_spec (head_ cb + 1) Size);
      repeat match goal with
             | |- context [?a <=? ?b] => destruct (Z.leb_spec a b)
             end; lia. }
  pose proof (size_bounds cb' Hwf') as Hb'.
  unfold contents at 1. rewrite Hsz.
  rewrite seqZ_cons by lia. rewrite fmap_cons. f_equal.
  - rewrite Z.add_0_r, Z.mod_small by lia. reflexivity.
  - replace (Z.pred (size Size cb' + 1)) with (size Size cb') by lia.
    replace (Z.succ 0) with (1 + 0) by lia.
    rewrite <- fmap_add_seqZ, <- list_fmap_compose.
    unfold contents. apply Forall_fmap_ext, Forall_seqZ. intros k Hk. simpl.
    f_equal. f_equal.
    destruct (Z.eqb_spec (head_ cb + 1) Size) as [E|E].
    + replace (head_ cb + (1 + k)) with (0 + k + 1 * Size) by lia.
      rewrite Z.mod_add by lia. reflexivity.
    + f_equal. lia.
Qed.

Lemma contents_empty cb : wf Size cb -> empty cb = true -> contents Size cb = [].
Proof.
  intros Hwf He. apply nil_length_inv.
  pose proof (length_contents cb Hwf) as Hl.
  apply empty_iff_size in He; [lia | done].
Qed.

Lemma empty_contents cb : wf Size cb -> contents Size cb = [] -> empty cb = true.
Proof.
  intros Hwf Hc. apply empty_iff_size; [done|].
  rewrite <- length_contents by done. rewrite Hc. reflexivity.
Qed.

Lemma push_all_fits items : forall cb, wf Size cb ->
  Z.of_nat (length (contents Size cb)) + Z.of_nat (length items) <= Size - 1 ->
  exists cb', push_all Size items cb = (replicate (length items) true, cb') /\
              wf Size cb' /\
              contents Size cb' = contents Size cb ++ items.
Proof.
  induction items as [|x rest IH]; intros cb Hwf Hfit; simpl.
  - exists cb. rewrite app_nil_r. done.
  - assert (Hnf : full Size cb = false).
    { destruct (full Size cb) eqn:E; [|done].
      apply full_iff_size in E; [|done].
      rewrite length_contents in Hfit by done. simpl in Hfit. lia. }
    destruct (push_not_full cb x Hwf Hnf) as (cb1 & Hpush & Hwf1 & Hc1).
    rewrite Hpush.
    destruct (IH cb1 Hwf1) as (cb2 & Hall & Hwf2 & Hc2).
    { rewrite Hc1, length_app. simpl in *. lia. }
    rewrite Hall. exists cb2. split; [done|]. split; [done|].
    rewrite Hc2, Hc1, <- app_assoc. done.
Qed.

Lemma pop_n_contents n : forall cb, wf Size cb ->
  (n <= length (contents Size cb))%nat ->
  exists cb', pop_n Size n cb = (Some <$> take n (contents Size cb), cb') /\
              wf Size cb' /\
              contents Size cb' = drop n (contents Size cb).
Proof.
  induction n as [|n IH]; intros cb Hwf Hn; simpl.
  - exists cb. rewrite drop_0. done.
  - assert (Hne : empty cb = false).
    { destruct (empty cb) eqn:E; [|done].
      rewrite contents_empty in Hn by done. simpl in Hn. lia. }
    destruct (pop_not_empty cb Hwf Hne) as (x & cb1 & Hpop & Hwf1 & Hc).
    rewrite Hpop, Hc in *. simpl in Hn.
    destruct (IH cb1 Hwf1) as (cb2 & Hrest & Hwf2 & Hc2); [lia|].
    rewrite Hrest. exists cb2. done.
Qed.

Lemma step_wf o cb : wf Size cb -> wf Size (step Size o cb).
Proof.
  intros Hwf. destruct o as [x|]; simpl.
  - destruct (full Size cb) eqn:E.
    + rewrite push_full by done. done.
    + destruct (push_not_full cb x Hwf E) as (cb' & -> & Hwf' & _). done.
  - destruct (empty cb) eqn:E.
    + rewrite pop_empty by done. done.
    + destruct (pop_not_empty cb Hwf E) as (x & cb' & -> & Hwf' & _). done.
Qed.

Lemma run_wf ops : forall cb, wf Size cb -> wf Size (run Size ops cb).
Proof.
  induction ops as [|o ops IH]; intros cb Hwf; simpl; [done|].
  apply IH, step_wf, Hwf.
Qed.

Lemma fresh_wf (cells : list T) : length cells = Z.to_nat Size -> wf Size (fresh cells).
Proof. intros Hl. unfold wf, fresh. simpl. lia. Qed.

(** C1 (amended): a buffer of template capacity [Size] holds [Size - 1]
    values, not [Size].  Pushes of at most [Size - 1] values into an empty
    buffer all succeed, the pops that follow hand the pushed values back in
    the order they were pushed, and the pop after the last one reports an
    empty buffer.  The buffer starts empty, with its indices anywhere in
    the array. *)
Theorem fifo_order (cb : buf) (items : list T) :
  wf Size cb -> empty cb = true ->
  Z.of_nat (length items) <= Size - 1 ->
  exists cb1 cb2,
    push_all Size items cb = (replicate (length items) true, cb1) /\
    pop_n Size (length items) cb1 = (Some <$> items, cb2) /\
    pop Size cb2 = (None, cb2).
Proof.
  intros Hwf He Hlen.
  pose proof (contents_empty cb Hwf He) as Hc.
  destruct (push_all_fits items cb Hwf) as (cb1 & Hpush & Hwf1 & Hc1).
  { rewrite Hc. simpl. lia. }
  rewrite Hc in Hc1. simpl in Hc1.
  destruct (pop_n_contents (length items) cb1 Hwf1) as (cb2 & Hpop & Hwf2 & Hc2).
  { rewrite Hc1. done. }
  rewrite Hc1, firstn_all in Hpop. rewrite Hc1, drop_all in Hc2.
  exists cb1, cb2. split; [done|]. split; [done|].
  apply pop_empty, empty_contents; done.
Qed.

(** C2: a push into a full buffer returns [false] and leaves the cells and
    both indices as they were; after filling an empty buffer with [items],
    one more push fails and the pops still return [items] in order. *)
Theorem push_full_unchanged (cb0 : buf) (items : list T) (item : T) :
  (forall cb : buf, full Size cb = true -> push Size item cb = (false, cb)) /\
  (wf Size cb0 -> empty cb0 = true ->
   Z.of_nat (length items) = Size - 1 ->
   exists cb1 cb2,
     push_all Size items cb0 = (replicate (length items) true, cb1) /\
     full Size cb1 = true /\
     push Size item cb1 = (false, cb1) /\
     pop_n Size (length items) (snd (push Size item cb1)) = (Some <$> items, cb2) /\
     pop Size cb2 = (None, cb2)).
Proof.
  split; [intros cb; apply push_full|].
  intros Hwf He Hlen.
  pose proof (contents_empty cb0 Hwf He) as Hc.
  destruct (push_all_fits items cb0 Hwf) as (cb1 & Hpush & Hwf1 & Hc1).
  { rewrite Hc. simpl. lia. }
  rewrite Hc in Hc1. simpl in Hc1.
  assert (Hfull : full Size cb1 = true).
  { apply full_iff_size; [done|]. rewrite <- length_contents, Hc1 by done. lia. }
  destruct (pop_n_contents (length items) cb1 Hwf1) as (cb2 & Hpop & Hwf2 & Hc2).
  { rewrite Hc1. done. }
  rewrite Hc1, firstn_all in Hpop. rewrite Hc1, drop_all in Hc2.
  exists cb1, cb2. rewrite (push_full cb1 item Hfull). simpl.
  repeat split; try done.
  apply pop_empty, empty_contents; done.
Qed.

(** C9: after any sequence of pushes and pops on a new buffer, [push] fails
    exactly when [(tail + 1) mod Size = head]; the buffer holds [size()]
    values, never more than [Size - 1]; it is full exactly at [Size - 1]; and
    one more push or pop keeps the bound. *)
Theorem one_slot_unused (cells : list T) (ops : list (op (T:=T))) :
  length cells = Z.to_nat Size ->
  let cb := run Size ops (fresh cells) in
  (forall item, fst (push Size item cb) = false <->
                (tail_ cb + 1) mod Size = head_ cb) /\
  Z.of_nat (length (contents Size cb)) = size Size cb /\
  0 <= size Size cb <= Size - 1 /\
  (full Size cb = true <-> size Size cb = Size - 1) /\
  (forall o, 0 <= size Size (step Size o cb) <= Size - 1).
Proof.
  intros Hlen cb.
  assert (Hwf : wf Size cb) by (apply run_wf, fresh_wf, Hlen).
  split; [|split; [|split; [|split]]].
  - intros item. unfold push.
    rewrite wrap64_small by (destruct Hwf as (_ & _ & ?); lia).
    destruct (Z.eqb_spec ((tail_ cb + 1) mod Size) (head_ cb)); simpl; split; done.
  - apply length_contents, Hwf.
  - apply size_bounds, Hwf.
  - apply full_iff_size, Hwf.
  - intros o. apply size_bounds, step_wf, Hwf.
Qed.
End CircularBufferFacts.

(** C1 as stated fails at the capacity itself: with [Size = 4], four pushes
    do not exceed the capacity, yet the fourth is refused and its value is
    never handed back by a pop. *)
Lemma fifo_order_fails_at_Size :
  Z.of_nat (length [10; 20; 30; 40]) <= 4 /\
  fst (CircularBuffer.push_all 4 [10; 20; 30; 40] (CircularBuffer.fresh cells4))
    = [true; true; true; false] /\
  fst (CircularBuffer.pop_n 4 4
         (snd (CircularBuffer.push_all 4 [10; 20; 30; 40] (CircularBuffer.fresh cells4))))
    = [Some 10; Some 20; Some 30; None] /\
  fst (CircularBuffer.pop_n 4 4
         (snd (CircularBuffer.push_all 4 [10; 20; 30; 40] (CircularBuffer.fresh cells4))))
    <> Some <$> [10; 20; 30; 40].
Proof.
  split; [simpl; lia|]. split; [reflexivity|]. split; [reflexivity|].
  vm_compute. discriminate.
Qed.

Lemma fifo_order_witness :
  exists cb1 cb2,
    CircularBuffer.push_all 4 [10; 20; 30] (CircularBuffer.fresh cells4)
      = (replicate 3 true, cb1) /\
    CircularBuffer.pop_n 4 3 cb1 = (Some <$> [10; 20; 30], cb2) /\
    CircularBuffer.pop 4 cb2 = (None, cb2).
Proof.
  apply (fifo_order 4 ltac:(lia) (CircularBuffer.fresh cells4) [10; 20; 30]).
  - unfold CircularBuffer.wf. simpl. lia.
  - reflexivity.
  - simpl. lia.
Defined.

Lemma push_full_unchanged_witness :
  exists cb1 cb2,
    CircularBuffer.push_all 4 [10; 20; 30] (CircularBuffer.fresh cells4)
      = (replicate 3 true, cb1) /\
    CircularBuffer.full 4 cb1 = true /\
    CircularBuffer.push 4 40 cb1 = (false, cb1) /\
    CircularBuffer.pop_n 4 3 (snd (CircularBuffer.push 4 40 cb1))
      = (Some <$> [10; 20; 30], cb2) /\
    CircularBuffer.pop 4 cb2 = (None, cb2).
Proof.
  apply (proj2 (push_full_unchanged 4 ltac:(lia)
                  (CircularBuffer.fresh cells4) [10; 20; 30] 40)).
  - unfold CircularBuffer.wf. simpl. lia.
  - reflexivity.
  - simpl. lia.
Defined.

Lemma one_slot_unused_witness :
  0 <= CircularBuffer.size 4 (CircularBuffer.run 4 ops6 (CircularBuffer.fresh cells4))
    <= 4 - 1.
Proof.
  apply (one_slot_unused 4 ltac:(lia) cells4 ops6).
  reflexivity.
Defined.


(** ** SymbolMapper *)

Lemma wrap32_small z : 0 <= z < 2 ^ 32 -> wrap32 z = z.
Proof. intros H. unfold wrap32. apply Z.mod_small. exact H. Qed.

Lemma wrap32_top : wrap32 (2 ^ 32 - 1 + 1) = 0.
Proof. reflexivity. Qed.

Section SymbolMapperFacts.
Import SymbolMapper.

Lemma init_inv : inv init.
Proof.
  constructor; simpl.
  - lia.
  - left. done.
  - intros s Hs. done.
  - intros s id Hs. rewrite lookup_empty in Hs. done.
  - intros id Hid. lia.
Qed.

(** What a call that misses the table does. *)
Lemma get_id_miss s m id m' :
  inv m -> symbol_to_id_ m !! s = None -> get_id s m = Some (id, m') ->
  id = next_id_ m /\ id + 1 < 2 ^ 32 /\
  symbol_to_id_ m' = <[s := id]> (symbol_to_id_ m) /\
  id_to_symbol_ m' =
    <[Z.to_nat id := s]> (resize (Z.to_nat (id + 1)) EmptyString (id_to_symbol_ m)) /\
  next_id_ m' = id + 1.
Proof.
  intros Hinv Hnone. unfold get_id. rewrite Hnone.
  destruct Hinv as [Hnext Hlen _ _ _].
  assert (Hle : Z.of_nat (length (id_to_symbol_ m)) <= next_id_ m).
  { destruct Hlen as [[-> ->] | ->]; simpl; lia. }
  destruct (Z.leb_spec (Z.of_nat (length (id_to_symbol_ m))) (next_id_ m)); [|lia].
  rewrite length_resize.
  destruct (Z.eq_dec (next_id_ m + 1) (2 ^ 32)) as [Htop|Htop].
  - replace (next_id_ m + 1) with (2 ^ 32 - 1 + 1) by lia.
    rewrite wrap32_top. simpl.
    destruct (Z.ltb_spec (next_id_ m) (Z.of_nat (Z.to_nat 0))); [lia|]. done.
  - rewrite wrap32_small by lia.
    destruct (Z.ltb_spec (next_id_ m) (Z.of_nat (Z.to_nat (next_id_ m + 1)))); [|lia].
    intros [= <- <-]. simpl. repeat split; try done. lia.
Qed.

Lemma get_id_hit s m id :
  symbol_to_id_ m !! s = Some id -> get_id s m = Some (id, m).
Proof. intros H. unfold get_id. rewrite H. done. Qed.

Lemma get_id_inv s m id m' :
  inv m -> get_id s m = Some (id, m') ->
  inv m' /\ symbol_to_id_ m' !! s = Some id /\
  (forall s' id', symbol_to_id_ m !! s' = Some id' ->
                  symbol_to_id_ m' !! s' = Some id') /\
  (forall s' id', symbol_to_id_ m' !! s' = Some id' ->
                  symbol_to_id_ m !! s' = Some id' \/ (s' = s /\ id' = id)).
Proof.
  intros Hinv Hget.
  destruct (symbol_to_id_ m !! s) as [id0|] eqn:Hlk.
  - rewrite (get_id_hit _ _ _ Hlk) in Hget. injection Hget as <- <-.
    split; [done|]. split; [done|]. split; auto.
  - destruct (get_id_miss s m id m' Hinv Hlk Hget) as (Hid & Hlt & Htab & Hnames & Hnx).
    pose proof Hinv as [Hnext Hlen Hzero Hfwd Hbwd].
    assert (Hlen' : length (id_to_symbol_ m') = Z.to_nat (id + 1)).
    { rewrite Hnames, length_insert, length_resize. done. }
    split; [constructor|].
    + lia.
    + right. lia.
    + intros s0. rewrite Hnames.
      rewrite list_lookup_insert_ne by lia.
      destruct Hlen as [[Hnil _]|Hl].
      * rewrite Hnil, resize_nil. intros Hs0%lookup_replicate. tauto.
      * rewrite lookup_resize by lia. apply Hzero.
    + intros s' id'. rewrite Htab. destruct (decide (s = s')) as [<-|Hne].
      * rewrite lookup_insert_eq. intros [= <-]. split; [lia|].
        rewrite Hnames. apply list_lookup_insert_eq. rewrite length_resize. lia.
      * rewrite lookup_insert_ne by done. intros Hs'.
        destruct (Hfwd _ _ Hs') as [Hr Hn]. split; [lia|].
        rewrite Hnames, list_lookup_insert_ne by lia.
        rewrite lookup_resize; [done|lia|]. apply lookup_lt_Some in Hn. lia.
    + intros id' Hid'. destruct (decide (id' = id)) as [->|Hne].
      * exists s. rewrite Htab. apply lookup_insert_eq.
      * destruct (Hbwd id') as [s' Hs']; [lia|]. exists s'.
        rewrite Htab, lookup_insert_ne; [done|]. intros <-. congruence.
    + rewrite Htab. split; [apply lookup_insert_eq|]. split.
      * intros s' id' Hs'. rewrite lookup_insert_ne; [done|]. intros <-. congruence.
      * intros s' id'. destruct (decide (s = s')) as [<-|Hne].
        -- rewrite lookup_insert_eq. intros [= <-]. right. done.
        -- rewrite lookup_insert_ne by done. auto.
Qed.

Lemma get_ids_inv symbols : forall m0 ids m,
  inv m0 -> get_ids symbols m0 = Some (ids, m) ->
  inv m /\ length ids = length symbols /\
  (forall s id, symbol_to_id_ m0 !! s = Some id -> symbol_to_id_ m !! s = Some id) /\
  (forall i s id, symbols !! i = Some s -> ids !! i = Some id ->
                  symbol_to_id_ m !! s = Some id) /\
  (forall s id, symbol_to_id_ m !! s = Some id ->
                symbol_to_id_ m0 !! s = Some id \/ id ∈ ids).
Proof.
  induction symbols as [|s rest IH]; intros m0 ids m Hinv; simpl.
  - intros [= <- <-]. split; [done|]. split; [done|]. split; [auto|].
    split; [intros i s id Hs; done | auto].
  - destruct (get_id s m0) as [[id1 m1]|] eqn:Hget; [|done].
    destruct (get_ids rest m1) as [[ids' m2]|] eqn:Hrest; [|done].
    intros [= <- <-].
    destruct (get_id_inv _ _ _ _ Hinv Hget) as (Hinv1 & Hs1 & Hmono1 & Hnew1).
    destruct (IH _ _ _ Hinv1 Hrest) as (Hinv2 & Hlen & Hmono2 & Hrec & Hnew2).
    split; [done|]. split; [simpl; lia|]. split; [auto|]. split.
    + intros [|i] s' id'; simpl.
      * intros [= <-] [= <-]. auto.
      * apply Hrec.
    + intros s' id' Hs'. destruct (Hnew2 _ _ Hs') as [Hold|Hin].
      * destruct (Hnew1 _ _ Hold) as [?|[-> ->]]; [auto|]. right. left.
      * right. right. done.
Qed.

Lemma get_id_defined s m :
  inv m -> next_id_ m + 1 < 2 ^ 32 ->
  exists id m', get_id s m = Some (id, m') /\ next_id_ m' <= next_id_ m + 1.
Proof.
  intros [Hnext Hlen _ _ _] Hroom. unfold get_id.
  destruct (symbol_to_id_ m !! s) as [id|]; [exists id, m; split; [done|lia]|].
  assert (Hle : Z.of_nat (length (id_to_symbol_ m)) <= next_id_ m).
  { destruct Hlen as [[-> ->] | ->]; simpl; lia. }
  destruct (Z.leb_spec (Z.of_nat (length (id_to_symbol_ m))) (next_id_ m)); [|lia].
  rewrite length_resize, wrap32_small by lia.
  destruct (Z.ltb_spec (next_id_ m) (Z.of_nat (Z.to_nat (next_id_ m + 1)))); [|lia].
  do 2 eexists. split; [reflexivity|]. simpl. lia.
Qed.

Lemma get_ids_defined symbols : forall m0,
  inv m0 -> next_id_ m0 + Z.of_nat (length symbols) < 2 ^ 32 ->
  exists ids m, get_ids symbols m0 = Some (ids, m).
Proof.
  induction symbols as [|s rest IH]; intros m0 Hinv Hroom; simpl.
  - eauto.
  - simpl in Hroom.
    destruct (get_id_defined s m0 Hinv) as (id & m1 & Hget & Hnx); [lia|].
    rewrite Hget.
    destruct (get_id_inv _ _ _ _ Hinv Hget) as (Hinv1 & _).
    destruct (IH m1 Hinv1) as (ids & m2 & Hrest); [lia|].
    rewrite Hrest. eauto.
Qed.

(** C3: along any sequence of [get_id] calls on a new mapper, two calls
    return the same id exactly when they were given the same symbol: the same
    string always gets the same id, distinct strings get distinct ids, and no
    id is ever handed to a second string.  Asking again at the end returns
    the recorded id and changes nothing.  The calls are defined as long as
    the 32-bit counter has room (symbols up to [2^32 - 2]). *)
Theorem get_id_idempotent_injective (symbols : list string) :
  (Z.of_nat (length symbols) <= 2 ^ 32 - 2 ->
   exists ids m, get_ids symbols init = Some (ids, m)) /\
  (forall ids m, get_ids symbols init = Some (ids, m) ->
   length ids = length symbols /\
   (forall i j s s' a b,
      symbols !! i = Some s -> symbols !! j = Some s' ->
      ids !! i = Some a -> ids !! j = Some b ->
      (s = s' <-> a = b)) /\
   (forall i s a, symbols !! i = Some s -> ids !! i = Some a ->
      get_id s m = Some (a, m))).
Proof.
  split.
  - intros Hlen. apply get_ids_defined; [apply init_inv|]. simpl. lia.
  - intros ids m Hrun.
    destruct (get_ids_inv _ _ _ _ init_inv Hrun) as (Hinv & Hlen & _ & Hrec & _).
    split; [done|]. split.
    + intros i j s s' a b Hi Hj Ha Hb.
      pose proof (Hrec _ _ _ Hi Ha) as Hsa. pose proof (Hrec _ _ _ Hj Hb) as Hsb.
      split.
      * intros <-. congruence.
      * intros <-. destruct Hinv as [_ _ _ Hfwd _].
        destruct (Hfwd _ _ Hsa) as [_ H1]. destruct (Hfwd _ _ Hsb) as [_ H2].
        congruence.
    + intros i s a Hi Ha. apply get_id_hit. eauto.
Qed.

(** C8: after any sequence of [get_id] calls, [get_symbol] returns the
    symbol for every id a call returned, and the empty string for every
    other 32-bit id, inside the reverse table or past its end. *)
Theorem get_symbol_total_roundtrip (symbols : list string) (ids : list Z) (m : t) :
  get_ids symbols init = Some (ids, m) ->
  (forall i s a, symbols !! i = Some s -> ids !! i = Some a -> get_symbol a m = s) /\
  (forall id, 0 <= id < 2 ^ 32 -> id ∉ ids -> get_symbol id m = EmptyString).
Proof.
  intros Hrun.
  destruct (get_ids_inv _ _ _ _ init_inv Hrun) as (Hinv & Hlen & _ & Hrec & Hnew).
  destruct Hinv as [Hnext Hl Hzero Hfwd Hbwd].
  split.
  - intros i s a Hi Ha. destruct (Hfwd _ _ (Hrec _ _ _ Hi Ha)) as [Hr Hn].
    unfold get_symbol. pose proof (lookup_lt_Some _ _ _ Hn) as Hlt.
    destruct (Z.ltb_spec a (Z.of_nat (length (id_to_symbol_ m)))); [|lia].
    apply list_lookup_total_correct, Hn.
  - intros id Hid Hnot. unfold get_symbol.
    destruct (Z.ltb_spec id (Z.of_nat (length (id_to_symbol_ m)))) as [Hlt|]; [|done].
    destruct (decide (id = 0)) as [->|Hnz].
    + destruct (lookup_lt_is_Some_2 (id_to_symbol_ m) 0) as [s E]; [lia|].
      change (Z.to_nat 0) with 0%nat.
      rewrite (list_lookup_total_correct _ _ _ E). apply Hzero, E.
    + exfalso. destruct (Hbwd id) as [s Hs].
      { destruct Hl as [[Hnil _] | Hl]; [|lia].
        rewrite Hnil in Hlt. simpl in Hlt. lia. }
      destruct (Hnew _ _ Hs) as [Hinit|Hin]; [|done].
      simpl in Hinit. rewrite lookup_empty in Hinit. done.
Qed.

End SymbolMapperFacts.

Lemma get_id_idempotent_injective_witness :
  SymbolMapper.get_id "AAPL" mapper3 = Some (1, mapper3) /\
  SymbolMapper.get_id "MSFT" mapper3 = Some (2, mapper3).
Proof.
  split.
  - apply (proj2 (proj2 (proj2 (get_id_idempotent_injective trace3) [1; 2; 1] mapper3
                                 ltac:(vm_compute; reflexivity)))
             0%nat "AAPL"%string 1); reflexivity.
  - apply (proj2 (proj2 (proj2 (get_id_idempotent_injective trace3) [1; 2; 1] mapper3
                                 ltac:(vm_compute; reflexivity)))
             1%nat "MSFT"%string 2); reflexivity.
Defined.

Lemma get_symbol_total_roundtrip_witness :
  SymbolMapper.get_symbol 2 mapper3 = "MSFT"%string /\
  SymbolMapper.get_symbol 0 mapper3 = EmptyString /\
  SymbolMapper.get_symbol 7 mapper3 = EmptyString.
Proof.
  pose proof (get_symbol_total_roundtrip trace3 [1; 2; 1] mapper3
                ltac:(vm_compute; reflexivity)) as [Hback Hnone].
  split; [|split].
  - apply (Hback 1%nat "MSFT"%string 2); reflexivity.
  - apply Hnone; [lia|]. rewrite !elem_of_cons, elem_of_nil. lia.
  - apply Hnone; [lia|]. rewrite !elem_of_cons, elem_of_nil. lia.
Defined.

(** ** Price and MarketTick *)

(** C4 (the code does otherwise): [operator+] and [operator-] do not stay on
    the integer representation.  The integer result is divided by 10000.0
    and [Price(double)] multiplies back and truncates, which loses one unit
    whenever the product falls just below the integer: $0.50 + $0.07 and
    $1.00 - $0.43 both come out as $0.5699, and 1 + 2 units as 2 units. *)
Theorem Price_plus_minus_lose_a_unit :
  PriceOps.plus (mkPrice 5000) (mkPrice 700) = Some (mkPrice 5699) /\
  PriceOps.minus (mkPrice 10000) (mkPrice 4300) = Some (mkPrice 5699) /\
  PriceOps.plus (mkPrice 1) (mkPrice 2) = Some (mkPrice 2) /\
  PriceOps.plus (mkPrice 5500) (mkPrice 200) <> Some (mkPrice (5500 + 200)).
Proof. vm_compute. repeat split. discriminate. Qed.

Lemma binary_round_aux_sign s m e l :
  match binary_round_aux Double.prec Double.emax s m e l with
  | S754_zero s' | S754_infinity s' | S754_finite s' _ _ => s' = s
  | S754_nan => True
  end.
Proof.
  unfold binary_round_aux.
  destruct (shr_fexp _ _ m e l) as [mrs' e'].
  destruct (shr_fexp _ _ _ e' loc_Exact) as [mrs'' e''].
  destruct (shr_m mrs''); [done| |done].
  destruct (e'' <=? _); done.
Qed.

Lemma binary_round_aux_neg m e l :
  not_positive (binary_round_aux Double.prec Double.emax true m e l).
Proof.
  pose proof (binary_round_aux_sign true m e l) as H.
  destruct (binary_round_aux _ _ _ _ _ _); done.
Qed.

Lemma of_Z_nonpos z : z <= 0 -> not_positive (Double.of_Z z).
Proof.
  intros Hz. destruct z as [|p|p]; [done|lia|].
  unfold Double.of_Z, binary_normalize, binary_round.
  destruct (shl_align _ _ _). apply binary_round_aux_neg.
Qed.

Lemma div_pos_not_positive x m e :
  not_positive x -> not_positive (Double.div x (S754_finite false m e)).
Proof.
  destruct x as [s|s| |s mx ex]; try done.
  - intros ->. done.
  - intros ->. unfold Double.div, SFdiv.
    destruct (SFdiv_core_binary _ _ _ _ _ _) as [[mz ez] lz].
    apply binary_round_aux_neg.
Qed.

Lemma mul_pos_not_positive x m e :
  not_positive x -> not_positive (Double.mul x (S754_finite false m e)).
Proof.
  destruct x as [s|s| |s mx ex]; try done.
  - intros ->. done.
  - intros ->. apply binary_round_aux_neg.
Qed.

Lemma add_not_positive x y :
  not_positive x -> not_positive y -> not_positive (Double.add x y).
Proof.
  destruct x as [sx|sx| |sx mx ex], y as [sy|sy| |sy my ey]; try done.
  - destruct sx, sy; done.
  - intros -> ->. done.
  - intros -> ->. unfold Double.add, SFadd.
    set (a := fst (shl_align mx ex _)). set (b := fst (shl_align my ey _)).
    change (cond_Zopp true (Z.pos a) + cond_Zopp true (Z.pos b)) with (Z.neg (a + b)).
    unfold binary_normalize, binary_round.
    destruct (shl_align (a + b) _ _). apply binary_round_aux_neg.
Qed.

Lemma to_int64_nonpos d z :
  not_positive d -> Double.to_int64 d = Some z -> z <= 0.
Proof.
  destruct d as [s|s| |s m e]; simpl; try done.
  - intros _ [= <-]. lia.
  - intros ->. destruct (in_int64 _); [|done]. intros [= <-].
    unfold Double.truncate. simpl.
    destruct e as [|k|k].
    + lia.
    + pose proof (Z.pow_nonneg 2 (Z.pos k)). nia.
    + assert (0 <= Z.pos m / 2 ^ Z.pos k) by (apply Z.div_pos; lia). lia.
Qed.

Lemma gtb_zero_not_positive d : not_positive d -> Double.gtb d Double.zero = false.
Proof.
  destruct d as [s|s| |s m e]; simpl; try done; intros ->; done.
Qed.

Lemma of_Z_10000 : Double.of_Z 10000 = S754_finite false 5497558138880000 (-39).
Proof. vm_compute. reflexivity. Qed.

Lemma of_Z_2 : Double.of_Z 2 = S754_finite false 4503599627370496 (-51).
Proof. vm_compute. reflexivity. Qed.

(** *** Magnitudes: where the conversions to [int64_t] are defined *)

Lemma digits2_pos_size p : digits2_pos p = Pos.size p.
Proof. induction p; simpl; congruence. Qed.

Lemma Zdigits2_nonneg m : 0 <= Zdigits2 m.
Proof. destruct m; simpl; lia. Qed.

Lemma Zdigits2_le m k : 0 <= m -> 0 <= k -> (Zdigits2 m <= k <-> m < 2 ^ k).
Proof.
  intros Hm Hk. destruct m as [|p|p]; [|clear Hm|lia].
  - simpl. pose proof (Z.pow_pos_nonneg 2 k). lia.
  - simpl. rewrite digits2_pos_size.
    pose proof (Pos.size_gt p) as Hgt. pose proof (Pos.size_le p) as Hle.
    apply Pos2Z.pos_lt_pos in Hgt. apply Pos2Z.pos_le_pos in Hle.
    rewrite Pos2Z.inj_pow in Hgt, Hle.
    split; intros H.
    + eapply Z.lt_le_trans; [exact Hgt|]. apply Z.pow_le_mono_r; lia.
    + destruct (Z.le_gt_cases (Z.pos (Pos.size p)) k) as [|Hgt']; [done|].
      assert (2 ^ Z.succ k <= 2 ^ Z.pos (Pos.size p)) by (apply Z.pow_le_mono_r; lia).
      rewrite Z.pow_succ_r in * by lia. lia.
Qed.

Lemma shr_1_m mrs :
  0 <= shr_m mrs ->
  shr_m (shr_1 mrs) = shr_m mrs / 2 /\ 0 <= shr_m (shr_1 mrs).
Proof.
  destruct mrs as [m r s]. cbn [shr_m]. intros Hm.
  destruct m as [|[p|p|]|p]; cbn [shr_1 shr_m]; [done| | |done|lia].
  - split; [|lia]. apply Z.div_unique with (r := 1); lia.
  - split; [|lia]. apply Z.div_unique with (r := 0); lia.
Qed.

Lemma iter_pos_shr_1 n : forall mrs, 0 <= shr_m mrs ->
  shr_m (SpecFloat.iter_pos shr_1 n mrs) = shr_m mrs / 2 ^ Z.pos n.
Proof.
  induction n as [n IH|n IH|]; intros mrs Hm; simpl SpecFloat.iter_pos.
  - destruct (shr_1_m mrs Hm) as [H1 H1'].
    rewrite IH, IH, H1; [|done|rewrite IH by done; apply Z.div_pos; lia].
    rewrite !Z.div_div by lia. f_equal.
    replace (Z.pos n~1) with (1 + Z.pos n + Z.pos n) by lia.
    rewrite !Z.pow_add_r by lia. lia.
  - rewrite IH, IH; [|done|rewrite IH by done; apply Z.div_pos; lia].
    rewrite Z.div_div by lia. f_equal.
    replace (Z.pos n~0) with (Z.pos n + Z.pos n) by lia.
    rewrite Z.pow_add_r by lia. lia.
  - apply shr_1_m, Hm.
Qed.

Lemma shr_record_of_loc_m m l : shr_m (shr_record_of_loc m l) = m.
Proof. destruct l as [|[]]; reflexivity. Qed.

Lemma fexp_eq e : fexp Double.prec Double.emax e = Z.max (e - 53) (-1074).
Proof. reflexivity. Qed.

Lemma shr_fexp_bound m e l k :
  0 <= m -> -1074 <= k -> Zdigits2 m + e <= k ->
  0 <= shr_m (fst (shr_fexp Double.prec Double.emax m e l)) /\
  Zdigits2 (shr_m (fst (shr_fexp Double.prec Double.emax m e l)))
    + snd (shr_fexp Double.prec Double.emax m e l) <= k.
Proof.
  intros Hm Hk Hd. unfold shr_fexp, shr. rewrite fexp_eq.
  destruct (Z.max (Zdigits2 m + e - 53) (-1074) - e) as [|n|n] eqn:En; simpl;
    rewrite ?shr_record_of_loc_m; try (split; [done|done]).
  rewrite iter_pos_shr_1 by (rewrite shr_record_of_loc_m; done).
  rewrite shr_record_of_loc_m.
  pose proof (Zdigits2_nonneg m) as Hd0.
  assert (Hq : 0 <= m / 2 ^ Z.pos n) by (apply Z.div_pos; lia).
  split; [done|].
  assert (Hroom : 0 <= k - e - Z.pos n) by lia.
  enough (Zdigits2 (m / 2 ^ Z.pos n) <= k - e - Z.pos n) by lia.
  apply Zdigits2_le; [done|done|].
  assert (Hlt : m < 2 ^ (k - e)) by (apply Zdigits2_le; lia).
  apply Z.div_lt_upper_bound; [lia|].
  rewrite <- Z.pow_add_r by lia.
  replace (Z.pos n + (k - e - Z.pos n)) with (k - e) by lia.
  exact Hlt.
Qed.

Lemma round_nearest_even_bound m l e k :
  0 <= m -> Zdigits2 m + e <= k ->
  0 <= round_nearest_even m l /\ Zdigits2 (round_nearest_even m l) + e <= k + 1.
Proof.
  intros Hm Hd. pose proof (Zdigits2_nonneg m) as Hd0.
  assert (Hlt : m < 2 ^ (k - e)) by (apply Zdigits2_le; lia).
  assert (Hs : 0 <= m + 1 /\ Zdigits2 (m + 1) + e <= k + 1).
  { split; [lia|]. enough (Zdigits2 (m + 1) <= k + 1 - e) by lia.
    apply Zdigits2_le; [lia|lia|].
    replace (k + 1 - e) with (Z.succ (k - e)) by lia.
    rewrite Z.pow_succ_r by lia. lia. }
  unfold round_nearest_even.
  destruct l as [|[]]; try destruct (Z.even m); try (split; [done|lia]); exact Hs.
Qed.

Lemma binary_round_aux_mag s m e l k :
  0 <= m -> 0 <= k <= 971 -> Zdigits2 m + e <= k ->
  mag_le (k + 1) (binary_round_aux Double.prec Double.emax s m e l).
Proof.
  intros Hm Hk Hd. unfold binary_round_aux.
  pose proof (shr_fexp_bound m e l k Hm ltac:(lia) Hd) as [H1 H1'].
  destruct (shr_fexp _ _ m e l) as [mrs1 e1]. simpl in H1, H1'.
  pose proof (round_nearest_even_bound _ (loc_of_shr_record mrs1) _ _ H1 H1')
    as [H2 H2'].
  pose proof (shr_fexp_bound _ e1 loc_Exact (k + 1) H2 ltac:(lia) H2') as [H3 H3'].
  destruct (shr_fexp _ _ _ e1 loc_Exact) as [mrs2 e2]. simpl in H3, H3'.
  destruct (shr_m mrs2) as [|p|p]; [done| |lia].
  simpl in H3'.
  destruct (Z.leb_spec e2 (Double.emax - Double.prec)) as [|Hbig]; [exact H3'|].
  unfold Double.emax, Double.prec in Hbig. lia.
Qed.

Lemma mag_le_mono k k' f : k <= k' -> mag_le k f -> mag_le k' f.
Proof. destruct f; simpl; try done. lia. Qed.

Lemma digits2_pos_iter_xO m d :
  Z.pos (digits2_pos (Pos.iter xO m d)) = Z.pos (digits2_pos m) + Z.pos d.
Proof.
  induction d as [|d IH] using Pos.peano_ind.
  - simpl. lia.
  - rewrite Pos.iter_succ. cbn [digits2_pos]. lia.
Qed.

Lemma shl_align_digits m e e0 :
  Z.pos (digits2_pos (fst (shl_align m e e0))) + snd (shl_align m e e0)
    = Z.pos (digits2_pos m) + e.
Proof.
  unfold shl_align. destruct (e0 - e) as [|d|d] eqn:Ed; simpl; try done.
  rewrite digits2_pos_iter_xO. lia.
Qed.

Lemma binary_round_mag s m e k :
  0 <= k <= 971 -> Z.pos (digits2_pos m) + e <= k ->
  mag_le (k + 1) (binary_round Double.prec Double.emax s m e).
Proof.
  intros Hk Hd. unfold binary_round.
  pose proof (shl_align_digits m e
                (fexp Double.prec Double.emax (Z.pos (digits2_pos m) + e))) as Hal.
  destruct (shl_align _ _ _) as [mz ez]. simpl in Hal.
  apply binary_round_aux_mag; [lia|done|]. simpl. lia.
Qed.

Lemma binary_normalize_mag z e k :
  0 <= k <= 971 -> Zdigits2 z + e <= k ->
  mag_le (k + 1) (binary_normalize Double.prec Double.emax z e false).
Proof.
  intros Hk Hd. destruct z as [|p|p]; [done| |]; apply binary_round_mag; done.
Qed.

Lemma Zdigits2_abs_lt z k : 0 <= k -> Z.abs z < 2 ^ k -> Zdigits2 z <= k.
Proof.
  intros Hk Hz. destruct z as [|p|p]; [simpl; lia| |].
  - apply Zdigits2_le; [lia|done|]. simpl in Hz. done.
  - change (Zdigits2 (Z.neg p)) with (Zdigits2 (Z.pos p)).
    apply Zdigits2_le; [lia|done|]. simpl in Hz. done.
Qed.

Lemma of_Z_mag z k :
  0 <= k <= 971 -> Z.abs z < 2 ^ k -> mag_le (k + 1) (Double.of_Z z).
Proof.
  intros Hk Hz. apply binary_normalize_mag; [done|].
  pose proof (Zdigits2_abs_lt z k ltac:(lia) Hz). lia.
Qed.

Lemma pos_lt_pow_digits m : Z.pos m < 2 ^ Z.pos (digits2_pos m).
Proof. apply (Zdigits2_le (Z.pos m)); simpl; lia. Qed.

Lemma pow_digits_le_pos m : 2 ^ Z.pos (digits2_pos m) <= 2 * Z.pos m.
Proof.
  rewrite digits2_pos_size. pose proof (Pos.size_le m) as Hle.
  apply Pos2Z.pos_le_pos in Hle. rewrite Pos2Z.inj_pow in Hle. lia.
Qed.

Lemma mul_mag x y kx ky :
  mag_le kx x -> mag_le ky y -> 0 <= kx + ky <= 971 ->
  mag_le (kx + ky + 1) (Double.mul x y).
Proof.
  destruct x as [sx|sx| |sx mx ex], y as [sy|sy| |sy my ey]; try done.
  cbn [mag_le]. intros Hx Hy Hk. unfold Double.mul, SFmul.
  apply binary_round_aux_mag; [lia|done|].
  enough (Zdigits2 (Z.pos (mx * my))
            <= Z.pos (digits2_pos mx) + Z.pos (digits2_pos my)) by lia.
  apply Zdigits2_le; [lia|lia|].
  rewrite Z.pow_add_r, Pos2Z.inj_mul by lia.
  pose proof (pos_lt_pow_digits mx). pose proof (pos_lt_pow_digits my). nia.
Qed.

(** The reference definitions are written with the core library's integer
    operations; [lia] knows them under their usual names. *)
Ltac usual_Z :=
  change IntDef.Z.add with Z.add in *;
  change IntDef.Z.sub with Z.sub in *;
  change IntDef.Z.mul with Z.mul in *;
  change IntDef.Z.opp with Z.opp in *;
  change IntDef.Z.max with Z.max in *;
  change IntDef.Z.min with Z.min in *;
  change IntDef.Z.div_eucl with Z.div_eucl in *;
  change IntDef.Z.shiftl with Z.shiftl in *.

Lemma div_core_bound mx ex my ey k :
  Z.pos (digits2_pos mx) + ex <= k ->
  0 <= k - (Z.pos (digits2_pos my) + ey) + 1 ->
  let '(q, e', _) :=
    SFdiv_core_binary Double.prec Double.emax (Z.pos mx) ex (Z.pos my) ey in
  0 <= q /\ Zdigits2 q + e' <= k - (Z.pos (digits2_pos my) + ey) + 1.
Proof.
  intros Hx Hk. unfold SFdiv_core_binary. rewrite fexp_eq. cbn [Zdigits2]. usual_Z.
  pose proof (Pos2Z.is_pos (digits2_pos mx)) as Hd1.
  pose proof (Pos2Z.is_pos (digits2_pos my)) as Hd2.
  pose proof (pos_lt_pow_digits mx) as Hmx.
  pose proof (pow_digits_le_pos my) as Hmy.
  generalize dependent (Z.pos (digits2_pos mx)). intros d1 Hx Hd1 Hmx.
  generalize dependent (Z.pos (digits2_pos my)). intros d2 Hk Hd2 Hmy.
  set (e' := Z.min _ (ex - ey)).
  assert (He' : e' <= ex - ey /\ e' <= Z.max (d1 + ex - (d2 + ey) - 53) (-1074)).
  { unfold e'. lia. }
  clearbody e'.
  set (s := ex - ey - e').
  assert (Hs : 0 <= s) by (unfold s; lia).
  set (m' := match s with
             | Z.pos _ => Z.shiftl (Z.pos mx) s
             | 0 => Z.pos mx
             | Z.neg _ => 0
             end).
  assert (Hm' : m' = Z.pos mx * 2 ^ s).
  { unfold m'. destruct s as [|p|p] eqn:Es; [simpl; lia| |lia].
    apply Z.shiftl_mul_pow2. lia. }
  pose proof (Z_div_mod m' (Z.pos my) ltac:(lia)) as Hdm.
  destruct (Z.div_eucl m' (Z.pos my)) as [q r]. destruct Hdm as [Hdm Hr].
  assert (Hpow : 0 < 2 ^ s) by (apply Z.pow_pos_nonneg; lia).
  assert (Hq : 0 <= q) by nia.
  split; [done|].
  destruct (Z.le_gt_cases 0 (d1 + s - d2 + 1)) as [Ht|Ht].
  - enough (Zdigits2 q <= d1 + s - d2 + 1) by lia.
    apply Zdigits2_le; [done|done|].
    assert (Hsplit : 2 ^ (d1 + s) = 2 ^ (d2 - 1) * 2 ^ (d1 + s - d2 + 1)).
    { rewrite <- Z.pow_add_r by lia. f_equal. lia. }
    assert (Hd2p : 2 ^ d2 = 2 * 2 ^ (d2 - 1)).
    { rewrite <- Z.pow_succ_r by lia. f_equal. lia. }
    assert (Hm'lt : m' < 2 ^ (d1 + s)).
    { rewrite Hm', Z.pow_add_r by lia. nia. }
    assert (Hp : 0 < 2 ^ (d2 - 1)) by (apply Z.pow_pos_nonneg; lia).
    assert (Hp' : 0 < 2 ^ (d1 + s - d2 + 1)) by (apply Z.pow_pos_nonneg; lia).
    nia.
  - assert (Hm'lt : m' < 2 ^ (d1 + s)).
    { rewrite Hm', Z.pow_add_r by lia. nia. }
    assert (Hle : 2 ^ (d1 + s) <= 2 ^ (d2 - 2)) by (apply Z.pow_le_mono_r; lia).
    assert (Hd2p : 2 ^ d2 = 4 * 2 ^ (d2 - 2)).
    { replace d2 with (2 + (d2 - 2)) at 1 by lia.
      rewrite Z.pow_add_r by lia. reflexivity. }
    assert (q = 0) by nia. subst q. simpl. lia.
Qed.

Lemma div_mag x sy my ey k :
  mag_le k x ->
  0 <= k - (Z.pos (digits2_pos my) + ey) + 1 <= 971 ->
  mag_le (k - (Z.pos (digits2_pos my) + ey) + 2) (Double.div x (S754_finite sy my ey)).
Proof.
  destruct x as [sx|sx| |sx mx ex]; try done.
  cbn [mag_le]. intros Hx Hk. unfold Double.div, SFdiv.
  pose proof (div_core_bound mx ex my ey k Hx ltac:(lia)) as Hcore.
  destruct (SFdiv_core_binary _ _ _ _ _ _) as [[q e'] l]. destruct Hcore as [Hq Hd].
  replace (k - (Z.pos (digits2_pos my) + ey) + 2)
    with (k - (Z.pos (digits2_pos my) + ey) + 1 + 1) by lia.
  apply binary_round_aux_mag; done.
Qed.

Lemma shl_align_value m e e0 : e0 <= e ->
  Z.pos (fst (shl_align m e e0)) = Z.pos m * 2 ^ (e - e0).
Proof.
  intros He. unfold shl_align. destruct (e0 - e) as [|d|d] eqn:Ed; simpl fst; try lia.
  - replace (e - e0) with 0 by lia. lia.
  - replace (e - e0) with (Z.pos d) by lia.
    clear. induction d as [|d IH] using Pos.peano_ind.
    + simpl. lia.
    + rewrite Pos.iter_succ, Pos2Z.inj_xO, IH, Pos2Z.inj_succ, Z.pow_succ_r by lia. lia.
Qed.

Lemma aligned_lt m e ez k :
  ez <= e -> Z.pos (digits2_pos m) + e <= k ->
  Z.pos (fst (shl_align m e ez)) < 2 ^ (k - ez).
Proof.
  intros Hez Hk. rewrite shl_align_value by done.
  pose proof (pos_lt_pow_digits m) as Hm.
  assert (Hp : 0 < 2 ^ (e - ez)) by (apply Z.pow_pos_nonneg; lia).
  assert (Hle : 2 ^ (Z.pos (digits2_pos m) + (e - ez)) <= 2 ^ (k - ez))
    by (apply Z.pow_le_mono_r; lia).
  rewrite Z.pow_add_r in Hle by lia. nia.
Qed.

Lemma add_mag x y k :
  mag_le k x -> mag_le k y -> 0 <= k + 1 <= 971 ->
  mag_le (k + 2) (Double.add x y).
Proof.
  destruct x as [sx|sx| |sx mx ex], y as [sy|sy| |sy my ey]; try done.
  - intros _ _ _. destruct sx, sy; done.
  - intros _ Hy _. cbn. cbn in Hy. lia.
  - intros Hx _ _. cbn. cbn in Hx. lia.
  - cbn [mag_le]. intros Hx Hy Hk. unfold Double.add, SFadd.
    set (ez := Z.min ex ey).
    pose proof (aligned_lt mx ex ez k ltac:(lia) Hx) as Hax.
    pose proof (aligned_lt my ey ez k ltac:(lia) Hy) as Hay.
    set (a := Z.pos (fst (shl_align mx ex ez))) in *.
    set (b := Z.pos (fst (shl_align my ey ez))) in *.
    replace (k + 2) with (k + 1 + 1) by lia.
    apply binary_normalize_mag; [lia|].
    enough (Zdigits2 (cond_Zopp sx a + cond_Zopp sy b) <= k + 1 - ez) by lia.
    apply Zdigits2_abs_lt; [lia|].
    replace (k + 1 - ez) with (Z.succ (k - ez)) by lia. rewrite Z.pow_succ_r by lia.
    destruct sx, sy; simpl; lia.
Qed.

Lemma to_int64_defined f : mag_le 63 f -> exists z, Double.to_int64 f = Some z.
Proof.
  destruct f as [s|s| |s m e]; try done.
  - intros _. eexists. reflexivity.
  - cbn [mag_le]. intros Hm. unfold Double.to_int64.
    assert (Hlt : 0 <= match e with
                       | Z.neg k => Z.pos m / 2 ^ Z.pos k
                       | _ => Z.pos m * 2 ^ e
                       end < 2 ^ 63).
    { pose proof (pos_lt_pow_digits m) as Hd.
      destruct e as [|p|p].
      - split; [lia|]. eapply Z.lt_le_trans; [rewrite Z.mul_1_r; exact Hd|].
        apply Z.pow_le_mono_r; lia.
      - assert (0 < 2 ^ Z.pos p) by (apply Z.pow_pos_nonneg; lia).
        split; [nia|].
        assert (2 ^ (Z.pos (digits2_pos m) + Z.pos p) <= 2 ^ 63)
          by (apply Z.pow_le_mono_r; lia).
        rewrite Z.pow_add_r in * by lia. nia.
      - assert (0 < 2 ^ Z.pos p) by (apply Z.pow_pos_nonneg; lia).
        split; [apply Z.div_pos; lia|].
        apply Z.div_lt_upper_bound; [lia|].
        assert (2 ^ Z.pos (digits2_pos m) <= 2 ^ (Z.pos p + 63))
          by (apply Z.pow_le_mono_r; lia).
        rewrite Z.pow_add_r in * by lia. lia. }
    unfold Double.truncate.
    set (v := match e with Z.neg k => _ | _ => _ end) in *.
    assert (Hin : in_int64 (cond_Zopp s v) = true).
    { unfold in_int64, INT64_MIN, INT64_MAX.
      apply andb_true_intro. rewrite !Z.leb_le. destruct s; simpl; lia. }
    rewrite Hin. eexists. reflexivity.
Qed.

Lemma to_double_mag p k :
  13 <= k <= 900 -> Z.abs (value p) < 2 ^ k -> mag_le (k - 11) (PriceOps.to_double p).
Proof.
  intros Hk Hv. unfold PriceOps.to_double. rewrite of_Z_10000.
  pose proof (of_Z_mag (value p) k ltac:(lia) Hv) as Hn.
  pose proof (div_mag _ false 5497558138880000 (-39) (k + 1) Hn) as Hd.
  change (Z.pos (digits2_pos 5497558138880000)) with 53 in Hd.
  eapply mag_le_mono; [|apply Hd; lia]. lia.
Qed.

Lemma of_double_defined d k :
  0 <= k <= 48 -> mag_le k d -> exists p, PriceOps.of_double d = Some p.
Proof.
  intros Hk Hd. unfold PriceOps.of_double. rewrite of_Z_10000.
  destruct (to_int64_defined (Double.mul d (S754_finite false 5497558138880000 (-39))))
    as [z Hz].
  - eapply mag_le_mono; [|apply (mul_mag d _ k 14 Hd)]; [lia| |lia].
    cbn. lia.
  - rewrite Hz. eexists. reflexivity.
Qed.

Lemma midpoint_defined t :
  Z.abs (value (bid t)) < 2 ^ 57 -> Z.abs (value (ask t)) < 2 ^ 57 ->
  exists m, MarketTickOps.midpoint t = Some m.
Proof.
  intros Hb Ha. unfold MarketTickOps.midpoint. rewrite of_Z_2.
  apply of_double_defined with (k := 48); [lia|].
  pose proof (to_double_mag (bid t) 57 ltac:(lia) Hb) as Hx.
  pose proof (to_double_mag (ask t) 57 ltac:(lia) Ha) as Hy.
  pose proof (add_mag _ _ (57 - 11) Hx Hy ltac:(lia)) as Hs.
  pose proof (div_mag _ false 4503599627370496 (-51) _ Hs) as Hd.
  change (Z.pos (digits2_pos 4503599627370496)) with 53 in Hd.
  eapply mag_le_mono; [|apply Hd; lia]. lia.
Qed.

Lemma plus_defined a b :
  Z.abs (value a + value b) < 2 ^ 59 -> exists p, PriceOps.plus a b = Some p.
Proof.
  intros Hs. unfold PriceOps.plus.
  assert (Hin : in_int64 (value a + value b) = true).
  { unfold in_int64, INT64_MIN, INT64_MAX. apply andb_true_intro.
    rewrite !Z.leb_le. lia. }
  rewrite Hin. apply of_double_defined with (k := 48); [lia|].
  exact (to_double_mag (mkPrice (value a + value b)) 59 ltac:(lia) Hs).
Qed.

Lemma to_double_nonpos p : value p <= 0 -> not_positive (PriceOps.to_double p).
Proof.
  intros Hp. unfold PriceOps.to_double. rewrite of_Z_10000.
  apply div_pos_not_positive, of_Z_nonpos, Hp.
Qed.

Lemma midpoint_nonpos t m :
  value (bid t) <= 0 -> value (ask t) <= 0 ->
  MarketTickOps.midpoint t = Some m -> value m <= 0.
Proof.
  intros Hb Ha. unfold MarketTickOps.midpoint, PriceOps.of_double.
  rewrite of_Z_10000, of_Z_2.
  destruct (Double.to_int64 _) as [z|] eqn:E; [|done].
  intros [= <-]. simpl. eapply to_int64_nonpos; [|exact E].
  apply mul_pos_not_positive, div_pos_not_positive, add_not_positive.
  - apply to_double_nonpos, Hb.
  - apply to_double_nonpos, Ha.
Qed.

(** C10: [spread_pct] returns a value for every tick with bid and ask below
    [2^57] units in absolute value; it divides only by a midpoint that is
    strictly positive, hence not zero, and returns 0.0 for every other
    midpoint, in particular when bid and ask are zero or negative. *)
Theorem spread_pct_guarded (t : MarketTick) :
  (Z.abs (value (bid t)) < 2 ^ 57 -> Z.abs (value (ask t)) < 2 ^ 57 ->
   exists m r, MarketTickOps.midpoint t = Some m /\
               MarketTickOps.spread_pct t = Some r) /\
  (forall m, MarketTickOps.midpoint t = Some m ->
     (Double.gtb (PriceOps.to_double m) Double.zero = false ->
      MarketTickOps.spread_pct t = Some Double.zero) /\
     (Double.gtb (PriceOps.to_double m) Double.zero = true ->
      PriceOps.to_double m <> S754_zero false /\
      PriceOps.to_double m <> S754_zero true /\
      MarketTickOps.spread_pct t =
        Some (Double.mul (Double.div (MarketTickOps.spread t) (PriceOps.to_double m))
                         (Double.of_Z 100))) /\
     (value (bid t) <= 0 -> value (ask t) <= 0 ->
      MarketTickOps.spread_pct t = Some Double.zero)) /\
  (- 2 ^ 57 < value (bid t) <= 0 -> - 2 ^ 57 < value (ask t) <= 0 ->
   MarketTickOps.spread_pct t = Some Double.zero).
Proof.
  assert (Hguard : forall m, MarketTickOps.midpoint t = Some m ->
            value (bid t) <= 0 -> value (ask t) <= 0 ->
            MarketTickOps.spread_pct t = Some Double.zero).
  { intros m Hm Hb Ha. unfold MarketTickOps.spread_pct. rewrite Hm.
    change (Double.of_Z 0) with Double.zero.
    rewrite (gtb_zero_not_positive (PriceOps.to_double m)); [done|].
    apply to_double_nonpos. eapply midpoint_nonpos; eauto. }
  split; [|split].
  - intros Hb Ha. destruct (midpoint_defined t Hb Ha) as [m Hm].
    exists m. unfold MarketTickOps.spread_pct. rewrite Hm. eauto.
  - intros m Hm. unfold MarketTickOps.spread_pct. rewrite Hm.
    change (Double.of_Z 0) with Double.zero.
    split; [|split].
    + intros ->. done.
    + intros Hg. rewrite Hg.
      split; [|split]; [| |done]; intros E; rewrite E in Hg; done.
    + intros Hb Ha. specialize (Hguard m Hm Hb Ha).
      unfold MarketTickOps.spread_pct in Hguard. rewrite Hm in Hguard. exact Hguard.
  - intros Hb Ha. destruct (midpoint_defined t) as [m Hm]; [lia|lia|].
    apply (Hguard m Hm); lia.
Qed.

Lemma spread_pct_guarded_witness :
  MarketTickOps.spread_pct (tick_of 0 0) = Some Double.zero /\
  MarketTickOps.spread_pct (tick_of (-1495500) (-1495000)) = Some Double.zero.
Proof.
  split.
  - apply (proj2 (proj2 (spread_pct_guarded (tick_of 0 0)))); simpl; lia.
  - apply (proj2 (proj2 (spread_pct_guarded (tick_of (-1495500) (-1495000)))));
      simpl; lia.
Defined.

(** ** The components modelled from the specification *)

Section AggregatorFacts.
Import MarketDataAggregator.

Lemma is_valid_false tick :
  value (ask tick) <= value (bid tick) \/
  value (ask tick) <= 0 \/ value (bid tick) <= 0 ->
  is_valid tick = false.
Proof.
  intros H. unfold is_valid, PriceOps.lt, PriceOps.gt. simpl.
  destruct (Z.ltb_spec (value (bid tick)) (value (ask tick)));
    destruct (Z.ltb_spec 0 (value (ask tick)));
    destruct (Z.ltb_spec 0 (value (bid tick))); simpl; try done; lia.
Qed.

Lemma is_valid_true tick :
  is_valid tick = true <-> 0 < value (bid tick) < value (ask tick).
Proof.
  unfold is_valid, PriceOps.lt, PriceOps.gt. simpl.
  rewrite !andb_true_iff, !Z.ltb_lt. lia.
Qed.

(** A valid tick is stored: it becomes the latest tick of its symbol, ends
    that symbol's history, and leaves the counter alone. *)
Lemma add_tick_accepts_valid (window : nat) (tick : MarketTick) (a : t) :
  0 < value (bid tick) < value (ask tick) -> (0 < window)%nat ->
  get_latest_tick (symbol_id tick) (add_tick window tick a) = Some tick /\
  List.last (get_history (symbol_id tick) (add_tick window tick a)) tick = tick /\
  (length (get_history (symbol_id tick) (add_tick window tick a)) <= window)%nat /\
  rejected_count_ (add_tick window tick a) = rejected_count_ a.
Proof.
  intros H%is_valid_true Hw. unfold add_tick, get_latest_tick, get_history.
  rewrite H. simpl. rewrite !lookup_insert_eq. simpl.
  split; [done|]. unfold append_window.
  set (h := default [] (price_history_ a !! symbol_id tick)).
  split; [|split; [|done]].
  - rewrite length_app. simpl.
    replace (length h + 1 - window)%nat with (length h - (window - 1))%nat by lia.
    rewrite drop_app_le by lia. apply last_last.
  - rewrite length_drop, length_app. simpl. lia.
Qed.

(** C7: a tick with [ask <= bid], [ask <= 0] or [bid <= 0] only increments
    the rejection counter: the latest tick of every symbol and every rolling
    history stay as they were. *)
Theorem add_tick_rejects_invalid (window : nat) (tick : MarketTick) (a : t) :
  value (ask tick) <= value (bid tick) \/
  value (ask tick) <= 0 \/ value (bid tick) <= 0 ->
  add_tick window tick a =
    {| latest_ := latest_ a;
       price_history_ := price_history_ a;
       rejected_count_ := wrap64 (rejected_count_ a + 1) |} /\
  (forall id, get_latest_tick id (add_tick window tick a) = get_latest_tick id a) /\
  (forall id, get_history id (add_tick window tick a) = get_history id a).
Proof.
  intros H. unfold add_tick. rewrite (is_valid_false tick H). done.
Qed.

End AggregatorFacts.

Lemma add_tick_rejects_invalid_witness :
  MarketDataAggregator.add_tick 20 (tick_of 1495500 1495000) empty_aggregator =
    {| MarketDataAggregator.latest_ := ∅;
       MarketDataAggregator.price_history_ := ∅;
       MarketDataAggregator.rejected_count_ := wrap64 (0 + 1) |}.
Proof.
  apply (proj1 (add_tick_rejects_invalid 20 (tick_of 1495500 1495000) empty_aggregator
                  ltac:(left; simpl; lia))).
Defined.

Section StrategyFacts.
Import StraddleStrategy.

(** The defaults as binary64 numbers: 0.15 and 0.25 of [Config()]. *)
Lemma default_percentages :
  profit_target_pct default_config = S754_finite false 5404319552844595 (-55) /\
  stop_loss_pct default_config = S754_finite false 4503599627370496 (-54).
Proof. split; vm_compute; reflexivity. Qed.



End StrategyFacts.

Section RiskFacts.
Import RiskManager.
Local Open Scope Q_scope.

Lemma Qgt_bool_true a b : Qgt_bool a b = true <-> b < a.
Proof.
  unfold Qgt_bool. rewrite negb_true_iff. split.
  - intros H. apply Qnot_le_lt. intros Hle. apply Qle_bool_iff in Hle. congruence.
  - intros H. destruct (Qle_bool a b) eqn:E; [|done].
    apply Qle_bool_iff in E. exfalso. apply (Qlt_not_le _ _ H E).
Qed.

Lemma Qgt_bool_false a b : Qgt_bool a b = false <-> a <= b.
Proof. unfold Qgt_bool. rewrite negb_false_iff. apply Qle_bool_iff. Qed.

Lemma too_large_denied rm p pv :
  max_position_size (limits_ rm) * pv < notional p ->
  first_denial rm p pv = Some PositionTooLarge.
Proof.
  intros H. unfold first_denial. rewrite (proj2 (Qgt_bool_true _ _) H). done.
Qed.

Lemma within_limits_accepted rm p pv :
  notional p <= max_position_size (limits_ rm) * pv ->
  other_limits_ok rm pv -> first_denial rm p pv = None.
Proof.
  intros H (Hrisk & Hcount & Hloss). unfold first_denial.
  rewrite (proj2 (Qgt_bool_false _ _) H), (proj2 (Qgt_bool_false _ _) Hrisk).
  destruct (Z.ltb_spec (max_positions (limits_ rm)) (open_positions_ rm + 1)); [lia|].
  rewrite (proj2 (Qgt_bool_false _ _) Hloss). done.
Qed.

(** C6: [can_open_position] returns false whenever the notional exceeds
    [max_position_size * portfolio_value], and true when it does not and the
    other limits hold; with the default 0.05 and a portfolio of $100,000, a
    notional of $6,000 is rejected and one of $4,000 accepted. *)
Theorem position_size_gate (rm : t) (p : StraddlePosition) (portfolio_value : Q) :
  (max_position_size (limits_ rm) * portfolio_value < notional p ->
   can_open_position rm p portfolio_value = false /\
   first_denial rm p portfolio_value = Some PositionTooLarge) /\
  (notional p <= max_position_size (limits_ rm) * portfolio_value ->
   other_limits_ok rm portfolio_value ->
   can_open_position rm p portfolio_value = true) /\
  (limits_ rm = default_limits -> portfolio_value == 100000 ->
   (notional p == 6000 -> can_open_position rm p portfolio_value = false) /\
   (notional p == 4000 -> other_limits_ok rm portfolio_value ->
    can_open_position rm p portfolio_value = true)).
Proof.
  unfold can_open_position. split; [|split].
  - intros H. rewrite (too_large_denied _ _ _ H). done.
  - intros H Hok. rewrite (within_limits_accepted _ _ _ H Hok). done.
  - intros Hlim Hpv. split.
    + intros Hn. rewrite too_large_denied; [done|].
      rewrite Hlim, Hpv, Hn. reflexivity.
    + intros Hn Hok. rewrite within_limits_accepted; [done| |done].
      rewrite Hlim, Hpv, Hn. discriminate.
Qed.

End RiskFacts.

Lemma position_size_gate_witness :
  RiskManager.can_open_position idle_manager
    (pending_position (mkPrice 60000000)) 100000 = false /\
  RiskManager.can_open_position idle_manager
    (pending_position (mkPrice 40000000)) 100000 = true.
Proof.
  split.
  - apply (proj1 (proj2 (proj2 (position_size_gate idle_manager
                                  (pending_position (mkPrice 60000000)) 100000))
                    eq_refl ltac:(reflexivity))).
    reflexivity.
  - apply (proj2 (proj2 (proj2 (position_size_gate idle_manager
                                  (pending_position (mkPrice 40000000)) 100000))
                    eq_refl ltac:(reflexivity))).
    + reflexivity.
    + unfold RiskManager.other_limits_ok. simpl.
      repeat split; try lia; discriminate.
Defined.

(** * Further properties *)

(** ** CircularBuffer against a reference queue *)

Section RingModelFacts.
Import CircularBuffer RingModel.
Context {T : Type} `{!Inhabited T}.
Variable Size : Z.
Hypothesis Size_pos : 0 < Size < 2 ^ 64.
Implicit Types cb : CircularBuffer.t (T:=T).

Lemma exec_refines o cb :
  wf Size cb ->
  fst (exec Size o cb) = fst (queue_exec Size o (contents Size cb)) /\
  wf Size (snd (exec Size o cb)) /\
  contents Size (snd (exec Size o cb)) = snd (queue_exec Size o (contents Size cb)).
Proof.
  intros Hwf. destruct o as [x|]; simpl.
  - pose proof (length_contents Size Size_pos cb Hwf) as Hl.
    destruct (full Size cb) eqn:Hf.
    + rewrite (push_full Size cb x Hf). simpl.
      apply (full_iff_size Size Size_pos cb Hwf) in Hf.
      destruct (Z.ltb_spec (Z.of_nat (length (contents Size cb))) (Size - 1)); [lia|].
      done.
    + destruct (push_not_full Size Size_pos cb x Hwf Hf) as (cb' & -> & Hwf' & Hc).
      simpl.
      pose proof (size_bounds Size Size_pos cb Hwf) as Hb.
      destruct (Z.ltb_spec (Z.of_nat (length (contents Size cb))) (Size - 1)) as [|Hge].
      * done.
      * assert (Hfull : full Size cb = true)
          by (apply (full_iff_size Size Size_pos cb Hwf); lia).
        congruence.
  - destruct (empty cb) eqn:He.
    + rewrite (pop_empty Size cb He). simpl.
      rewrite (contents_empty Size Size_pos cb Hwf He). done.
    + destruct (pop_not_empty Size Size_pos cb Hwf He) as (x & cb' & -> & Hwf' & Hc).
      simpl. rewrite Hc. done.
Qed.

(** X1: any sequence of [push] and [pop] calls on a well-formed buffer
    returns, call by call, what the same calls return on a plain queue
    bounded by [Size - 1] values, and the two hold the same values in the
    same order afterwards. *)
Theorem ring_refines_queue (ops : list (op (T:=T))) (cb : CircularBuffer.t (T:=T)) :
  wf Size cb ->
  fst (exec_all Size ops cb) = fst (queue_exec_all Size ops (contents Size cb)) /\
  contents Size (snd (exec_all Size ops cb))
    = snd (queue_exec_all Size ops (contents Size cb)).
Proof.
  revert cb. induction ops as [|o ops IH]; intros cb Hwf; simpl; [done|].
  destruct (exec_refines o cb Hwf) as (Hr & Hwf' & Hc).
  destruct (exec Size o cb) as [r cb1]. 
  destruct (queue_exec Size o (contents Size cb)) as [r' q1]. simpl in *. subst r' q1.
  destruct (IH cb1 Hwf') as [IH1 IH2].
  destruct (exec_all Size ops cb1) as [rs cb2].
  destruct (queue_exec_all Size ops (contents Size cb1)) as [rs' q2]. simpl in *.
  subst. done.
Qed.

Lemma push_all_full items : forall cb, full Size cb = true ->
  push_all Size items cb = (replicate (length items) false, cb).
Proof.
  induction items as [|x rest IH]; intros cb Hf; simpl; [done|].
  rewrite (push_full Size cb x Hf), (IH cb Hf). done.
Qed.

Lemma push_all_app a b cb :
  push_all Size (a ++ b) cb =
    (fst (push_all Size a cb) ++ fst (push_all Size b (snd (push_all Size a cb))),
     snd (push_all Size b (snd (push_all Size a cb)))).
Proof.
  revert cb. induction a as [|x a IH]; intros cb; simpl.
  - destruct (push_all Size b cb). done.
  - destruct (push Size x cb) as [ok cb1]. rewrite IH.
    destruct (push_all Size a cb1) as [oks cb2]. simpl. done.
Qed.

(** X2: pushing at least [Size - 1] values into an empty buffer accepts the
    first [Size - 1] and refuses every later one; the buffer is then full,
    and popping gives back exactly the accepted values, oldest first: on
    overflow the new values are dropped, the old ones are never overwritten. *)
Theorem overflow_keeps_oldest (cb : CircularBuffer.t (T:=T)) (items : list T) :
  wf Size cb -> empty cb = true ->
  Size - 1 <= Z.of_nat (length items) ->
  let n := Z.to_nat (Size - 1) in
  exists cb1 cb2,
    push_all Size items cb
      = (replicate n true ++ replicate (length items - n) false, cb1) /\
    full Size cb1 = true /\
    pop_n Size n cb1 = (Some <$> take n items, cb2) /\
    pop Size cb2 = (None, cb2).
Proof.
  intros Hwf He Hlen n.
  pose proof (contents_empty Size Size_pos cb Hwf He) as Hc.
  assert (Hn : length (take n items) = n) by (rewrite length_take; lia).
  destruct (push_all_fits Size Size_pos (take n items) cb Hwf)
    as (cb1 & Hpush & Hwf1 & Hc1).
  { rewrite Hc, Hn. simpl. lia. }
  rewrite Hc in Hc1. simpl in Hc1.
  assert (Hfull : full Size cb1 = true).
  { apply (full_iff_size Size Size_pos cb1 Hwf1).
    rewrite <- (length_contents Size Size_pos cb1 Hwf1), Hc1, Hn. lia. }
  destruct (pop_n_contents Size Size_pos n cb1 Hwf1) as (cb2 & Hpop & Hwf2 & Hc2).
  { rewrite Hc1, Hn. done. }
  rewrite Hc1 in Hpop, Hc2. rewrite take_take, Nat.min_id in Hpop.
  rewrite drop_ge in Hc2 by lia.
  exists cb1, cb2. split; [|split; [done|split; [done|]]].
  - rewrite <- (take_drop n items) at 1. rewrite push_all_app, Hpush. simpl.
    rewrite (push_all_full _ cb1 Hfull), Hn, length_drop. done.
  - apply pop_empty, (empty_contents Size Size_pos cb2 Hwf2 Hc2).
Qed.

(** X3: [empty()] and [full()] hold together exactly when [Size = 1]; such
    a buffer refuses every push and every pop, and is left unchanged. *)
Theorem empty_and_full_only_at_Size_1 (cb : CircularBuffer.t (T:=T)) :
  wf Size cb ->
  (empty cb = true /\ full Size cb = true <-> Size = 1) /\
  (Size = 1 -> forall item,
     push Size item cb = (false, cb) /\ pop Size cb = (None, cb)).
Proof.
  intros Hwf.
  pose proof (empty_iff_size Size Size_pos cb Hwf) as He.
  pose proof (full_iff_size Size Size_pos cb Hwf) as Hf.
  pose proof (size_bounds Size Size_pos cb Hwf) as Hb.
  split.
  - split.
    + intros [H1 H2]. apply He in H1. apply Hf in H2. lia.
    + intros H1. split; [apply He | apply Hf]; lia.
  - intros H1 item. split.
    + apply push_full, Hf. lia.
    + apply pop_empty, He. lia.
Qed.

(** X4: after any sequence of pushes and pops on a new buffer the array
    keeps its [Size] cells and [head_] and [tail_] are valid indices into
    it, so the accesses [buffer_[current_tail]] and [buffer_[current_head]]
    stay inside the array. *)
Theorem indices_stay_in_bounds (cells : list T) (ops : list (op (T:=T))) :
  length cells = Z.to_nat Size ->
  let cb := run Size ops (fresh cells) in
  length (buffer_ cb) = length cells /\
  (Z.to_nat (head_ cb) < length (buffer_ cb))%nat /\
  (Z.to_nat (tail_ cb) < length (buffer_ cb))%nat /\
  0 <= head_ cb /\ 0 <= tail_ cb.
Proof.
  intros Hlen cb.
  destruct (run_wf Size Size_pos ops (fresh cells) (fresh_wf Size Size_pos cells Hlen))
    as (Hl & Hh & Ht).
  fold cb in Hl, Hh, Ht. rewrite Hl, Hlen. repeat split; lia.
Qed.
End RingModelFacts.

Lemma ring_refines_queue_witness :
  fst (RingModel.exec_all 4 ops6 (CircularBuffer.fresh cells4))
    = fst (RingModel.queue_exec_all 4 ops6
             (CircularBuffer.contents 4 (CircularBuffer.fresh cells4))) /\
  CircularBuffer.contents 4 (snd (RingModel.exec_all 4 ops6 (CircularBuffer.fresh cells4)))
    = snd (RingModel.queue_exec_all 4 ops6
             (CircularBuffer.contents 4 (CircularBuffer.fresh cells4))).
Proof.
  apply (ring_refines_queue 4 ltac:(lia) ops6 (CircularBuffer.fresh cells4)).
  unfold CircularBuffer.wf. simpl. lia.
Defined.

Lemma overflow_keeps_oldest_witness :
  exists cb1 cb2,
    CircularBuffer.push_all 4 [10; 20; 30; 40; 50] (CircularBuffer.fresh cells4)
      = ([true; true; true; false; false], cb1) /\
    CircularBuffer.full 4 cb1 = true /\
    CircularBuffer.pop_n 4 3 cb1 = ([Some 10; Some 20; Some 30], cb2) /\
    CircularBuffer.pop 4 cb2 = (None, cb2).
Proof.
  apply (overflow_keeps_oldest 4 ltac:(lia) (CircularBuffer.fresh cells4)
           [10; 20; 30; 40; 50]).
  - unfold CircularBuffer.wf. simpl. lia.
  - reflexivity.
  - simpl. lia.
Defined.

Lemma empty_and_full_only_at_Size_1_witness :
  CircularBuffer.push 1 7 (CircularBuffer.fresh [0])
    = (false, CircularBuffer.fresh [0]) /\
  CircularBuffer.pop 1 (CircularBuffer.fresh [0]) = (None, CircularBuffer.fresh [0]).
Proof.
  apply (proj2 (empty_and_full_only_at_Size_1 1 ltac:(lia) (CircularBuffer.fresh [0])
                  ltac:(unfold CircularBuffer.wf; simpl; lia))).
  reflexivity.
Defined.

Lemma indices_stay_in_bounds_witness :
  (Z.to_nat (CircularBuffer.tail_ (CircularBuffer.run 4 ops6 (CircularBuffer.fresh cells4)))
   < length (CircularBuffer.buffer_
               (CircularBuffer.run 4 ops6 (CircularBuffer.fresh cells4))))%nat.
Proof.
  apply (indices_stay_in_bounds 4 ltac:(lia) cells4 ops6).
  reflexivity.
Defined.

(** ** SymbolMapper: dense ids and the end of the counter *)

Section SymbolMapperDense.
Import SymbolMapper.

Lemma get_id_counted s m id m' :
  inv m -> counted m -> get_id s m = Some (id, m') ->
  counted m' /\
  dom (symbol_to_id_ m') = {[s]} ∪ dom (symbol_to_id_ m) /\
  (s ∉ dom (symbol_to_id_ m) -> id = 1 + Z.of_nat (size (symbol_to_id_ m))).
Proof.
  intros Hinv Hc Hget. unfold counted in *.
  destruct (symbol_to_id_ m !! s) as [id0|] eqn:Hlk.
  - rewrite (get_id_hit _ _ _ Hlk) in Hget. injection Hget as <- <-.
    assert (s ∈ dom (symbol_to_id_ m)) by (apply elem_of_dom; eauto).
    split; [done|]. split; [|done].
    symmetry. apply subseteq_union_1_L, singleton_subseteq_l. done.
  - destruct (get_id_miss s m id m' Hinv Hlk Hget) as (Hid & _ & Htab & _ & Hnx).
    rewrite Htab, Hnx, Hid. rewrite map_size_insert_None by done.
    split; [lia|]. split; [apply dom_insert_L|]. intros _. lia.
Qed.

Lemma get_ids_counted symbols : forall m0 ids m,
  inv m0 -> counted m0 -> get_ids symbols m0 = Some (ids, m) ->
  counted m /\
  dom (symbol_to_id_ m) = dom (symbol_to_id_ m0) ∪ list_to_set symbols /\
  (forall i s id, symbols !! i = Some s -> ids !! i = Some id ->
     s ∉ dom (symbol_to_id_ m0) -> s ∉ take i symbols ->
     id = 1 + Z.of_nat (size (dom (symbol_to_id_ m0) ∪ list_to_set (take i symbols)))).
Proof.
  induction symbols as [|s rest IH]; intros m0 ids m Hinv Hc; simpl.
  - intros [= <- <-]. split; [done|].
    split; [by rewrite (right_id_L ∅ (∪))|]. intros i s id Hs. done.
  - destruct (get_id s m0) as [[id1 m1]|] eqn:Hget; [|done].
    destruct (get_ids rest m1) as [[ids' m2]|] eqn:Hrest; [|done].
    intros [= <- <-].
    destruct (get_id_inv _ _ _ _ Hinv Hget) as (Hinv1 & _).
    destruct (get_id_counted _ _ _ _ Hinv Hc Hget) as (Hc1 & Hdom1 & Hnew1).
    destruct (IH _ _ _ Hinv1 Hc1 Hrest) as (Hc2 & Hdom2 & Hpos).
    split; [done|].
    split; [by rewrite Hdom2, Hdom1, (comm_L (∪) {[s]}), !(assoc_L (∪))|].
    intros [|i] s' id'; simpl.
    + intros [= <-] [= <-] Hfresh _. rewrite (Hnew1 Hfresh).
      rewrite (right_id_L ∅ (∪)), size_dom. done.
    + intros Hs' Hid' Hfresh Hnotin.
      rewrite not_elem_of_cons in Hnotin. destruct Hnotin as [Hne Hnotin].
      rewrite (Hpos i s' id' Hs' Hid'); [| |done].
      * f_equal. f_equal. f_equal.
        by rewrite Hdom1, (comm_L (∪) {[s]}), !(assoc_L (∪)).
      * rewrite Hdom1, not_elem_of_union, not_elem_of_singleton. done.
Qed.

Lemma init_counted : counted init.
Proof. reflexivity. Qed.

(** X5: after any sequence of [get_id] calls on a new mapper the counter is
    one more than the number of distinct symbols seen, the known symbols are
    exactly those of the calls, the ids handed out are exactly [1 .. n]
    with no gap, and a symbol seen for the first time gets one more than
    the number of distinct symbols before it. *)
Theorem ids_dense_in_first_seen_order
    (symbols : list string) (ids : list Z) (m : t) :
  get_ids symbols init = Some (ids, m) ->
  next_id_ m = 1 + Z.of_nat (size (symbol_to_id_ m)) /\
  dom (symbol_to_id_ m) = list_to_set symbols /\
  (forall id, (exists s, symbol_to_id_ m !! s = Some id) <->
              1 <= id <= Z.of_nat (size (symbol_to_id_ m))) /\
  (forall i s id, symbols !! i = Some s -> ids !! i = Some id ->
     s ∉ take i symbols ->
     id = 1 + Z.of_nat (size (list_to_set (take i symbols) : gset string))).
Proof.
  intros Hrun.
  destruct (get_ids_inv _ _ _ _ init_inv Hrun) as (Hinv & _).
  destruct (get_ids_counted _ _ _ _ init_inv init_counted Hrun) as (Hc & Hdom & Hpos).
  simpl in Hdom, Hpos. rewrite dom_empty_L in Hdom, Hpos.
  unfold counted in Hc.
  split; [done|]. split; [by rewrite Hdom, (left_id_L ∅ (∪))|]. split.
  - intros id. destruct Hinv as [_ _ _ Hfwd Hbwd]. split.
    + intros [s Hs]. destruct (Hfwd _ _ Hs) as [Hr _]. lia.
    + intros Hr. apply Hbwd. lia.
  - intros i s id Hs Hid Hnotin.
    rewrite (Hpos i s id Hs Hid); [|apply not_elem_of_empty|done].
    by rewrite (left_id_L ∅ (∪)).
Qed.

(** X6: when the counter has reached [2^32 - 1], [get_id] still answers
    for the symbols it knows and leaves the mapper alone, but a new symbol
    makes [resize(id + 1)] wrap to [resize(0)] and the write
    [id_to_symbol_[id]] falls outside the vector. *)
Theorem get_id_counter_exhausted (s : string) (m : t) :
  next_id_ m = 2 ^ 32 - 1 ->
  Z.of_nat (length (id_to_symbol_ m)) <= 2 ^ 32 - 1 ->
  (symbol_to_id_ m !! s = None -> get_id s m = None) /\
  (forall id, symbol_to_id_ m !! s = Some id -> get_id s m = Some (id, m)).
Proof.
  intros Hnx Hlen. split; [|apply get_id_hit].
  intros Hnone. unfold get_id. rewrite Hnone, Hnx.
  destruct (Z.leb_spec (Z.of_nat (length (id_to_symbol_ m))) (2 ^ 32 - 1)); [|lia].
  rewrite wrap32_top, length_resize. done.
Qed.

End SymbolMapperDense.

Lemma ids_dense_in_first_seen_order_witness :
  SymbolMapper.next_id_ mapper3
    = 1 + Z.of_nat (size (SymbolMapper.symbol_to_id_ mapper3)).
Proof.
  apply (proj1 (ids_dense_in_first_seen_order trace3 [1; 2; 1] mapper3
                  ltac:(vm_compute; reflexivity))).
Defined.

Lemma get_id_counter_exhausted_witness :
  SymbolMapper.get_id "AAPL" exhausted_mapper = None.
Proof.
  apply (proj1 (get_id_counter_exhausted "AAPL" exhausted_mapper
                  ltac:(reflexivity) ltac:(simpl; lia))).
  reflexivity.
Defined.

(** ** Rounding: the values of the binary64 operations *)

Lemma shr_fexp_spec m e l :
  0 <= m ->
  let e1 := Z.max e (fexp Double.prec Double.emax (Zdigits2 m + e)) in
  snd (shr_fexp Double.prec Double.emax m e l) = e1 /\
  shr_m (fst (shr_fexp Double.prec Double.emax m e l)) = m / 2 ^ (e1 - e).
Proof.
  intros Hm e1. unfold shr_fexp, shr. subst e1. usual_Z.
  destruct (fexp Double.prec Double.emax (Zdigits2 m + e) - e) as [|n|n] eqn:En; simpl.
  - rewrite shr_record_of_loc_m. replace (Z.max _ _ - e) with 0 by lia.
    rewrite Z.div_1_r. split; lia.
  - rewrite iter_pos_shr_1 by (rewrite shr_record_of_loc_m; done).
    rewrite shr_record_of_loc_m. replace (Z.max _ _ - e) with (Z.pos n) by lia.
    split; lia.
  - rewrite shr_record_of_loc_m. replace (Z.max _ _ - e) with 0 by lia.
    rewrite Z.div_1_r. split; lia.
Qed.

Lemma round_nearest_even_range m l :
  m <= round_nearest_even m l <= m + 1.
Proof. unfold round_nearest_even. destruct l as [|[]]; try destruct (Z.even m); lia. Qed.

Lemma pow2_pos x : 0 <= x -> 0 < 2 ^ x.
Proof. intros. apply Z.pow_pos_nonneg; lia. Qed.

Lemma pow2_split a b : 0 <= a -> 0 <= b -> 2 ^ (a + b) = 2 ^ a * 2 ^ b.
Proof. intros. apply Z.pow_add_r; lia. Qed.

(** Dividing by a power of two and scaling back: the floor property. *)
Lemma shift_floor m n u :
  0 <= m -> 0 <= n -> 0 < u ->
  (m / 2 ^ n) * (2 ^ n * u) <= m * u < (m / 2 ^ n + 1) * (2 ^ n * u).
Proof.
  intros Hm Hn Hu. pose proof (pow2_pos n Hn) as Hp.
  pose proof (Z.mul_div_le m (2 ^ n) Hp). 
  pose proof (Z.mul_succ_div_gt m (2 ^ n) Hp). nia.
Qed.

Lemma Zdigits2_shift m n d :
  0 <= m -> 0 <= n -> Zdigits2 m <= d -> 0 <= d - n ->
  Zdigits2 (m / 2 ^ n) <= d - n.
Proof.
  intros Hm Hn Hd Hdn. apply Zdigits2_le; [apply Z.div_pos; [lia|apply pow2_pos; lia]|lia|].
  assert (m < 2 ^ d) by (apply Zdigits2_le; lia).
  apply Z.div_lt_upper_bound; [apply pow2_pos; lia|].
  rewrite <- pow2_split by lia. replace (n + (d - n)) with d by lia. done.
Qed.

Lemma Zdigits2_succ m d : 0 <= m -> Zdigits2 m <= d -> Zdigits2 (m + 1) <= d + 1.
Proof.
  intros Hm Hd. pose proof (Zdigits2_nonneg m).
  apply Zdigits2_le; [lia|lia|].
  assert (m < 2 ^ d) by (apply Zdigits2_le; lia).
  rewrite Z.pow_add_r by lia. lia.
Qed.

Lemma Zdigits2_mono a b : 0 <= a <= b -> Zdigits2 a <= Zdigits2 b.
Proof.
  intros H. pose proof (Zdigits2_nonneg b).
  apply Zdigits2_le; [lia|lia|].
  assert (b < 2 ^ Zdigits2 b) by (apply Zdigits2_le; lia). lia.
Qed.

(** Rounding [m * 2^e] (with a location bit) to a double: the result has
    the requested sign, its exponent is that of the rounding grid or one
    more, and it misses [m * 2^e] by less than three grid steps. *)
Lemma binary_round_aux_spec s m e l c k :
  0 <= m -> c <= e -> 0 <= k <= 971 -> Zdigits2 m + e <= k ->
  let E := Z.max e (fexp Double.prec Double.emax (Zdigits2 m + e)) in
  let r := binary_round_aux Double.prec Double.emax s m e l in
  finite_in s E (E + 1) r /\
  m * 2 ^ (e - c) - 3 * 2 ^ (E - c) < scaled c r <= m * 2 ^ (e - c) + 2 ^ (E - c).
Proof.
  intros Hm Hc Hk Hd E r. subst r. unfold binary_round_aux.
  destruct (shr_fexp_spec m e l Hm) as [He1 Hm1]. fold E in He1, Hm1.
  destruct (shr_fexp _ _ m e l) as [mrs1 e1]. simpl in He1, Hm1. subst e1.
  set (m1 := shr_m mrs1) in *.
  assert (HE : E = Z.max e (Z.max (Zdigits2 m + e - 53) (-1074))).
  { unfold E. rewrite fexp_eq. done. }
  clearbody E.
  pose proof (Zdigits2_nonneg m) as Hdm.
  assert (Hm1pos : 0 <= m1) by (rewrite Hm1; apply Z.div_pos; [lia|apply pow2_pos; lia]).
  assert (Hd1 : Zdigits2 m1 <= 53 /\ Zdigits2 m1 + E <= k).
  { rewrite Hm1.
    pose proof (Zdigits2_shift m (E - e) (53 + E - e) Hm ltac:(lia) ltac:(lia) ltac:(lia)).
    pose proof (Zdigits2_shift m (E - e) (k - e) Hm ltac:(lia) ltac:(lia) ltac:(lia)).
    lia. }
  pose proof (round_nearest_even_range m1 (loc_of_shr_record mrs1)) as Hr.
  set (m2 := round_nearest_even m1 (loc_of_shr_record mrs1)) in *.
  assert (Hd2 : Zdigits2 m2 <= 54 /\ Zdigits2 m2 + E <= k + 1).
  { pose proof (Zdigits2_mono m2 (m1 + 1) ltac:(lia)).
    pose proof (Zdigits2_succ m1 53 Hm1pos ltac:(lia)).
    pose proof (Zdigits2_succ m1 (k - E) Hm1pos ltac:(lia)). lia. }
  destruct (shr_fexp_spec m2 E loc_Exact ltac:(lia)) as [He2 Hm3].
  destruct (shr_fexp _ _ m2 E loc_Exact) as [mrs2 e2]. simpl in He2, Hm3.
  rewrite fexp_eq in He2, Hm3.
  pose proof (Zdigits2_nonneg m2) as Hdm2.
  assert (HE2 : E <= e2 <= E + 1) by lia.
  set (P := 2 ^ (e - c)).
  assert (HP : 0 < P) by (apply pow2_pos; lia).
  assert (HPE : 2 ^ (E - c) = 2 ^ (E - e) * P).
  { unfold P. rewrite <- pow2_split by lia. f_equal. lia. }
  pose proof (shift_floor m (E - e) P Hm ltac:(lia) HP) as Hf1.
  rewrite <- Hm1, <- HPE in Hf1.
  assert (HPE2 : 2 ^ (e2 - c) = 2 ^ (e2 - E) * 2 ^ (E - c)).
  { rewrite <- pow2_split by lia. f_equal. lia. }
  assert (HPEpos : 0 < 2 ^ (E - c)) by (apply pow2_pos; lia).
  pose proof (shift_floor m2 (e2 - E) (2 ^ (E - c)) ltac:(lia) ltac:(lia) HPEpos) as Hf2.
  replace (Z.max E (Z.max (Zdigits2 m2 + E - 53) (-1074)) - E) with (e2 - E) in Hm3 by lia.
  rewrite <- Hm3, <- HPE2 in Hf2.
  assert (Hstep : 2 ^ (e2 - c) <= 2 * 2 ^ (E - c)).
  { rewrite HPE2. destruct (Z.eq_dec e2 E) as [->|Hne].
    - rewrite Z.sub_diag. simpl. lia.
    - replace (e2 - E) with 1 by lia. simpl. lia. }
  assert (Hm3pos : 0 <= shr_m mrs2).
  { rewrite Hm3. apply Z.div_pos; [lia|apply pow2_pos; lia]. }
  assert (Ha12 : m1 * 2 ^ (E - c) <= m2 * 2 ^ (E - c) <= m1 * 2 ^ (E - c) + 2 ^ (E - c)).
  { split.
    - apply Z.mul_le_mono_nonneg_r; lia.
    - replace (m1 * 2 ^ (E - c) + 2 ^ (E - c)) with ((m1 + 1) * 2 ^ (E - c)) by ring.
      apply Z.mul_le_mono_nonneg_r; lia. }
  assert (Ha1 : 0 <= m1 * 2 ^ (E - c)) by (apply Z.mul_nonneg_nonneg; lia).
  set (a1 := m1 * 2 ^ (E - c)) in *. set (a2 := m2 * 2 ^ (E - c)) in *.
  set (A := 2 ^ (E - c)) in *. set (B := 2 ^ (e2 - c)) in *.
  set (X0 := m * P) in *.
  replace ((m1 + 1) * A) with (a1 + A) in Hf1 by (unfold a1; ring).
  destruct (shr_m mrs2) as [|p|p] eqn:Em3; [| |lia].
  - simpl. split; [done|]. clearbody a1 a2 A B X0. lia.
  - assert (Hd3 : Z.pos (digits2_pos p) + e2 <= k + 1).
    { change (Z.pos (digits2_pos p)) with (Zdigits2 (Z.pos p)). rewrite Hm3.
      pose proof (Zdigits2_shift m2 (e2 - E) (k + 1 - E)
                    ltac:(lia) ltac:(lia) ltac:(lia) ltac:(lia)).
      lia. }
    destruct (Z.leb_spec e2 (Double.emax - Double.prec)) as [|Hbig].
    + simpl. split; [split; [done|lia]|]. fold B.
      set (Y := Z.pos p * B) in *.
      replace ((Z.pos p + 1) * B) with (Y + B) in Hf2 by (unfold Y; ring).
      clearbody a1 a2 A B X0 Y. lia.
    + unfold Double.emax, Double.prec in Hbig.
      pose proof (Pos2Z.is_pos (digits2_pos p)). lia.
Qed.

Lemma binary_round_aux_exact s p e :
  fexp Double.prec Double.emax (Z.pos (digits2_pos p) + e) <= e -> e <= 971 ->
  binary_round_aux Double.prec Double.emax s (Z.pos p) e loc_Exact = S754_finite s p e.
Proof.
  intros Hf He. unfold binary_round_aux.
  assert (Hs : shr_fexp Double.prec Double.emax (Z.pos p) e loc_Exact
               = ({| shr_m := Z.pos p; shr_r := false; shr_s := false |}, e)).
  { unfold shr_fexp, shr. cbn [Zdigits2 shr_record_of_loc]. usual_Z.
    destruct (fexp Double.prec Double.emax (Z.pos (digits2_pos p) + e) - e) eqn:E;
      [done|lia|done]. }
  rewrite Hs. cbn [shr_m loc_of_shr_record round_nearest_even]. rewrite Hs.
  cbn [shr_m].
  destruct (Z.leb_spec e (Double.emax - Double.prec)) as [|Hbig]; [done|].
  unfold Double.emax, Double.prec in Hbig. lia.
Qed.

Lemma shl_align_snd m e e0 : e0 <= e -> snd (shl_align m e e0) = e0.
Proof.
  intros He. unfold shl_align. destruct (e0 - e) as [|d|d] eqn:Ed; simpl; lia.
Qed.

(** Integers below [2^53] convert exactly. *)
Lemma of_Z_exact v :
  v <> 0 -> Z.abs v < 2 ^ 53 ->
  exists m e,
    Double.of_Z v = S754_finite (v <? 0) m e /\
    Z.pos (digits2_pos m) + e = Zdigits2 v /\
    - 52 <= e <= 0 /\
    forall c, c <= e -> Z.pos m * 2 ^ (e - c) = Z.abs v * 2 ^ (- c).
Proof.
  intros Hv Hlt.
  assert (Hgen : forall s p, Z.pos p < 2 ^ 53 ->
    exists m e,
      binary_round Double.prec Double.emax s p 0 = S754_finite s m e /\
      Z.pos (digits2_pos m) + e = Z.pos (digits2_pos p) /\
      - 52 <= e <= 0 /\
      forall c, c <= e -> Z.pos m * 2 ^ (e - c) = Z.pos p * 2 ^ (- c)).
  { intros s p Hp. unfold binary_round.
    assert (Hd : Z.pos (digits2_pos p) <= 53)
      by (apply (Zdigits2_le (Z.pos p)); lia).
    pose proof (Pos2Z.is_pos (digits2_pos p)) as Hd0.
    set (e0 := fexp Double.prec Double.emax (Z.pos (digits2_pos p) + 0)).
    assert (He0 : e0 = Z.pos (digits2_pos p) - 53).
    { unfold e0. rewrite fexp_eq. lia. }
    pose proof (shl_align_digits p 0 e0) as Hdig.
    pose proof (shl_align_snd p 0 e0 ltac:(lia)) as Hsnd.
    pose proof (shl_align_value p 0 e0 ltac:(lia)) as Hval.
    destruct (shl_align p 0 e0) as [mz ez]. simpl in Hdig, Hsnd, Hval. subst ez.
    exists mz, e0. split; [|split; [lia|split; [lia|]]].
    - apply binary_round_aux_exact; [|lia].
      rewrite Hdig. fold e0. lia.
    - intros c Hc. rewrite Hval.
      rewrite <- Z.mul_assoc, <- pow2_split by lia. do 2 f_equal. lia. }
  destruct v as [|p|p]; [done| |].
  - destruct (Hgen false p Hlt) as (m & e & H1 & H2 & H3 & H4).
    exists m, e. split; [exact H1|]. split; [exact H2|]. split; [exact H3|exact H4].
  - destruct (Hgen true p Hlt) as (m & e & H1 & H2 & H3 & H4).
    exists m, e. split; [exact H1|]. split; [exact H2|]. split; [exact H3|exact H4].
Qed.

(** The integer quotient inside [SFdiv]. *)
Lemma div_core_spec mx ex my ey :
  let D := Z.pos (digits2_pos mx) + ex - (Z.pos (digits2_pos my) + ey) in
  let '(q, e', _) :=
    SFdiv_core_binary Double.prec Double.emax (Z.pos mx) ex (Z.pos my) ey in
  0 <= q /\
  e' = Z.min (fexp Double.prec Double.emax D) (ex - ey) /\
  q * Z.pos my <= Z.pos mx * 2 ^ (ex - ey - e') < (q + 1) * Z.pos my /\
  Zdigits2 q + e' <= Z.max (D + 1) e'.
Proof.
  intros D. unfold SFdiv_core_binary. cbn [Zdigits2]. usual_Z. fold D.
  pose proof (Pos2Z.is_pos (digits2_pos mx)) as Hd1.
  pose proof (Pos2Z.is_pos (digits2_pos my)) as Hd2.
  pose proof (pos_lt_pow_digits mx) as Hmx.
  pose proof (pow_digits_le_pos my) as Hmy.
  assert (HD : D = Z.pos (digits2_pos mx) + ex - (Z.pos (digits2_pos my) + ey)) by done.
  clearbody D.
  generalize dependent (Z.pos (digits2_pos mx)). intros d1 Hd1 Hmx HD.
  generalize dependent (Z.pos (digits2_pos my)). intros d2 Hd2 Hmy HD.
  set (e' := Z.min _ (ex - ey)).
  assert (He' : e' <= ex - ey) by (unfold e'; lia).
  assert (He'' : e' = Z.min (fexp Double.prec Double.emax D) (ex - ey)) by done.
  clearbody e'.
  set (s := ex - ey - e') in *.
  assert (Hs : 0 <= s) by (unfold s; lia).
  set (m' := match s with
             | Z.pos _ => Z.shiftl (Z.pos mx) s
             | 0 => Z.pos mx
             | Z.neg _ => 0
             end).
  assert (Hm' : m' = Z.pos mx * 2 ^ s).
  { unfold m'. destruct s as [|p|p] eqn:Es; [simpl; lia| |lia].
    apply Z.shiftl_mul_pow2. lia. }
  pose proof (Z_div_mod m' (Z.pos my) ltac:(lia)) as Hdm.
  destruct (Z.div_eucl m' (Z.pos my)) as [q r]. destruct Hdm as [Hdm Hr].
  assert (Hpow : 0 < 2 ^ s) by (apply pow2_pos; lia).
  assert (Hq : 0 <= q) by nia.
  split; [done|]. split; [done|]. split; [fold s; rewrite <- Hm'; nia|].
  assert (Hm'lt : m' < 2 ^ (d1 + s)).
  { rewrite Hm', Z.pow_add_r by lia. nia. }
  destruct (Z.le_gt_cases 0 (d1 + s - d2 + 1)) as [Ht|Ht].
  - enough (Zdigits2 q <= d1 + s - d2 + 1) by (unfold s in *; lia).
    apply Zdigits2_le; [done|done|].
    assert (Hsplit : 2 ^ (d1 + s) = 2 ^ (d2 - 1) * 2 ^ (d1 + s - d2 + 1)).
    { rewrite <- Z.pow_add_r by lia. f_equal. lia. }
    assert (Hd2p : 2 ^ d2 = 2 * 2 ^ (d2 - 1)).
    { rewrite <- Z.pow_succ_r by lia. f_equal. lia. }
    assert (Hp : 0 < 2 ^ (d2 - 1)) by (apply pow2_pos; lia).
    assert (Hp' : 0 < 2 ^ (d1 + s - d2 + 1)) by (apply pow2_pos; lia).
    nia.
  - assert (Hle : 2 ^ (d1 + s) <= 2 ^ (d2 - 2)) by (apply Z.pow_le_mono_r; lia).
    assert (Hd2p : 2 ^ d2 = 4 * 2 ^ (d2 - 2)).
    { replace d2 with (2 + (d2 - 2)) at 1 by lia.
      rewrite Z.pow_add_r by lia. reflexivity. }
    assert (q = 0) by nia. subst q. simpl. lia.
Qed.

Lemma finite_in_mono s lo hi lo' hi' f :
  finite_in s lo hi f -> lo' <= lo -> hi <= hi' -> finite_in s lo' hi' f.
Proof. destruct f; simpl; try done. intros [-> ?] ? ?. split; [done|lia]. Qed.

(** Division of two finite numbers: sign, exponent range, and the quotient
    up to four steps of the grid [2^Eb]. *)
Lemma div_spec sx mx ex sy my ey c :
  let D := Z.pos (digits2_pos mx) + ex - (Z.pos (digits2_pos my) + ey) in
  let Eb := fexp Double.prec Double.emax D + 1 in
  D + 1 <= 971 -> c <= -1074 -> c <= ex - ey ->
  let r := Double.div (S754_finite sx mx ex) (S754_finite sy my ey) in
  finite_in (xorb sx sy) (Z.min (-1074) (ex - ey)) (Eb + 1) r /\
  Z.pos mx * 2 ^ (ex - ey - c) - 4 * 2 ^ (Eb - c) * Z.pos my
    < scaled c r * Z.pos my
    <= Z.pos mx * 2 ^ (ex - ey - c) + 2 ^ (Eb - c) * Z.pos my.
Proof.
  intros D Eb HD Hc Hce r. subst r. unfold Double.div, SFdiv.
  pose proof (div_core_spec mx ex my ey) as Hcore. cbv zeta in Hcore. fold D in Hcore.
  destruct (SFdiv_core_binary _ _ _ _ _ _) as [[q e'] l].
  destruct Hcore as (Hq & He' & Hqm & Hdig).
  assert (HEb : Eb = Z.max (D - 53) (-1074) + 1) by (unfold Eb; rewrite fexp_eq; done).
  rewrite fexp_eq in He'.
  pose proof (binary_round_aux_spec (xorb sx sy) q e' l c (Z.max (D + 1) 0)
                Hq ltac:(lia) ltac:(lia) ltac:(lia)) as Hr.
  cbv zeta in Hr. rewrite fexp_eq in Hr.
  set (E := Z.max e' (Z.max (Zdigits2 q + e' - 53) (-1074))) in *.
  assert (HE : e' <= E <= Eb) by (unfold E; lia).
  clearbody E Eb. destruct Hr as [Hfin Hval].
  split; [eapply finite_in_mono; [exact Hfin|lia|lia]|].
  set (x := scaled c _) in *. clearbody x.
  assert (HA : 0 < 2 ^ (e' - c)) by (apply pow2_pos; lia).
  assert (HAB : 2 ^ (e' - c) <= 2 ^ (E - c)) by (apply Z.pow_le_mono_r; lia).
  assert (HBB : 2 ^ (E - c) <= 2 ^ (Eb - c)) by (apply Z.pow_le_mono_r; lia).
  assert (HM : Z.pos mx * 2 ^ (ex - ey - c)
               = Z.pos mx * 2 ^ (ex - ey - e') * 2 ^ (e' - c)).
  { rewrite <- Z.mul_assoc, <- pow2_split by lia. do 2 f_equal. lia. }
  rewrite HM. clear HM.
  pose proof (Pos2Z.is_pos my) as Hmy.
  set (A := 2 ^ (e' - c)) in *. set (B := 2 ^ (E - c)) in *.
  set (Bb := 2 ^ (Eb - c)) in *. set (N := Z.pos mx * 2 ^ (ex - ey - e')) in *.
  set (M := Z.pos my) in *. clearbody A B Bb N M.
  split.
  - assert (H1 : (q * A - 3 * B) * M < x * M) by nia.
    assert (H2 : N * A - M * A < q * M * A) by nia.
    assert (H3 : M * A + 3 * B * M <= 4 * Bb * M) by nia.
    lia.
  - assert (H1 : x * M <= (q * A + B) * M) by nia.
    assert (H2 : q * M * A <= N * A) by nia.
    assert (H3 : B * M <= Bb * M) by nia.
    lia.
Qed.

(** Multiplication of two finite numbers: the product up to three grid steps. *)
Lemma mul_spec sx mx ex sy my ey c k :
  c <= ex + ey -> 0 <= k <= 971 ->
  Z.pos (digits2_pos mx) + ex + (Z.pos (digits2_pos my) + ey) <= k ->
  let Eb := Z.max (ex + ey) (fexp Double.prec Double.emax k) in
  let r := Double.mul (S754_finite sx mx ex) (S754_finite sy my ey) in
  finite_in (xorb sx sy) c (Eb + 1) r /\
  Z.pos mx * Z.pos my * 2 ^ (ex + ey - c) - 3 * 2 ^ (Eb - c)
    < scaled c r
    <= Z.pos mx * Z.pos my * 2 ^ (ex + ey - c) + 2 ^ (Eb - c).
Proof.
  intros Hc Hk Hd Eb r. subst r. unfold Double.mul, SFmul.
  assert (Hdig : Zdigits2 (Z.pos (mx * my))
                 <= Z.pos (digits2_pos mx) + Z.pos (digits2_pos my)).
  { pose proof (pos_lt_pow_digits mx). pose proof (pos_lt_pow_digits my).
    apply Zdigits2_le; [lia|lia|].
    rewrite Pos2Z.inj_mul, Z.pow_add_r by lia. nia. }
  pose proof (binary_round_aux_spec (xorb sx sy) (Z.pos (mx * my)) (ex + ey)
                loc_Exact c k ltac:(lia) Hc Hk ltac:(lia)) as Hr.
  cbv zeta in Hr. rewrite fexp_eq in Hr.
  set (E := Z.max (ex + ey) (Z.max (Zdigits2 (Z.pos (mx * my)) + (ex + ey) - 53) (-1074))) in *.
  assert (HEb : Eb = Z.max (ex + ey) (Z.max (k - 53) (-1074)))
    by (unfold Eb; rewrite fexp_eq; done).
  assert (HE : ex + ey <= E <= Eb) by (unfold E; lia).
  clearbody E Eb. destruct Hr as [Hfin Hval].
  split; [eapply finite_in_mono; [exact Hfin|lia|lia]|].
  set (x := scaled c _) in *. clearbody x.
  rewrite Pos2Z.inj_mul in Hval.
  assert (HBB : 2 ^ (E - c) <= 2 ^ (Eb - c)) by (apply Z.pow_le_mono_r; lia).
  lia.
Qed.

(** The integer part taken by [truncate], on the scaled grid. *)
Lemma truncate_scaled m e c :
  c <= e -> c <= 0 ->
  let t := match e with
           | Z.neg k => Z.pos m / 2 ^ Z.pos k
           | _ => Z.pos m * 2 ^ e
           end in
  0 <= t /\ t * 2 ^ (- c) <= Z.pos m * 2 ^ (e - c) < (t + 1) * 2 ^ (- c).
Proof.
  intros Hc Hc0 t.
  destruct e as [|p|p].
  - subst t. replace (0 - c) with (- c) by lia.
    pose proof (pow2_pos (- c) ltac:(lia)). simpl. nia.
  - subst t. replace (Z.pos p - c) with (Z.pos p + - c) by lia.
    rewrite pow2_split by lia.
    pose proof (pow2_pos (- c) ltac:(lia)). pose proof (pow2_pos (Z.pos p) ltac:(lia)).
    nia.
  - subst t.
    pose proof (shift_floor (Z.pos m) (Z.pos p) (2 ^ (Z.neg p - c))
                  ltac:(lia) ltac:(lia) ltac:(apply pow2_pos; lia)) as Hf.
    rewrite <- pow2_split in Hf by lia.
    replace (Z.pos p + (Z.neg p - c)) with (- c) in Hf by lia.
    split; [apply Z.div_pos; [lia|apply pow2_pos; lia]|exact Hf].
Qed.

(** Reading a magnitude off a scaled value. *)
Lemma mag_lower m e c j :
  c <= e -> c <= j -> 2 ^ (j - c) <= Z.pos m * 2 ^ (e - c) ->
  j < Z.pos (digits2_pos m) + e.
Proof.
  intros Hc Hj Hle.
  pose proof (pos_lt_pow_digits m) as Hm.
  pose proof (Pos2Z.is_pos (digits2_pos m)) as Hd.
  assert (Hp : 0 < 2 ^ (e - c)) by (apply pow2_pos; lia).
  assert (Hlt : 2 ^ (j - c) < 2 ^ (Z.pos (digits2_pos m) + (e - c))).
  { rewrite pow2_split by lia. nia. }
  apply Z.pow_lt_mono_r_iff in Hlt; lia.
Qed.

Lemma mag_upper m e c j :
  c <= e -> c <= j -> Z.pos m * 2 ^ (e - c) < 2 ^ (j - c) ->
  Z.pos (digits2_pos m) + e <= j.
Proof.
  intros Hc Hj Hlt.
  pose proof (pow_digits_le_pos m) as Hm.
  pose proof (Pos2Z.is_pos (digits2_pos m)) as Hd.
  assert (Hp : 0 < 2 ^ (e - c)) by (apply pow2_pos; lia).
  assert (Hlt' : 2 ^ (Z.pos (digits2_pos m) - 1 + (e - c)) < 2 ^ (j - c)).
  { rewrite pow2_split by lia.
    assert (H2 : 2 ^ Z.pos (digits2_pos m) = 2 * 2 ^ (Z.pos (digits2_pos m) - 1)).
    { rewrite <- Z.pow_succ_r by lia. f_equal; lia. }
    nia. }
  apply Z.pow_lt_mono_r_iff in Hlt'; lia.
Qed.

(** [binary_round] of a positive integer at an exponent above the subnormal
    floor: a finite number of the requested sign, exact when the integer
    fits the grid, within three grid steps otherwise. *)
Lemma binary_round_spec s p e c :
  c <= -1074 -> -1074 <= e -> Z.pos (digits2_pos p) + e <= 971 ->
  let F := fexp Double.prec Double.emax (Z.pos (digits2_pos p) + e) in
  exists m' e',
    binary_round Double.prec Double.emax s p e = S754_finite s m' e' /\
    F <= e' <= F + 1 /\
    Z.pos p * 2 ^ (e - c) - 3 * 2 ^ (F - c) < Z.pos m' * 2 ^ (e' - c)
      <= Z.pos p * 2 ^ (e - c) + 2 ^ (F - c) /\
    (F <= e -> Z.pos m' * 2 ^ (e' - c) = Z.pos p * 2 ^ (e - c)) /\
    Z.pos (digits2_pos p) + e - 1 <= Z.pos (digits2_pos m') + e'
      <= Z.pos (digits2_pos p) + e + 1.
Proof.
  intros Hc He Hd F.
  pose proof (Pos2Z.is_pos (digits2_pos p)) as Hdp.
  assert (HF : F = Z.max (Z.pos (digits2_pos p) + e - 53) (-1074))
    by (unfold F; rewrite fexp_eq; done).
  pose proof (binary_round_mag s p e (Z.max 0 (Z.pos (digits2_pos p) + e))
                ltac:(lia) ltac:(lia)) as Hmag.
  assert (HpF : 0 < 2 ^ (F - c)) by (apply pow2_pos; lia).
  unfold binary_round in *. fold F in Hmag |- *.
  assert (HFd : fexp Double.prec Double.emax (Z.pos (digits2_pos p) + e) = F) by done.
  clearbody F.
  destruct (Z.le_gt_cases F e) as [HFe|HFe].
  - (* the integer is shifted onto the grid: exact *)
    pose proof (shl_align_digits p e F) as Hdig.
    pose proof (shl_align_snd p e F HFe) as Hsnd.
    pose proof (shl_align_value p e F HFe) as Hval.
    destruct (shl_align p e F) as [mz ez]. simpl in Hdig, Hsnd, Hval. subst ez.
    rewrite binary_round_aux_exact in * by (rewrite ?Hdig, ?HFd; lia).
    exists mz, F.
    assert (Hv : Z.pos mz * 2 ^ (F - c) = Z.pos p * 2 ^ (e - c)).
    { rewrite Hval, <- Z.mul_assoc, <- pow2_split by lia. do 2 f_equal; lia. }
    split; [done|]. split; [lia|]. split; [lia|]. split; [done|lia].
  - (* no shift: one rounding *)
    assert (Hsh : shl_align p e F = (p, e)).
    { unfold shl_align. destruct (F - e) eqn:E; try done. lia. }
    rewrite Hsh in *.
    pose proof (binary_round_aux_spec s (Z.pos p) e loc_Exact c
                  (Z.max 0 (Z.pos (digits2_pos p) + e)) ltac:(lia) ltac:(lia)
                  ltac:(lia) ltac:(simpl; lia)) as Hr.
    cbv zeta in Hr. cbn [Zdigits2] in Hr. rewrite HFd in Hr.
    replace (Z.max e F) with F in Hr by lia.
    destruct Hr as [Hfin Hval].
    pose proof (pow_digits_le_pos p) as Hpp.
    assert (Hpe : 0 < 2 ^ (e - c)) by (apply pow2_pos; lia).
    assert (Hbig : 2 ^ (Z.pos (digits2_pos p) + e - 1 - c)
                   <= Z.pos p * 2 ^ (e - c)).
    { replace (Z.pos (digits2_pos p) + e - 1 - c)
        with (Z.pos (digits2_pos p) - 1 + (e - c)) by lia.
      rewrite pow2_split by lia.
      assert (H2 : 2 ^ Z.pos (digits2_pos p) = 2 * 2 ^ (Z.pos (digits2_pos p) - 1)).
      { rewrite <- Z.pow_succ_r by lia. f_equal; lia. }
      nia. }
    assert (Hsmall : 8 * 2 ^ (F - c) <= 2 ^ (Z.pos (digits2_pos p) + e - 1 - c)).
    { change 8 with (2 ^ 3). rewrite <- pow2_split by lia.
      apply Z.pow_le_mono_r; lia. }
    destruct (binary_round_aux _ _ s (Z.pos p) e loc_Exact) as [s'|s'| |s' m' e'];
      try done.
    { cbn [scaled] in Hval. lia. }
    destruct Hfin as [-> He']. cbn [scaled] in Hval. cbn [mag_le] in Hmag.
    exists m', e'. split; [done|]. split; [lia|]. split; [lia|]. split; [lia|].
    assert (H2 : 2 ^ (Z.pos (digits2_pos p) + e - 1 - c)
                 = 2 * 2 ^ (Z.pos (digits2_pos p) + e - 2 - c)).
    { rewrite <- Z.pow_succ_r by lia. f_equal; lia. }
    split.
    + enough (Z.pos (digits2_pos p) + e - 2 < Z.pos (digits2_pos m') + e') by lia.
      apply (mag_lower m' e' c); [lia|lia|]. lia.
    + apply (mag_upper m' e' c); [lia|lia|].
      pose proof (pos_lt_pow_digits p) as Hlt.
      assert (H3 : 2 ^ (Z.pos (digits2_pos p) + e + 1 - c)
                   = 2 * (2 ^ Z.pos (digits2_pos p) * 2 ^ (e - c))).
      { rewrite <- pow2_split, <- Z.pow_succ_r by lia. f_equal; lia. }
      assert (H4 : 2 ^ (F - c) <= 2 ^ Z.pos (digits2_pos p) * 2 ^ (e - c)).
      { rewrite <- pow2_split by lia. apply Z.pow_le_mono_r; lia. }
      nia.
Qed.

(** Integer-to-double conversion of any nonzero integer. *)
Lemma of_Z_spec v c :
  v <> 0 -> c <= -1074 -> Zdigits2 v <= 971 ->
  let F := fexp Double.prec Double.emax (Zdigits2 v) in
  exists m e,
    Double.of_Z v = S754_finite (v <? 0) m e /\
    F <= e <= F + 1 /\
    Z.abs v * 2 ^ (- c) - 3 * 2 ^ (F - c) < Z.pos m * 2 ^ (e - c)
      <= Z.abs v * 2 ^ (- c) + 2 ^ (F - c) /\
    (Zdigits2 v <= 53 -> Z.pos m * 2 ^ (e - c) = Z.abs v * 2 ^ (- c)) /\
    Zdigits2 v - 1 <= Z.pos (digits2_pos m) + e <= Zdigits2 v + 1.
Proof.
  intros Hv Hc Hd F.
  assert (Hgen : forall s p, Z.pos (digits2_pos p) <= 971 ->
    let F := fexp Double.prec Double.emax (Z.pos (digits2_pos p)) in
    exists m e,
      binary_round Double.prec Double.emax s p 0 = S754_finite s m e /\
      F <= e <= F + 1 /\
      Z.pos p * 2 ^ (- c) - 3 * 2 ^ (F - c) < Z.pos m * 2 ^ (e - c)
        <= Z.pos p * 2 ^ (- c) + 2 ^ (F - c) /\
      (Z.pos (digits2_pos p) <= 53 -> Z.pos m * 2 ^ (e - c) = Z.pos p * 2 ^ (- c)) /\
      Z.pos (digits2_pos p) - 1 <= Z.pos (digits2_pos m) + e
        <= Z.pos (digits2_pos p) + 1).
  { intros s p Hp F'.
    destruct (binary_round_spec s p 0 c Hc ltac:(lia) ltac:(lia))
      as (m & e & H1 & H2 & H3 & H4 & H5).
    rewrite Z.add_0_r in *. fold F' in H2, H3, H4.
    assert (HF' : F' = Z.max (Z.pos (digits2_pos p) - 53) (-1074))
      by (unfold F'; rewrite fexp_eq; done).
    clearbody F'. change (0 - c) with (- c) in *.
    exists m, e. split; [done|]. split; [done|]. split; [done|].
    split; [|lia]. intros Hle. apply H4. lia. }
  destruct v as [|p|p]; [done| |].
  - exact (Hgen false p Hd).
  - exact (Hgen true p Hd).
Qed.

(** Division of finite numbers away from underflow and overflow: the
    quotient is finite and nonzero, with its magnitude and value. *)
Lemma div_finite sx mx ex sy my ey c :
  let D := Z.pos (digits2_pos mx) + ex - (Z.pos (digits2_pos my) + ey) in
  let Eb := fexp Double.prec Double.emax D + 1 in
  -1069 <= D <= 970 -> c <= -1074 -> c <= ex - ey ->
  exists mr er,
    Double.div (S754_finite sx mx ex) (S754_finite sy my ey)
      = S754_finite (xorb sx sy) mr er /\
    Z.min (-1074) (ex - ey) <= er <= Eb + 1 /\
    D - 1 <= Z.pos (digits2_pos mr) + er <= D + 2 /\
    Z.pos mx * 2 ^ (ex - ey - c) - 4 * 2 ^ (Eb - c) * Z.pos my
      < Z.pos mr * 2 ^ (er - c) * Z.pos my
      <= Z.pos mx * 2 ^ (ex - ey - c) + 2 ^ (Eb - c) * Z.pos my.
Proof.
  intros D Eb HD Hc Hce.
  pose proof (div_spec sx mx ex sy my ey c ltac:(fold D; lia) Hc Hce) as Hdiv.
  cbv zeta in Hdiv. fold D in Hdiv. fold Eb in Hdiv.
  assert (HEb : Eb = Z.max (D - 53) (-1074) + 1) by (unfold Eb; rewrite fexp_eq; done).
  assert (HDd : D = Z.pos (digits2_pos mx) + ex - (Z.pos (digits2_pos my) + ey)) by done.
  clearbody Eb D.
  pose proof (Pos2Z.is_pos (digits2_pos mx)) as Hdx.
  pose proof (Pos2Z.is_pos (digits2_pos my)) as Hdy.
  pose proof (pos_lt_pow_digits mx) as Hx1. pose proof (pow_digits_le_pos mx) as Hx2.
  pose proof (pos_lt_pow_digits my) as Hy1. pose proof (pow_digits_le_pos my) as Hy2.
  set (dx := Z.pos (digits2_pos mx)) in *. set (dy := Z.pos (digits2_pos my)) in *.
  clearbody dx dy.
  (* the numerator and the error term, as powers of two *)
  set (P := 2 ^ (ex - ey - c)) in *.
  assert (HP : 0 < P) by (apply pow2_pos; lia).
  set (G := 2 ^ (Eb - c)) in *.
  assert (HG : 0 < G) by (apply pow2_pos; lia).
  set (W := 2 ^ (D - 2 - c)).
  assert (HW : 0 < W) by (apply pow2_pos; lia).
  assert (HW1 : 2 ^ dx * P = 8 * W * 2 ^ (dy - 1)).
  { unfold P, W. change 8 with (2 ^ 3).
    rewrite <- !pow2_split by lia. f_equal; lia. }
  assert (HW2 : 4 * G <= W).
  { unfold G, W. change 4 with (2 ^ 2). rewrite <- pow2_split by lia.
    apply Z.pow_le_mono_r; lia. }
  assert (Hdy2 : 2 ^ dy = 2 * 2 ^ (dy - 1)).
  { rewrite <- Z.pow_succ_r by lia. f_equal; lia. }
  assert (Hq : 0 < 2 ^ (dy - 1)) by (apply pow2_pos; lia).
  set (Q := 2 ^ (dy - 1)) in *. set (X2 := 2 ^ dx) in *.
  assert (H16 : 2 ^ (D + 2 - c) = 16 * W).
  { unfold W. change 16 with (2 ^ 4). rewrite <- pow2_split by lia. f_equal; lia. }
  assert (HWd : 2 ^ (D - 2 - c) = W) by done.
  destruct Hdiv as [Hfin Hval].
  set (M := Z.pos my) in *. set (N := Z.pos mx) in *.
  assert (HM : 0 < M) by done.
  clearbody P G W Q X2 M N.
  assert (Ha : 4 * (W * Q) <= N * P) by nia.
  assert (Hb : N * P < 8 * (W * Q)) by nia.
  assert (Hc1 : G * M < 2 * (G * Q)) by nia.
  assert (Hc2 : 4 * (G * Q) <= W * Q) by nia.
  destruct (Double.div _ _) as [sr|sr| |sr mr er]; try done.
  { cbn [scaled] in Hval. lia. }
  destruct Hfin as [-> Her]. cbn [scaled] in Hval.
  exists mr, er. split; [done|]. split; [exact Her|]. split; [|exact Hval].
  assert (Her' : c <= er) by (clear -Her Hc Hce; lia).
  pose proof (pow2_pos (er - c) ltac:(lia)) as Hper.
  remember (Z.pos mr * 2 ^ (er - c)) as X eqn:HXd.
  assert (HX : 0 < X) by nia.
  assert (Hd1 : X * Q <= X * M) by nia.
  assert (Hd2 : X * M < 2 * (X * Q)) by nia.
  split.
  - enough (D - 2 < Z.pos (digits2_pos mr) + er) by lia.
    apply (mag_lower mr er c); [lia|lia|]. rewrite <- HXd, HWd.
    assert (H1 : W * Q < X * Q) by lia.
    apply Z.mul_lt_mono_pos_r in H1; lia.
  - apply (mag_upper mr er c); [lia|lia|]. rewrite <- HXd, H16.
    assert (H1 : X * Q < 16 * W * Q) by lia.
    apply Z.mul_lt_mono_pos_r in H1; lia.
Qed.

(** [binary_normalize] of a nonzero integer. *)
Lemma binary_normalize_spec S e c :
  S <> 0 -> c <= -1074 -> -1074 <= e -> Zdigits2 S + e <= 971 ->
  let F := fexp Double.prec Double.emax (Zdigits2 S + e) in
  exists m' e',
    binary_normalize Double.prec Double.emax S e false = S754_finite (S <? 0) m' e' /\
    F <= e' <= F + 1 /\
    Z.abs S * 2 ^ (e - c) - 3 * 2 ^ (F - c) < Z.pos m' * 2 ^ (e' - c)
      <= Z.abs S * 2 ^ (e - c) + 2 ^ (F - c) /\
    (F <= e -> Z.pos m' * 2 ^ (e' - c) = Z.abs S * 2 ^ (e - c)) /\
    Zdigits2 S + e - 1 <= Z.pos (digits2_pos m') + e' <= Zdigits2 S + e + 1.
Proof.
  intros HS Hc He Hd F.
  destruct S as [|p|p]; [done| |].
  - exact (binary_round_spec false p e c Hc He Hd).
  - exact (binary_round_spec true p e c Hc He Hd).
Qed.

(** The aligned integers added by [SFadd] and [SFsub]. *)
Lemma aligned_scaled m e ez c :
  c <= ez -> ez <= e ->
  Z.pos (fst (shl_align m e ez)) * 2 ^ (ez - c) = Z.pos m * 2 ^ (e - c).
Proof.
  intros Hc He. rewrite shl_align_value by done.
  rewrite <- Z.mul_assoc, <- pow2_split by lia. do 2 f_equal; lia.
Qed.

(** [price.to_double()] of a nonzero price below [2^53]. *)
Lemma to_double_finite v c :
  v <> 0 -> Z.abs v < 2 ^ 53 -> c <= -1200 ->
  exists m e,
    PriceOps.to_double (mkPrice v) = S754_finite (v <? 0) m e /\
    -1074 <= e <= Zdigits2 v - 65 /\
    Zdigits2 v - 15 <= Z.pos (digits2_pos m) + e <= Zdigits2 v - 12 /\
    Z.abs v * 2 ^ (- c) - 40000 * 2 ^ (Zdigits2 v - 66 - c)
      < Z.pos m * 2 ^ (e - c) * 10000
      <= Z.abs v * 2 ^ (- c) + 10000 * 2 ^ (Zdigits2 v - 66 - c).
Proof.
  intros Hv0 Hv Hc. unfold PriceOps.to_double. cbn [value].
  destruct (of_Z_exact v Hv0 Hv) as (mv & ev & Hof & Hdig & Hev & Hval).
  rewrite Hof, of_Z_10000.
  pose proof (Zdigits2_abs_lt v 53 ltac:(lia) Hv) as Hd53.
  assert (Hd1 : 1 <= Zdigits2 v).
  { destruct v as [|p|p]; [done| |]; simpl; pose proof (Pos2Z.is_pos (digits2_pos p)); lia. }
  destruct (div_finite (v <? 0) mv ev false 5497558138880000 (-39) c)
    as (m & e & Hdiv & He & Hmag & Hx).
  { change (Z.pos (digits2_pos 5497558138880000)) with 53. lia. }
  { lia. }
  { lia. }
  change (Z.pos (digits2_pos 5497558138880000)) with 53 in *.
  rewrite fexp_eq in *.
  replace (Z.max (Z.pos (digits2_pos mv) + ev - (53 + -39) - 53) (-1074) + 1)
    with (Zdigits2 v - 66) in * by lia.
  exists m, e. rewrite Hdiv. split; [by destruct (v <? 0)|].
  split; [lia|]. split; [lia|].
  replace (ev - -39 - c) with (ev - (c - 39)) in Hx by lia.
  rewrite (Hval (c - 39)) in Hx by lia.
  replace (- (c - 39)) with (39 + - c) in Hx by lia.
  rewrite pow2_split in Hx by lia.
  change (Z.pos 5497558138880000) with (10000 * 2 ^ 39) in Hx.
  change (2 ^ 39) with 549755813888 in Hx.
  set (X := Z.pos m * 2 ^ (e - c)) in *. set (P := 2 ^ (- c)) in *.
  set (G := 2 ^ (Zdigits2 v - 66 - c)) in *.
  set (AP := Z.abs v * P).
  replace (Z.abs v * (549755813888 * P)) with (549755813888 * AP) in Hx
    by (unfold AP; ring).
  clearbody X P G AP. lia.
Qed.

Lemma cond_Zopp_mul s a b : cond_Zopp s a * b = cond_Zopp s (a * b).
Proof. destruct s; simpl; lia. Qed.

Lemma fexp_mono a b :
  a <= b -> fexp Double.prec Double.emax a <= fexp Double.prec Double.emax b.
Proof. intros. rewrite !fexp_eq. lia. Qed.

(** Addition of two finite numbers: exact sum [V] (signed, in units of
    [2^c]), then one rounding on the grid of the larger operand. *)
Lemma add_spec sx mx ex sy my ey c k :
  c <= -1074 -> -1074 <= ex -> -1074 <= ey ->
  Z.pos (digits2_pos mx) + ex <= k -> Z.pos (digits2_pos my) + ey <= k ->
  k + 1 <= 971 ->
  let V := cond_Zopp sx (Z.pos mx * 2 ^ (ex - c))
           + cond_Zopp sy (Z.pos my * 2 ^ (ey - c)) in
  let F := fexp Double.prec Double.emax (k + 1) in
  let r := Double.add (S754_finite sx mx ex) (S754_finite sy my ey) in
  (V = 0 -> r = S754_zero false) /\
  (V <> 0 -> exists m e,
     r = S754_finite (V <? 0) m e /\
     -1074 <= e <= F + 1 /\
     Z.abs V - 3 * 2 ^ (F - c) < Z.pos m * 2 ^ (e - c) <= Z.abs V + 2 ^ (F - c) /\
     Z.pos (digits2_pos m) + e <= k + 2).
Proof.
  intros Hc Hex Hey Hkx Hky Hk V F r. subst r. unfold Double.add, SFadd.
  set (ez := Z.min ex ey).
  assert (Hez : -1074 <= ez /\ ez <= ex /\ ez <= ey) by (unfold ez; lia).
  pose proof (aligned_scaled mx ex ez c ltac:(lia) ltac:(lia)) as Hax.
  pose proof (aligned_scaled my ey ez c ltac:(lia) ltac:(lia)) as Hay.
  pose proof (aligned_lt mx ex ez k ltac:(lia) Hkx) as Hlx.
  pose proof (aligned_lt my ey ez k ltac:(lia) Hky) as Hly.
  set (ax := Z.pos (fst (shl_align mx ex ez))) in *.
  set (ay := Z.pos (fst (shl_align my ey ez))) in *.
  assert (Hax0 : 0 < ax) by done. assert (Hay0 : 0 < ay) by done.
  set (S := cond_Zopp sx ax + cond_Zopp sy ay).
  assert (HV : V = S * 2 ^ (ez - c)).
  { unfold V, S. rewrite <- Hax, <- Hay, Z.mul_add_distr_r, !cond_Zopp_mul. done. }
  assert (Hp : 0 < 2 ^ (ez - c)) by (apply pow2_pos; lia).
  assert (HSabs : Z.abs S < 2 ^ (k + 1 - ez)).
  { replace (k + 1 - ez) with (Z.succ (k - ez)) by lia.
    rewrite Z.pow_succ_r by lia. unfold S. clearbody ax ay.
    destruct sx, sy; simpl; lia. }
  assert (HdS : Zdigits2 S + ez <= k + 1).
  { enough (Zdigits2 S <= k + 1 - ez) by lia.
    apply Zdigits2_abs_lt; [|done].
    pose proof (Z.pow_pos_nonneg 2 (k - ez)) as Hpk.
    destruct (Z.le_gt_cases 0 (k + 1 - ez)); [done|].
    rewrite (Z.pow_neg_r 2 (k + 1 - ez)) in HSabs by lia. lia. }
  assert (HFd : F = Z.max (k + 1 - 53) (-1074)) by (unfold F; rewrite fexp_eq; done).
  clearbody V F S ax ay ez. split.
  - intros HV0. rewrite HV in HV0. apply Z.mul_eq_0 in HV0.
    assert (S = 0) by lia. subst S. done.
  - intros HV0. assert (HS0 : S <> 0) by (intros ->; apply HV0; rewrite HV; lia).
    destruct (binary_normalize_spec S ez c HS0 Hc ltac:(lia) ltac:(lia))
      as (m & e & Hr & He & Hval & _ & Hmag).
    cbv zeta in *. rewrite fexp_eq in He, Hval.
    exists m, e. rewrite Hr.
    assert (Hsgn : (S <? 0) = (V <? 0)).
    { rewrite HV. destruct (Z.ltb_spec S 0) as [Hn|Hn].
      - pose proof (Z.mul_neg_pos S _ Hn Hp). symmetry. apply Z.ltb_lt. lia.
      - pose proof (Z.mul_nonneg_nonneg S (2 ^ (ez - c)) Hn ltac:(lia)). symmetry.
        apply Z.ltb_ge. lia. }
    rewrite Hsgn. split; [done|]. split; [lia|]. split; [|lia].
    assert (HVabs : Z.abs V = Z.abs S * 2 ^ (ez - c)).
    { rewrite HV, Z.abs_mul. f_equal. lia. }
    rewrite HVabs.
    assert (HG : 2 ^ (Z.max (Zdigits2 S + ez - 53) (-1074) - c) <= 2 ^ (F - c)).
    { apply Z.pow_le_mono_r; lia. }
    lia.
Qed.

Lemma sub_as_add sx mx ex sy my ey :
  Double.sub (S754_finite sx mx ex) (S754_finite sy my ey)
  = Double.add (S754_finite sx mx ex) (S754_finite (negb sy) my ey).
Proof.
  unfold Double.sub, Double.add, SFsub, SFadd. f_equal.
  destruct sx, sy; simpl; lia.
Qed.

(** [Price(double)] of a finite number whose [10000]-fold lies strictly
    between two integers, up to the rounding of the product on the grid
    [2^g]. *)
Lemma of_double_bounds s m e c g L H :
  c <= -1200 -> -1074 <= e <= g + 39 -> -53 <= g <= -2 ->
  Z.pos (digits2_pos m) + e <= g + 39 ->
  0 <= L -> H < 2 ^ 62 ->
  L * 2 ^ (- c) + 3 * 2 ^ (g - c) <= Z.pos m * 2 ^ (e - c) * 10000 ->
  Z.pos m * 2 ^ (e - c) * 10000 + 2 ^ (g - c) < (H + 1) * 2 ^ (- c) ->
  exists t, PriceOps.of_double (S754_finite s m e) = Some (mkPrice (cond_Zopp s t))
            /\ L <= t <= H.
Proof.
  intros Hc He Hg Hmag HL HH Hlo Hhi. unfold PriceOps.of_double. rewrite of_Z_10000.
  pose proof (mul_spec s m e false 5497558138880000 (-39) c (g + 53)
                ltac:(lia) ltac:(lia)) as Hmul.
  change (Z.pos (digits2_pos 5497558138880000)) with 53 in Hmul.
  specialize (Hmul ltac:(lia)). cbv zeta in Hmul. rewrite fexp_eq in Hmul.
  replace (Z.max (e + -39) (Z.max (g + 53 - 53) (-1074))) with g in Hmul by lia.
  destruct Hmul as [Hfy Hy].
  assert (Hprod : Z.pos m * Z.pos 5497558138880000 * 2 ^ (e + -39 - c)
                  = Z.pos m * 2 ^ (e - c) * 10000).
  { change (Z.pos 5497558138880000) with (10000 * 2 ^ 39).
    replace (e - c) with (39 + (e + -39 - c)) by lia.
    rewrite pow2_split by lia. ring. }
  rewrite Hprod in Hy. clear Hprod.
  assert (Hsign : xorb s false = s) by (destruct s; done).
  rewrite Hsign in Hfy.
  pose proof (pow2_pos (- c) ltac:(lia)) as Hp.
  pose proof (pow2_pos (g - c) ltac:(lia)) as Hpg.
  set (y := Double.mul _ _) in *.
  destruct y as [sy|sy| |sy my ey] eqn:Ey; try done.
  { cbn [scaled] in Hy. nia. }
  destruct Hfy as [-> [Hey1 Hey2]]. cbn [scaled] in Hy.
  pose proof (truncate_scaled my ey c ltac:(lia) ltac:(lia)) as Ht.
  cbv zeta in Ht. unfold Double.to_int64, Double.truncate.
  set (t := match ey with
            | Z.neg k => Z.pos my / 2 ^ Z.pos k
            | _ => Z.pos my * 2 ^ ey
            end) in *.
  clearbody t. destruct Ht as [Ht0 Ht].
  assert (Ht1 : L * 2 ^ (- c) < (t + 1) * 2 ^ (- c)) by lia.
  assert (Ht2 : t * 2 ^ (- c) < (H + 1) * 2 ^ (- c)) by lia.
  apply Z.mul_lt_mono_pos_r in Ht1; [|done].
  apply Z.mul_lt_mono_pos_r in Ht2; [|done].
  assert (H62 : 2 ^ 62 = 4611686018427387904) by done.
  assert (Hin : in_int64 (cond_Zopp s t) = true).
  { unfold in_int64, INT64_MIN, INT64_MAX.
    destruct s; simpl; apply andb_true_intro; split; apply Z.leb_le; lia. }
  rewrite Hin. exists t. split; [done|lia].
Qed.

(** [Price(double)] applied to [v / 10000.0]: defined, and at most one unit
    below [v] in magnitude. *)
Lemma of_double_div_10000_at v c :
  c <= -1200 -> Z.abs v < 2 ^ 48 ->
  exists t,
    PriceOps.of_double (Double.div (Double.of_Z v) (Double.of_Z 10000))
      = Some (mkPrice t) /\
    (0 <= v -> Z.max 0 (v - 1) <= t <= v) /\
    (v <= 0 -> v <= t <= Z.min 0 (v + 1)).
Proof.
  intros Hc Hv.
  destruct (Z.eq_dec v 0) as [->|Hv0].
  { exists 0. split; [vm_compute; reflexivity|lia]. }
  destruct (to_double_finite v c Hv0 ltac:(lia) Hc)
    as (m & e & Hto & He & Hmag & Hx).
  unfold PriceOps.to_double in Hto. cbn [value] in Hto. rewrite Hto.
  pose proof (Zdigits2_abs_lt v 48 ltac:(lia) Hv) as Hd48.
  assert (H48 : 2 ^ 48 = 281474976710656) by done.
  assert (H62 : 2 ^ 62 = 4611686018427387904) by done.
  assert (HG : 2 ^ (Zdigits2 v - 66 - c) <= 2 ^ (-18 - c))
    by (apply Z.pow_le_mono_r; lia).
  assert (HP : 2 ^ (- c) = 262144 * 2 ^ (-18 - c)).
  { change 262144 with (2 ^ 18). rewrite <- pow2_split by lia. f_equal; lia. }
  assert (HQ : 2 ^ (-2 - c) = 65536 * 2 ^ (-18 - c)).
  { change 65536 with (2 ^ 16). rewrite <- pow2_split by lia. f_equal; lia. }
  pose proof (pow2_pos (-18 - c) ltac:(lia)) as HU.
  rewrite HP in Hx.
  set (U := 2 ^ (-18 - c)) in *. set (G := 2 ^ (Zdigits2 v - 66 - c)) in *.
  set (X := Z.pos m * 2 ^ (e - c) * 10000) in *.
  assert (Hlo : (Z.abs v - 1) * 2 ^ (- c) + 3 * 2 ^ (-2 - c) <= X).
  { rewrite HP, HQ. fold U.
    replace ((Z.abs v - 1) * (262144 * U)) with (Z.abs v * (262144 * U) - 262144 * U)
      by ring.
    set (AU := Z.abs v * (262144 * U)) in *. clearbody U G X AU. lia. }
  assert (Hhi : X + 2 ^ (-2 - c) < (Z.abs v + 1) * 2 ^ (- c)).
  { rewrite HP, HQ. fold U.
    replace ((Z.abs v + 1) * (262144 * U)) with (Z.abs v * (262144 * U) + 262144 * U)
      by ring.
    set (AU := Z.abs v * (262144 * U)) in *. clearbody U G X AU. lia. }
  destruct (of_double_bounds (v <? 0) m e c (-2) (Z.abs v - 1) (Z.abs v)
              Hc ltac:(lia) ltac:(lia) ltac:(lia) ltac:(lia) ltac:(lia) Hlo Hhi)
    as (t & Hof & Ht).
  rewrite Hof. exists (cond_Zopp (v <? 0) t). split; [done|].
  destruct (Z.ltb_spec v 0); simpl; lia.
Qed.

Lemma of_double_div_10000 v :
  Z.abs v < 2 ^ 48 ->
  exists t,
    PriceOps.of_double (Double.div (Double.of_Z v) (Double.of_Z 10000))
      = Some (mkPrice t) /\
    (0 <= v -> Z.max 0 (v - 1) <= t <= v) /\
    (v <= 0 -> v <= t <= Z.min 0 (v + 1)).
Proof. apply (of_double_div_10000_at v (-1200)). lia. Qed.

(** *** Quotes: positive prices below [2^40] *)

(** [to_double] of a positive quote, in units of [U = 2^(-26-c)]. *)
Lemma to_double_quote v c :
  0 < v < 2 ^ 40 -> c <= -1200 ->
  exists m e,
    PriceOps.to_double (mkPrice v) = S754_finite false m e /\
    -1074 <= e <= -25 /\
    -14 <= Z.pos (digits2_pos m) + e <= 28 /\
    v * 2 ^ (- c) - 40000 * 2 ^ (-26 - c)
      < Z.pos m * 2 ^ (e - c) * 10000
      <= v * 2 ^ (- c) + 10000 * 2 ^ (-26 - c).
Proof.
  intros Hv Hc.
  assert (H40 : 2 ^ 40 = 1099511627776) by done.
  assert (H53 : 2 ^ 53 = 9007199254740992) by done.
  destruct (to_double_finite v c ltac:(lia) ltac:(lia) Hc)
    as (m & e & Hto & He & Hmag & Hx).
  pose proof (Zdigits2_abs_lt v 40 ltac:(lia) ltac:(lia)) as Hd40.
  assert (Hd1 : 1 <= Zdigits2 v).
  { destruct v as [|p|p]; [lia| |lia]. simpl.
    pose proof (Pos2Z.is_pos (digits2_pos p)). lia. }
  exists m, e. replace (v <? 0) with false in Hto by (symmetry; apply Z.ltb_ge; lia).
  split; [done|]. split; [lia|]. split; [lia|].
  assert (HG : 2 ^ (Zdigits2 v - 66 - c) <= 2 ^ (-26 - c))
    by (apply Z.pow_le_mono_r; lia).
  replace (Z.abs v) with v in Hx by lia. lia.
Qed.

(** The sum of two quotes as doubles. *)
Lemma add_to_double_quote a b c :
  0 < a < 2 ^ 40 -> 0 < b < 2 ^ 40 -> c <= -1200 ->
  exists m e,
    Double.add (PriceOps.to_double (mkPrice a)) (PriceOps.to_double (mkPrice b))
      = S754_finite false m e /\
    -1074 <= e <= -23 /\
    -15 <= Z.pos (digits2_pos m) + e <= 30 /\
    (a + b) * 2 ^ (- c) - 200000 * 2 ^ (-26 - c)
      < Z.pos m * 2 ^ (e - c) * 10000
      <= (a + b) * 2 ^ (- c) + 60000 * 2 ^ (-26 - c).
Proof.
  intros Ha Hb Hc.
  destruct (to_double_quote a c Ha Hc) as (ma & ea & Hta & Hea & Hmaga & Hxa).
  destruct (to_double_quote b c Hb Hc) as (mb & eb & Htb & Heb & Hmagb & Hxb).
  rewrite Hta, Htb.
  pose proof (add_spec false ma ea false mb eb c 28 ltac:(lia) ltac:(lia) ltac:(lia)
                ltac:(lia) ltac:(lia) ltac:(lia)) as [_ Hadd].
  cbv zeta in Hadd. cbn [cond_Zopp] in Hadd. rewrite fexp_eq in Hadd.
  change (Z.max (28 + 1 - 53) (-1074)) with (-24) in Hadd.
  pose proof (pow2_pos (ea - c) ltac:(lia)) as Hpa.
  pose proof (pow2_pos (eb - c) ltac:(lia)) as Hpb.
  pose proof (pow2_pos (-26 - c) ltac:(lia)) as HU.
  assert (HP : 2 ^ (- c) = 67108864 * 2 ^ (-26 - c)).
  { change 67108864 with (2 ^ 26). rewrite <- pow2_split by lia. f_equal; lia. }
  assert (HF : 2 ^ (-24 - c) = 4 * 2 ^ (-26 - c)).
  { change 4 with (2 ^ 2). rewrite <- pow2_split by lia. f_equal; lia. }
  assert (H15 : 2 ^ (-15 - c) = 2048 * 2 ^ (-26 - c)).
  { change 2048 with (2 ^ 11). rewrite <- pow2_split by lia. f_equal; lia. }
  rewrite HP in *. rewrite HF in Hadd.
  set (Xa := Z.pos ma * 2 ^ (ea - c)) in *. set (Xb := Z.pos mb * 2 ^ (eb - c)) in *.
  set (U := 2 ^ (-26 - c)) in *.
  assert (HXa : 0 < Xa) by (unfold Xa; nia).
  assert (HXb : 0 < Xb) by (unfold Xb; nia).
  destruct (Hadd ltac:(lia)) as (m & e & Hr & He & Hval & Hmag).
  exists m, e. replace (Xa + Xb <? 0) with false in Hr by (symmetry; apply Z.ltb_ge; lia).
  split; [done|]. split; [lia|].
  replace (Z.abs (Xa + Xb)) with (Xa + Xb) in Hval by lia.
  set (X := Z.pos m * 2 ^ (e - c)) in *.
  assert (HaU : a * (67108864 * U) = 67108864 * (a * U)) by ring.
  assert (HbU : b * (67108864 * U) = 67108864 * (b * U)) by ring.
  assert (HabU : (a + b) * (67108864 * U) = 67108864 * (a * U) + 67108864 * (b * U))
    by ring.
  rewrite HaU in Hxa. rewrite HbU in Hxb. rewrite HabU.
  assert (HaU1 : 1 * U <= a * U) by (apply Z.mul_le_mono_nonneg_r; lia).
  assert (HbU1 : 1 * U <= b * U) by (apply Z.mul_le_mono_nonneg_r; lia).
  set (aU := a * U) in *. set (bU := b * U) in *.
  split; [|clearbody Xa Xb X U aU bU; lia].
  split; [|lia].
  enough (-16 < Z.pos (digits2_pos m) + e) by lia.
  apply (mag_lower m e c); [lia|lia|].
  replace (-16 - c) with (-26 - c + 10) by lia.
  rewrite pow2_split by lia. fold U. fold X. change (2 ^ 10) with 1024.
  clearbody Xa Xb X U aU bU. lia.
Qed.

(** One exact-location rounding of a positive integer away from underflow
    and overflow: finite, nonzero, same magnitude up to one. *)
Lemma binary_round_aux_finite s p e c :
  c <= e -> c <= -1074 ->
  -1021 <= Z.pos (digits2_pos p) + e <= 970 ->
  exists m' e',
    binary_round_aux Double.prec Double.emax s (Z.pos p) e loc_Exact
      = S754_finite s m' e' /\
    c <= e' /\
    Z.pos (digits2_pos p) + e - 1 <= Z.pos (digits2_pos m') + e'
      <= Z.pos (digits2_pos p) + e + 1.
Proof.
  intros Hce Hc Hd.
  pose proof (Pos2Z.is_pos (digits2_pos p)) as Hdp.
  set (F := fexp Double.prec Double.emax (Z.pos (digits2_pos p) + e)).
  assert (HF : F = Z.pos (digits2_pos p) + e - 53) by (unfold F; rewrite fexp_eq; lia).
  destruct (Z.le_gt_cases F e) as [HFe|HFe].
  - rewrite binary_round_aux_exact by (fold F; lia).
    exists p, e. split; [done|lia].
  - pose proof (binary_round_aux_spec s (Z.pos p) e loc_Exact c
                  (Z.max 0 (Z.pos (digits2_pos p) + e)) ltac:(lia) ltac:(lia)
                  ltac:(lia) ltac:(simpl; lia)) as Hr.
    cbv zeta in Hr. cbn [Zdigits2] in Hr. fold F in Hr.
    clearbody F. replace (Z.max e F) with F in Hr by lia.
    destruct Hr as [Hfin Hval].
    pose proof (pow_digits_le_pos p) as Hpp.
    pose proof (pos_lt_pow_digits p) as Hlt.
    assert (Hpe : 0 < 2 ^ (e - c)) by (apply pow2_pos; lia).
    assert (Hbig : 2 ^ (Z.pos (digits2_pos p) + e - 1 - c)
                   <= Z.pos p * 2 ^ (e - c)).
    { replace (Z.pos (digits2_pos p) + e - 1 - c)
        with (Z.pos (digits2_pos p) - 1 + (e - c)) by lia.
      rewrite pow2_split by lia.
      assert (H2 : 2 ^ Z.pos (digits2_pos p) = 2 * 2 ^ (Z.pos (digits2_pos p) - 1)).
      { rewrite <- Z.pow_succ_r by lia. f_equal; lia. }
      nia. }
    assert (Hsmall : 8 * 2 ^ (F - c) <= 2 ^ (Z.pos (digits2_pos p) + e - 1 - c)).
    { change 8 with (2 ^ 3). rewrite <- pow2_split by lia.
      apply Z.pow_le_mono_r; lia. }
    assert (H2 : 2 ^ (Z.pos (digits2_pos p) + e - 1 - c)
                 = 2 * 2 ^ (Z.pos (digits2_pos p) + e - 2 - c)).
    { rewrite <- Z.pow_succ_r by lia. f_equal; lia. }
    assert (H3 : 2 ^ (Z.pos (digits2_pos p) + e + 1 - c)
                 = 2 * (2 ^ Z.pos (digits2_pos p) * 2 ^ (e - c))).
    { rewrite <- pow2_split, <- Z.pow_succ_r by lia. f_equal; lia. }
    assert (H4 : 2 ^ (F - c) <= 2 ^ Z.pos (digits2_pos p) * 2 ^ (e - c)).
    { rewrite <- pow2_split by lia. apply Z.pow_le_mono_r; lia. }
    destruct (binary_round_aux _ _ s (Z.pos p) e loc_Exact) as [s'|s'| |s' m' e'];
      try done.
    { cbn [scaled] in Hval. lia. }
    destruct Hfin as [-> He']. cbn [scaled] in Hval.
    exists m', e'. split; [done|]. split; [lia|]. split.
    + enough (Z.pos (digits2_pos p) + e - 2 < Z.pos (digits2_pos m') + e') by lia.
      apply (mag_lower m' e' c); [lia|lia|]. lia.
    + apply (mag_upper m' e' c); [lia|lia|]. nia.
Qed.

Lemma digits2_pos_mul mx my :
  Z.pos (digits2_pos mx) + Z.pos (digits2_pos my) - 1
    <= Z.pos (digits2_pos (mx * my))
    <= Z.pos (digits2_pos mx) + Z.pos (digits2_pos my).
Proof.
  pose proof (pos_lt_pow_digits mx) as Hx1. pose proof (pow_digits_le_pos mx) as Hx2.
  pose proof (pos_lt_pow_digits my) as Hy1. pose proof (pow_digits_le_pos my) as Hy2.
  pose proof (Pos2Z.is_pos (digits2_pos mx)) as Hdx.
  pose proof (Pos2Z.is_pos (digits2_pos my)) as Hdy.
  assert (Hx3 : 2 ^ Z.pos (digits2_pos mx) = 2 * 2 ^ (Z.pos (digits2_pos mx) - 1)).
  { rewrite <- Z.pow_succ_r by lia. f_equal; lia. }
  assert (Hy3 : 2 ^ Z.pos (digits2_pos my) = 2 * 2 ^ (Z.pos (digits2_pos my) - 1)).
  { rewrite <- Z.pow_succ_r by lia. f_equal; lia. }
  pose proof (pow2_pos (Z.pos (digits2_pos mx) - 1) ltac:(lia)) as Hpx.
  pose proof (pow2_pos (Z.pos (digits2_pos my) - 1) ltac:(lia)) as Hpy.
  split.
  - enough (Z.pos (digits2_pos mx) + Z.pos (digits2_pos my) - 2
            < Z.pos (digits2_pos (mx * my)) + 0) by lia.
    apply (mag_lower (mx * my) 0 0); [lia|lia|].
    rewrite !Z.sub_0_r, Z.mul_1_r, Pos2Z.inj_mul.
    replace (Z.pos (digits2_pos mx) + Z.pos (digits2_pos my) - 2)
      with ((Z.pos (digits2_pos mx) - 1) + (Z.pos (digits2_pos my) - 1)) by lia.
    rewrite pow2_split by lia. nia.
  - enough (Z.pos (digits2_pos (mx * my)) + 0
            <= Z.pos (digits2_pos mx) + Z.pos (digits2_pos my)) by lia.
    apply (mag_upper (mx * my) 0 0); [lia|lia|].
    rewrite !Z.sub_0_r, Z.mul_1_r, Pos2Z.inj_mul, pow2_split by lia. nia.
Qed.

(** Multiplication of finite numbers away from underflow and overflow. *)
Lemma mul_finite sx mx ex sy my ey :
  let M := Z.pos (digits2_pos mx) + ex + (Z.pos (digits2_pos my) + ey) in
  -1020 <= M <= 970 -> -1200 <= ex + ey ->
  exists m e,
    Double.mul (S754_finite sx mx ex) (S754_finite sy my ey)
      = S754_finite (xorb sx sy) m e /\
    M - 2 <= Z.pos (digits2_pos m) + e <= M + 1.
Proof.
  intros M HM He. unfold Double.mul, SFmul.
  pose proof (digits2_pos_mul mx my) as Hd.
  destruct (binary_round_aux_finite (xorb sx sy) (mx * my) (ex + ey) (-1200)
              ltac:(lia) ltac:(lia) ltac:(unfold M in HM; lia))
    as (m & e & Hr & _ & Hmag).
  exists m, e. split; [exact Hr|]. unfold M. lia.
Qed.

(** ** Prices, ticks, options and positions *)

(** X7: for a price below [2^48] units in magnitude, [Price(p.to_double())]
    is defined and gives [p] back or the price one unit closer to zero,
    never anything else and never a price of the other sign. *)
Theorem price_round_trip_within_one_unit p :
  Z.abs (value p) < 2 ^ 48 ->
  exists q, PriceOps.of_double (PriceOps.to_double p) = Some q /\
    (0 <= value p -> Z.max 0 (value p - 1) <= value q <= value p) /\
    (value p <= 0 -> value p <= value q <= Z.min 0 (value p + 1)).
Proof.
  intros Hv. destruct (of_double_div_10000 (value p) Hv) as (t & Ht & Hb).
  exists (mkPrice t). split; [exact Ht|exact Hb].
Qed.

Lemma price_round_trip_within_one_unit_witness :
  exists q, PriceOps.of_double (PriceOps.to_double (mkPrice 5700)) = Some q /\
    (0 <= 5700 -> Z.max 0 (5700 - 1) <= value q <= 5700) /\
    (5700 <= 0 -> 5700 <= value q <= Z.min 0 (5700 + 1)).
Proof.
  apply (price_round_trip_within_one_unit (mkPrice 5700)). simpl. lia.
Defined.

(** X8: when the exact sum and difference are below [2^48] units,
    [operator+] and [operator-] are defined and return the exact result or
    the price one unit closer to zero. *)
Theorem plus_minus_within_one_unit a b :
  Z.abs (value a + value b) < 2 ^ 48 -> Z.abs (value a - value b) < 2 ^ 48 ->
  (exists r, PriceOps.plus a b = Some r /\
     Z.abs (value r) <= Z.abs (value a + value b) /\
     Z.abs (value r - (value a + value b)) <= 1) /\
  (exists r, PriceOps.minus a b = Some r /\
     Z.abs (value r) <= Z.abs (value a - value b) /\
     Z.abs (value r - (value a - value b)) <= 1).
Proof.
  intros Hs Hd.
  assert (H48 : 2 ^ 48 = 281474976710656) by done.
  assert (Hin : forall s, Z.abs s < 2 ^ 48 -> in_int64 s = true).
  { intros s Hlt. unfold in_int64, INT64_MIN, INT64_MAX.
    apply andb_true_intro. rewrite !Z.leb_le. lia. }
  split.
  - unfold PriceOps.plus. rewrite (Hin _ Hs).
    destruct (of_double_div_10000 _ Hs) as (t & Ht & Hb).
    exists (mkPrice t). split; [exact Ht|]. simpl. lia.
  - unfold PriceOps.minus. rewrite (Hin _ Hd).
    destruct (of_double_div_10000 _ Hd) as (t & Ht & Hb).
    exists (mkPrice t). split; [exact Ht|]. simpl. lia.
Qed.

Lemma plus_minus_within_one_unit_witness :
  (exists r, PriceOps.plus (mkPrice 5000) (mkPrice 700) = Some r /\
     Z.abs (value r) <= Z.abs (5000 + 700) /\
     Z.abs (value r - (5000 + 700)) <= 1) /\
  (exists r, PriceOps.minus (mkPrice 5000) (mkPrice 700) = Some r /\
     Z.abs (value r) <= Z.abs (5000 - 700) /\
     Z.abs (value r - (5000 - 700)) <= 1).
Proof.
  apply (plus_minus_within_one_unit (mkPrice 5000) (mkPrice 700)); simpl; lia.
Defined.

(** X9: for a price below [2^53] units in magnitude, [to_double()] is never
    a NaN or an infinity; it is [+0.0] exactly for the price 0, and
    otherwise a finite number with the sign of the price, between
    [2^-16] and [2^-12] times [2^d] for a price of [d] binary digits. *)
Theorem to_double_sign_and_magnitude p :
  Z.abs (value p) < 2 ^ 53 ->
  match PriceOps.to_double p with
  | S754_zero s => value p = 0 /\ s = false
  | S754_finite s m e =>
      value p <> 0 /\ s = (value p <? 0) /\
      Zdigits2 (value p) - 15 <= Z.pos (digits2_pos m) + e <= Zdigits2 (value p) - 12
  | S754_infinity _ | S754_nan => False
  end.
Proof.
  intros Hv. destruct p as [v]. cbn [value] in *.
  destruct (Z.eq_dec v 0) as [->|Hv0].
  { vm_compute. done. }
  destruct (to_double_finite v (-1200) Hv0 Hv ltac:(lia)) as (m & e & Hto & _ & Hmag & _).
  rewrite Hto. done.
Qed.

Lemma to_double_sign_and_magnitude_witness :
  match PriceOps.to_double (mkPrice (-1495500)) with
  | S754_zero s => -1495500 = 0 /\ s = false
  | S754_finite s m e =>
      -1495500 <> 0 /\ s = (-1495500 <? 0) /\
      Zdigits2 (-1495500) - 15 <= Z.pos (digits2_pos m) + e <= Zdigits2 (-1495500) - 12
  | S754_infinity _ | S754_nan => False
  end.
Proof.
  apply (to_double_sign_and_magnitude (mkPrice (-1495500))). simpl. lia.
Defined.

(** The units of the scaled bounds. *)
Lemma quote_units c :
  c <= -1200 ->
  0 < 2 ^ (-26 - c) /\
  2 ^ (- c) = 67108864 * 2 ^ (-26 - c) /\
  2 ^ (-9 - c) = 131072 * 2 ^ (-26 - c) /\
  2 ^ (-24 - c) = 4 * 2 ^ (-26 - c).
Proof.
  intros Hc. split; [apply pow2_pos; lia|].
  split; [|split].
  - change 67108864 with (2 ^ 26). rewrite <- pow2_split by lia. f_equal; lia.
  - change 131072 with (2 ^ 17). rewrite <- pow2_split by lia. f_equal; lia.
  - change 4 with (2 ^ 2). rewrite <- pow2_split by lia. f_equal; lia.
Qed.

(** [Price(a.to_double() + b.to_double())] for two positive quotes. *)
Lemma of_double_add_quotes a b :
  0 < a < 2 ^ 40 -> 0 < b < 2 ^ 40 ->
  exists t,
    PriceOps.of_double
      (Double.add (PriceOps.to_double (mkPrice a)) (PriceOps.to_double (mkPrice b)))
      = Some (mkPrice t) /\ a + b - 1 <= t <= a + b.
Proof.
  intros Ha Hb. set (c := -1200). assert (Hc : c <= -1200) by done. clearbody c.
  destruct (add_to_double_quote a b c Ha Hb Hc) as (m & e & Hs & He & Hmag & Hx).
  destruct (quote_units c Hc) as (HU & HP & H9 & _).
  assert (H40 : 2 ^ 40 = 1099511627776) by done.
  assert (H62 : 2 ^ 62 = 4611686018427387904) by done.
  rewrite Hs.
  destruct (of_double_bounds false m e c (-9) (a + b - 1) (a + b)
              Hc ltac:(lia) ltac:(lia) ltac:(lia) ltac:(lia) ltac:(lia))
    as (t & Hof & Ht).
  - rewrite HP in *. rewrite H9.
    replace ((a + b - 1) * (67108864 * 2 ^ (-26 - c)))
      with ((a + b) * (67108864 * 2 ^ (-26 - c)) - 67108864 * 2 ^ (-26 - c)) by ring.
    lia.
  - rewrite HP in *. rewrite H9.
    replace ((a + b + 1) * (67108864 * 2 ^ (-26 - c)))
      with ((a + b) * (67108864 * 2 ^ (-26 - c)) + 67108864 * 2 ^ (-26 - c)) by ring.
    lia.
  - exists t. split; [exact Hof|exact Ht].
Qed.

Lemma midpoint_spec t :
  0 < value (bid t) < 2 ^ 40 -> 0 < value (ask t) < 2 ^ 40 ->
  exists m, MarketTickOps.midpoint t = Some m /\
    (value (bid t) + value (ask t) - 1) / 2 <= value m
      <= (value (bid t) + value (ask t)) / 2.
Proof.
  destruct t as [ts sid [b] [a] lst bs asz vol sq ex pad]. cbn [bid ask value].
  intros Hb Ha. unfold MarketTickOps.midpoint. cbn [bid ask].
  set (c := -1200). assert (Hc : c <= -1200) by done. clearbody c.
  destruct (add_to_double_quote b a c Hb Ha Hc) as (ms & es & Hs & Hes & Hmags & Hxs).
  destruct (quote_units c Hc) as (HU & HP & H9 & H24).
  assert (H40 : 2 ^ 40 = 1099511627776) by done.
  assert (H62 : 2 ^ 62 = 4611686018427387904) by done.
  rewrite Hs, of_Z_2.
  destruct (div_finite false ms es false 4503599627370496 (-51) c)
    as (mh & eh & Hdiv & Heh & Hmagh & Hxh).
  { change (Z.pos (digits2_pos 4503599627370496)) with 53. lia. }
  { lia. }
  { lia. }
  change (Z.pos (digits2_pos 4503599627370496)) with 53 in *.
  rewrite fexp_eq in *. rewrite Hdiv. cbn [xorb].
  set (Eb := Z.max (Z.pos (digits2_pos ms) + es - (53 + -51) - 53) (-1074) + 1) in *.
  assert (HEb : Eb <= -24) by (unfold Eb; lia).
  assert (HG : 2 ^ (Eb - c) <= 2 ^ (-24 - c)) by (apply Z.pow_le_mono_r; lia).
  assert (HGp : 0 < 2 ^ (Eb - c)) by (apply pow2_pos; unfold Eb; lia).
  rewrite H24 in HG.
  replace (es - -51 - c) with (es - c + 51) in Hxh by lia.
  rewrite pow2_split, !Z.mul_assoc in Hxh by lia.
  change (Z.pos 4503599627370496) with 4503599627370496 in Hxh.
  change (2 ^ 51) with 2251799813685248 in Hxh.
  rewrite HP in *.
  set (Xs := Z.pos ms * 2 ^ (es - c)) in *.
  set (Xh := Z.pos mh * 2 ^ (eh - c)) in *.
  set (G := 2 ^ (Eb - c)) in *. set (U := 2 ^ (-26 - c)) in *.
  assert (Hh : Xs - 8 * G < 2 * Xh <= Xs + 2 * G).
  { clearbody Xs Xh G U Eb. lia. }
  set (S := (b + a) * (67108864 * U)) in *.
  assert (Heh' : -1074 <= eh <= -9 + 39) by (clear -Heh HEb Hes; lia).
  assert (Hmagh' : Z.pos (digits2_pos mh) + eh <= -9 + 39) by (clear -Hmagh Hmags; lia).
  assert (HL0 : 0 <= (b + a - 1) / 2) by (apply Z.div_pos; lia).
  assert (HH62 : (b + a) / 2 < 2 ^ 62) by (apply Z.div_lt_upper_bound; lia).
  destruct (of_double_bounds false mh eh c (-9) ((b + a - 1) / 2) ((b + a) / 2)
              Hc Heh' ltac:(lia) Hmagh' HL0 HH62)
    as (t & Hof & Ht).
  - rewrite HP, H9. fold Xh. fold U.
    assert (HL : 2 * ((b + a - 1) / 2) <= b + a - 1) by (apply Z.mul_div_le; lia).
    assert (HLU : 2 * ((b + a - 1) / 2) * (67108864 * U) <= (b + a - 1) * (67108864 * U)).
    { apply Z.mul_le_mono_nonneg_r; lia. }
    replace ((b + a - 1) * (67108864 * U)) with (S - 67108864 * U) in HLU
      by (unfold S; ring).
    replace (2 * ((b + a - 1) / 2) * (67108864 * U))
      with (2 * ((b + a - 1) / 2 * (67108864 * U))) in HLU by ring.
    set (LU := (b + a - 1) / 2 * (67108864 * U)) in *.
    clearbody Xs Xh G U S LU Eb. lia.
  - rewrite HP, H9. fold Xh. fold U.
    assert (HH : b + a + 1 <= 2 * ((b + a) / 2 + 1)).
    { pose proof (Z.mul_succ_div_gt (b + a) 2 ltac:(lia)). lia. }
    assert (HHU : (b + a + 1) * (67108864 * U) <= 2 * ((b + a) / 2 + 1) * (67108864 * U)).
    { apply Z.mul_le_mono_nonneg_r; lia. }
    replace ((b + a + 1) * (67108864 * U)) with (S + 67108864 * U) in HHU
      by (unfold S; ring).
    replace (2 * ((b + a) / 2 + 1) * (67108864 * U))
      with (2 * (((b + a) / 2 + 1) * (67108864 * U))) in HHU by ring.
    set (HU' := ((b + a) / 2 + 1) * (67108864 * U)) in *.
    clearbody Xs Xh G U S HU' Eb. lia.
  - exists (mkPrice t). split; [exact Hof|exact Ht].
Qed.

(** X10: for positive bid and ask below [2^40] units, [midpoint()] is
    defined and is the floor of [(bid + ask) / 2], or one unit below it
    when [bid + ask] is even; so it is never above the larger quote and at
    most one unit below the smaller one. *)
Theorem midpoint_is_floor_or_one_below t :
  0 < value (bid t) < 2 ^ 40 -> 0 < value (ask t) < 2 ^ 40 ->
  exists m, MarketTickOps.midpoint t = Some m /\
    (value (bid t) + value (ask t) - 1) / 2 <= value m
      <= (value (bid t) + value (ask t)) / 2 /\
    Z.min (value (bid t)) (value (ask t)) - 1 <= value m
      <= Z.max (value (bid t)) (value (ask t)).
Proof.
  intros Hb Ha. destruct (midpoint_spec t Hb Ha) as (m & Hm & Hlo & Hhi).
  exists m. split; [exact Hm|]. split; [split; [exact Hlo|exact Hhi]|].
  assert (H1 : Z.min (value (bid t)) (value (ask t)) - 1
               <= (value (bid t) + value (ask t) - 1) / 2)
    by (apply Z.div_le_lower_bound; lia).
  assert (H2 : (value (bid t) + value (ask t)) / 2
               <= Z.max (value (bid t)) (value (ask t)))
    by (apply Z.div_le_upper_bound; lia).
  lia.
Qed.

Lemma midpoint_is_floor_or_one_below_witness :
  exists m, MarketTickOps.midpoint (tick_of 1495000 1495500) = Some m /\
    (1495000 + 1495500 - 1) / 2 <= value m <= (1495000 + 1495500) / 2 /\
    Z.min 1495000 1495500 - 1 <= value m <= Z.max 1495000 1495500.
Proof.
  apply (midpoint_is_floor_or_one_below (tick_of 1495000 1495500)); simpl; lia.
Defined.

Lemma spread_spec t :
  0 < value (bid t) < 2 ^ 40 -> 0 < value (ask t) < 2 ^ 40 ->
  match MarketTickOps.spread t with
  | S754_zero s => value (bid t) = value (ask t) /\ s = false
  | S754_finite s m e =>
      value (bid t) <> value (ask t) /\ s = (value (ask t) <? value (bid t)) /\
      -1074 <= e /\ -14 <= Z.pos (digits2_pos m) + e <= 30
  | S754_infinity _ | S754_nan => False
  end.
Proof.
  destruct t as [ts sid [b] [a] lst bs asz vol sq ex pad]. cbn [bid ask value].
  intros Hb Ha. unfold MarketTickOps.spread. cbn [bid ask].
  set (c := -1200). assert (Hc : c <= -1200) by done. clearbody c.
  destruct (to_double_quote a c Ha Hc) as (ma & ea & Hta & Hea & Hmaga & Hxa).
  destruct (to_double_quote b c Hb Hc) as (mb & eb & Htb & Heb & Hmagb & Hxb).
  destruct (quote_units c Hc) as (HU & HP & _ & H24).
  rewrite Hta, Htb, sub_as_add. cbn [negb].
  pose proof (add_spec false ma ea true mb eb c 28 ltac:(lia) ltac:(lia) ltac:(lia)
                ltac:(lia) ltac:(lia) ltac:(lia)) as [Hz Hnz].
  cbv zeta in Hz, Hnz. cbn [cond_Zopp] in Hz, Hnz.
  rewrite HP in *.
  set (Xa := Z.pos ma * 2 ^ (ea - c)) in *. set (Xb := Z.pos mb * 2 ^ (eb - c)) in *.
  set (U := 2 ^ (-26 - c)) in *.
  replace (a * (67108864 * U)) with (67108864 * (a * U)) in Hxa by ring.
  replace (b * (67108864 * U)) with (67108864 * (b * U)) in Hxb by ring.
  destruct (Z.lt_trichotomy a b) as [Hlt|[Heq|Hgt]].
  - (* crossed: ask < bid *)
    assert (HabU : (a + 1) * U <= b * U) by (apply Z.mul_le_mono_nonneg_r; lia).
    rewrite Z.mul_add_distr_r in HabU.
    set (aU := a * U) in *. set (bU := b * U) in *.
    assert (HV : Xa + - Xb < 0 /\ 67000000 * U <= 10000 * Z.abs (Xa + - Xb))
      by (clearbody Xa Xb U aU bU; lia).
    destruct (Hnz ltac:(lia)) as (m & e & Hr & He & Hval & Hmag). rewrite Hr.
    split; [lia|]. split.
    { replace (a <? b) with true by (symmetry; apply Z.ltb_lt; lia).
      apply Z.ltb_lt. lia. }
    split; [lia|]. split; [|lia].
    rewrite fexp_eq in Hval. change (Z.max (28 + 1 - 53) (-1074)) with (-24) in Hval.
    rewrite H24 in Hval. fold U in Hval.
    enough (-15 < Z.pos (digits2_pos m) + e) by lia.
    apply (mag_lower m e c); [lia|lia|].
    replace (-15 - c) with (-26 - c + 11) by lia.
    rewrite pow2_split by lia. fold U. change (2 ^ 11) with 2048.
    set (X := Z.pos m * 2 ^ (e - c)) in *.
    clearbody Xa Xb U aU bU X. lia.
  - subst b. rewrite Hta in Htb. injection Htb as -> ->.
    rewrite Hz by (unfold Xa, Xb; lia). done.
  - assert (HabU : (b + 1) * U <= a * U) by (apply Z.mul_le_mono_nonneg_r; lia).
    rewrite Z.mul_add_distr_r in HabU.
    set (aU := a * U) in *. set (bU := b * U) in *.
    assert (HV : 0 < Xa + - Xb /\ 67000000 * U <= 10000 * Z.abs (Xa + - Xb))
      by (clearbody Xa Xb U aU bU; lia).
    destruct (Hnz ltac:(lia)) as (m & e & Hr & He & Hval & Hmag). rewrite Hr.
    split; [lia|]. split.
    { replace (a <? b) with false by (symmetry; apply Z.ltb_ge; lia).
      apply Z.ltb_ge. lia. }
    split; [lia|]. split; [|lia].
    rewrite fexp_eq in Hval. change (Z.max (28 + 1 - 53) (-1074)) with (-24) in Hval.
    rewrite H24 in Hval. fold U in Hval.
    enough (-15 < Z.pos (digits2_pos m) + e) by lia.
    apply (mag_lower m e c); [lia|lia|].
    replace (-15 - c) with (-26 - c + 11) by lia.
    rewrite pow2_split by lia. fold U. change (2 ^ 11) with 2048.
    set (X := Z.pos m * 2 ^ (e - c)) in *.
    clearbody Xa Xb U aU bU X. lia.
Qed.

(** X11: for positive bid and ask below [2^40] units, [spread()] is never a
    NaN or an infinity; it is [+0.0] exactly when bid and ask are equal,
    positive when [bid < ask] and negative when [ask < bid]. *)
Theorem spread_sign_matches_quotes t :
  0 < value (bid t) < 2 ^ 40 -> 0 < value (ask t) < 2 ^ 40 ->
  match MarketTickOps.spread t with
  | S754_zero s => value (bid t) = value (ask t) /\ s = false
  | S754_finite s m e =>
      value (bid t) <> value (ask t) /\ s = (value (ask t) <? value (bid t))
  | S754_infinity _ | S754_nan => False
  end.
Proof.
  intros Hb Ha. pose proof (spread_spec t Hb Ha) as H.
  destruct (MarketTickOps.spread t); try done. tauto.
Qed.

Lemma spread_sign_matches_quotes_witness :
  match MarketTickOps.spread (tick_of 1495000 1495500) with
  | S754_zero s => 1495000 = 1495500 /\ s = false
  | S754_finite s m e => 1495000 <> 1495500 /\ s = (1495500 <? 1495000)
  | S754_infinity _ | S754_nan => False
  end.
Proof.
  apply (spread_sign_matches_quotes (tick_of 1495000 1495500)); simpl; lia.
Defined.

Lemma to_double_0 : PriceOps.to_double (mkPrice 0) = S754_zero false.
Proof. vm_compute. reflexivity. Qed.

Lemma add_zero_l y :
  match y with S754_zero false | S754_finite _ _ _ => True | _ => False end ->
  Double.add (S754_zero false) y = y.
Proof. destruct y as [[]|[]| |]; done. Qed.

Lemma add_zero_r x :
  match x with S754_zero false | S754_finite _ _ _ => True | _ => False end ->
  Double.add x (S754_zero false) = x.
Proof. destruct x as [[]|[]| |]; done. Qed.

Lemma to_double_plain v :
  Z.abs v < 2 ^ 53 ->
  match PriceOps.to_double (mkPrice v) with
  | S754_zero false | S754_finite _ _ _ => True
  | _ => False
  end.
Proof.
  intros Hv. destruct (Z.eq_dec v 0) as [->|Hv0]; [by rewrite to_double_0|].
  destruct (to_double_finite v (-1200) Hv0 Hv ltac:(lia)) as (m & e & -> & _). done.
Qed.

(** [Price(a.to_double() + b.to_double())] for two prices that may be zero. *)
Lemma of_double_add_prices a b :
  0 <= a < 2 ^ 40 -> 0 <= b < 2 ^ 40 ->
  exists t,
    PriceOps.of_double
      (Double.add (PriceOps.to_double (mkPrice a)) (PriceOps.to_double (mkPrice b)))
      = Some (mkPrice t) /\ Z.max 0 (a + b - 1) <= t <= a + b.
Proof.
  intros Ha Hb.
  assert (H40 : 2 ^ 40 = 1099511627776) by done.
  assert (H48 : 2 ^ 48 = 281474976710656) by done.
  assert (H53 : 2 ^ 53 = 9007199254740992) by done.
  destruct (Z.eq_dec a 0) as [->|Ha0].
  { rewrite to_double_0, add_zero_l by (apply to_double_plain; lia).
    destruct (of_double_div_10000 b ltac:(lia)) as (t & Ht & Hpos & _).
    exists t. split; [exact Ht|]. specialize (Hpos ltac:(lia)). lia. }
  destruct (Z.eq_dec b 0) as [->|Hb0].
  { rewrite to_double_0, add_zero_r by (apply to_double_plain; lia).
    destruct (of_double_div_10000 a ltac:(lia)) as (t & Ht & Hpos & _).
    exists t. split; [exact Ht|]. specialize (Hpos ltac:(lia)). lia. }
  destruct (of_double_add_quotes a b ltac:(lia) ltac:(lia)) as (t & Ht & Hb').
  exists t. split; [exact Ht|lia].
Qed.

Lemma calculate_pnl_spec p :
  0 <= value (current_call_price p) < 2 ^ 40 ->
  0 <= value (current_put_price p) < 2 ^ 40 ->
  Z.abs (value (total_premium_paid p)) < 2 ^ 40 ->
  let exact_value := value (current_call_price p) + value (current_put_price p) in
  exists v pnl,
    StraddlePositionOps.calculate_position_value p = Some v /\
    Z.max 0 (exact_value - 1) <= value v <= exact_value /\
    StraddlePositionOps.calculate_pnl p = Some pnl /\
    exact_value - value (total_premium_paid p) - 2 <= value pnl
      <= exact_value - value (total_premium_paid p) + 1.
Proof.
  intros Hc Hp Hprem exact_value.
  unfold StraddlePositionOps.calculate_pnl, StraddlePositionOps.calculate_position_value.
  subst exact_value.
  destruct (current_call_price p) as [a], (current_put_price p) as [b],
    (total_premium_paid p) as [q]. cbn [value] in *.
  assert (H40 : 2 ^ 40 = 1099511627776) by done.
  assert (H48 : 2 ^ 48 = 281474976710656) by done.
  destruct (of_double_add_prices a b Hc Hp) as (t & Ht & Hb).
  rewrite Ht. unfold PriceOps.minus. cbn [value].
  assert (Hin : in_int64 (t - q) = true).
  { unfold in_int64, INT64_MIN, INT64_MAX. apply andb_true_intro.
    rewrite !Z.leb_le. lia. }
  rewrite Hin.
  destruct (of_double_div_10000 (t - q) ltac:(lia)) as (r & Hr & Hpos & Hneg).
  exists (mkPrice t), (mkPrice r). cbn [value].
  split; [done|]. split; [lia|]. split; [exact Hr|].
  destruct (Z.le_gt_cases 0 (t - q)); [specialize (Hpos ltac:(lia))|specialize (Hneg ltac:(lia))]; lia.
Qed.

(** X12: for current call and put prices below [2^40] units and a premium
    below [2^40] units in magnitude, [calculate_position_value()] is
    defined and is the sum of the two prices or one unit less (never below
    zero), and [calculate_pnl()] is defined and lies between two units below
    and one unit above the exact profit. *)
Theorem position_value_and_pnl_bounds p :
  0 <= value (current_call_price p) < 2 ^ 40 ->
  0 <= value (current_put_price p) < 2 ^ 40 ->
  Z.abs (value (total_premium_paid p)) < 2 ^ 40 ->
  let exact_value := value (current_call_price p) + value (current_put_price p) in
  exists v pnl,
    StraddlePositionOps.calculate_position_value p = Some v /\
    Z.max 0 (exact_value - 1) <= value v <= exact_value /\
    StraddlePositionOps.calculate_pnl p = Some pnl /\
    exact_value - value (total_premium_paid p) - 2 <= value pnl
      <= exact_value - value (total_premium_paid p) + 1.
Proof. exact (calculate_pnl_spec p). Qed.

Lemma position_value_and_pnl_bounds_witness :
  exists v pnl,
    StraddlePositionOps.calculate_position_value (pending_position (mkPrice 110000))
      = Some v /\
    Z.max 0 (55500 + 54500 - 1) <= value v <= 55500 + 54500 /\
    StraddlePositionOps.calculate_pnl (pending_position (mkPrice 110000)) = Some pnl /\
    55500 + 54500 - 110000 - 2 <= value pnl <= 55500 + 54500 - 110000 + 1.
Proof.
  apply (position_value_and_pnl_bounds (pending_position (mkPrice 110000)));
    simpl; lia.
Defined.

(** X13: [calculate_return_pct()] returns [+0.0] whenever the premium paid
    is zero, whatever the other fields hold; for a nonzero premium and
    prices below [2^40] units it is defined and is the finite number
    [(pnl / premium) * 100], never a NaN or an infinity. *)
Theorem return_pct_guarded_and_finite p :
  (value (total_premium_paid p) = 0 ->
   StraddlePositionOps.calculate_return_pct p = Some Double.zero) /\
  (0 <= value (current_call_price p) < 2 ^ 40 ->
   0 <= value (current_put_price p) < 2 ^ 40 ->
   0 < Z.abs (value (total_premium_paid p)) < 2 ^ 40 ->
   exists pnl r,
     StraddlePositionOps.calculate_pnl p = Some pnl /\
     StraddlePositionOps.calculate_return_pct p = Some r /\
     r = Double.mul (Double.div (PriceOps.to_double pnl)
                                (PriceOps.to_double (total_premium_paid p)))
                    (Double.of_Z 100) /\
     mag_le 64 r).
Proof.
  split.
  - intros Hq. unfold StraddlePositionOps.calculate_return_pct.
    destruct (total_premium_paid p) as [q]. cbn [value] in Hq. subst q.
    rewrite to_double_0. done.
  - intros Hc Hp Hq.
    destruct (calculate_pnl_spec p Hc Hp ltac:(lia))
      as (v & pnl & _ & _ & Hpnl & Hb).
    unfold StraddlePositionOps.calculate_return_pct. rewrite Hpnl.
    destruct (total_premium_paid p) as [q]. cbn [value] in *.
    assert (H40 : 2 ^ 40 = 1099511627776) by done.
    assert (H48 : 2 ^ 48 = 281474976710656) by done.
    assert (H53 : 2 ^ 53 = 9007199254740992) by done.
    destruct (to_double_finite q (-1200) ltac:(lia) ltac:(lia) ltac:(lia))
      as (mq & eq & Hto & Heq & Hmagq & _).
    rewrite Hto. cbn [SFeqb SFcompare].
    assert (Hd : Zdigits2 q <= 40) by (apply Zdigits2_abs_lt; lia).
    assert (Hd1 : 1 <= Zdigits2 q).
    { destruct q as [|x|x]; [lia| |]; simpl; pose proof (Pos2Z.is_pos (digits2_pos x)); lia. }
    exists pnl, (Double.mul (Double.div (PriceOps.to_double pnl) (S754_finite (q <? 0) mq eq))
                   (Double.of_Z 100)).
    split; [done|]. split; [by destruct (q <? 0)|]. split; [done|].
    pose proof (to_double_mag pnl 48 ltac:(lia) ltac:(lia)) as Hmp.
    pose proof (div_mag _ (q <? 0) mq eq 37 Hmp ltac:(lia)) as Hdm.
    pose proof (of_Z_mag 100 7 ltac:(lia) ltac:(done)) as H100.
    eapply mag_le_mono; [|apply (mul_mag _ _ 54 8)]; [lia| | |lia].
    + eapply mag_le_mono; [|exact Hdm]. lia.
    + exact H100.
Qed.

Lemma return_pct_guarded_and_finite_witness :
  StraddlePositionOps.calculate_return_pct (pending_position (mkPrice 0))
    = Some Double.zero /\
  exists pnl r,
    StraddlePositionOps.calculate_pnl (pending_position (mkPrice 110000)) = Some pnl /\
    StraddlePositionOps.calculate_return_pct (pending_position (mkPrice 110000))
      = Some r /\
    r = Double.mul (Double.div (PriceOps.to_double pnl)
                               (PriceOps.to_double (mkPrice 110000)))
                   (Double.of_Z 100) /\
    mag_le 64 r.
Proof.
  split.
  - apply (proj1 (return_pct_guarded_and_finite (pending_position (mkPrice 0)))).
    reflexivity.
  - apply (proj2 (return_pct_guarded_and_finite (pending_position (mkPrice 110000))));
      simpl; lia.
Defined.

Lemma Zdigits2_pos_ge_1 v : v <> 0 -> 1 <= Zdigits2 v.
Proof.
  destruct v as [|p|p]; [done| |]; intros _; simpl;
    pose proof (Pos2Z.is_pos (digits2_pos p)); lia.
Qed.

(** X14: for an underlying price and a strike below [2^53] units in
    magnitude, [moneyness()] is a NaN exactly when both are zero, an
    infinity exactly when only the strike is zero, a zero exactly when only
    the underlying price is zero, and otherwise a finite number whose sign
    is negative exactly when the two signs differ: the division is not
    guarded against a zero strike. *)
Theorem moneyness_by_strike o u :
  Z.abs (value u) < 2 ^ 53 -> Z.abs (value (OptionTick.strike o)) < 2 ^ 53 ->
  match OptionTick.moneyness o u with
  | S754_nan => value (OptionTick.strike o) = 0 /\ value u = 0
  | S754_infinity s =>
      value (OptionTick.strike o) = 0 /\ value u <> 0 /\ s = (value u <? 0)
  | S754_zero s =>
      value (OptionTick.strike o) <> 0 /\ value u = 0 /\
      s = (value (OptionTick.strike o) <? 0)
  | S754_finite s m e =>
      value (OptionTick.strike o) <> 0 /\ value u <> 0 /\
      s = xorb (value u <? 0) (value (OptionTick.strike o) <? 0)
  end.
Proof.
  unfold OptionTick.moneyness.
  destruct u as [a], (OptionTick.strike o) as [k]. cbn [value]. intros Ha Hk.
  assert (H53 : 2 ^ 53 = 9007199254740992) by done.
  destruct (Z.eq_dec k 0) as [->|Hk0], (Z.eq_dec a 0) as [->|Ha0].
  - rewrite to_double_0. done.
  - destruct (to_double_finite a (-1200) Ha0 Ha ltac:(lia)) as (ma & ea & -> & _).
    rewrite to_double_0. cbn. split; [done|]. split; [done|]. by destruct (a <? 0).
  - destruct (to_double_finite k (-1200) Hk0 Hk ltac:(lia)) as (mk & ek & -> & _).
    rewrite to_double_0. cbn. done.
  - destruct (to_double_finite a (-1200) Ha0 Ha ltac:(lia))
      as (ma & ea & -> & Hea & Hmaga & _).
    destruct (to_double_finite k (-1200) Hk0 Hk ltac:(lia))
      as (mk & ek & -> & Hek & Hmagk & _).
    pose proof (Zdigits2_abs_lt a 53 ltac:(lia) Ha).
    pose proof (Zdigits2_abs_lt k 53 ltac:(lia) Hk).
    pose proof (Zdigits2_pos_ge_1 a Ha0). pose proof (Zdigits2_pos_ge_1 k Hk0).
    destruct (div_finite (a <? 0) ma ea (k <? 0) mk ek (-1200)
                ltac:(lia) ltac:(lia) ltac:(lia)) as (m & e & -> & _).
    done.
Qed.

Lemma moneyness_by_strike_witness :
  match OptionTick.moneyness sample_option (mkPrice 1495000) with
  | S754_nan => 1500000 = 0 /\ 1495000 = 0
  | S754_infinity s => 1500000 = 0 /\ 1495000 <> 0 /\ s = (1495000 <? 0)
  | S754_zero s => 1500000 <> 0 /\ 1495000 = 0 /\ s = (1500000 <? 0)
  | S754_finite s m e =>
      1500000 <> 0 /\ 1495000 <> 0 /\ s = xorb (1495000 <? 0) (1500000 <? 0)
  end.
Proof.
  apply (moneyness_by_strike sample_option (mkPrice 1495000)); simpl; lia.
Defined.

Lemma of_Z_365 : Double.of_Z 365 = S754_finite false 6421147906211840 (-44).
Proof. vm_compute. reflexivity. Qed.

Lemma of_Z_1e9 : Double.of_Z 1000000000 = S754_finite false 8388608000000000 (-23).
Proof. vm_compute. reflexivity. Qed.

(** X15: for every [uint16_t] day count, [time_to_expiry()] is never a NaN,
    an infinity or negative; it is [+0.0] exactly for 0 days, and
    otherwise a positive finite number between [2^-11] and [2^-7] times
    [2^d] for a count of [d] binary digits, so below [2^9] years. *)
Theorem time_to_expiry_range o :
  0 <= OptionTick.days_to_expiry o < 2 ^ 16 ->
  match OptionTick.time_to_expiry o with
  | S754_zero s => OptionTick.days_to_expiry o = 0 /\ s = false
  | S754_finite s m e =>
      0 < OptionTick.days_to_expiry o /\ s = false /\
      Zdigits2 (OptionTick.days_to_expiry o) - 10 <= Z.pos (digits2_pos m) + e
        <= Zdigits2 (OptionTick.days_to_expiry o) - 7
  | S754_infinity _ | S754_nan => False
  end.
Proof.
  unfold OptionTick.time_to_expiry. generalize (OptionTick.days_to_expiry o).
  intros d Hd. rewrite of_Z_365.
  assert (H16 : 2 ^ 16 = 65536) by done.
  assert (H53 : 2 ^ 53 = 9007199254740992) by done.
  destruct (Z.eq_dec d 0) as [->|Hd0]; [done|].
  destruct (of_Z_exact d Hd0 ltac:(lia)) as (m & e & -> & Hdig & He & _).
  pose proof (Zdigits2_abs_lt d 16 ltac:(lia) ltac:(lia)).
  pose proof (Zdigits2_pos_ge_1 d Hd0).
  destruct (div_finite (d <? 0) m e false 6421147906211840 (-44) (-1200))
    as (mr & er & -> & _ & Hmag & _).
  { change (Z.pos (digits2_pos 6421147906211840)) with 53. lia. }
  { lia. }
  { lia. }
  change (Z.pos (digits2_pos 6421147906211840)) with 53 in Hmag.
  replace (d <? 0) with false by (symmetry; apply Z.ltb_ge; lia).
  split; [lia|]. split; [done|lia].
Qed.

Lemma time_to_expiry_range_witness :
  match OptionTick.time_to_expiry sample_option with
  | S754_zero s => 30 = 0 /\ s = false
  | S754_finite s m e =>
      0 < 30 /\ s = false /\
      Zdigits2 30 - 10 <= Z.pos (digits2_pos m) + e <= Zdigits2 30 - 7
  | S754_infinity _ | S754_nan => False
  end.
Proof.
  apply (time_to_expiry_range sample_option). simpl. lia.
Defined.

(** X16: for every [uint64_t] nanosecond count, [to_seconds()] is never a
    NaN, an infinity or negative; it is [+0.0] exactly for 0, and otherwise
    a positive finite number between [2^-33] and [2^-27] times [2^d] for a
    count of [d] binary digits, so below [2^37] seconds. *)
Theorem to_seconds_range t :
  0 <= nanoseconds_since_epoch t < 2 ^ 64 ->
  match TimestampOps.to_seconds t with
  | S754_zero s => nanoseconds_since_epoch t = 0 /\ s = false
  | S754_finite s m e =>
      0 < nanoseconds_since_epoch t /\ s = false /\
      Zdigits2 (nanoseconds_since_epoch t) - 32 <= Z.pos (digits2_pos m) + e
        <= Zdigits2 (nanoseconds_since_epoch t) - 27
  | S754_infinity _ | S754_nan => False
  end.
Proof.
  unfold TimestampOps.to_seconds. generalize (nanoseconds_since_epoch t).
  intros n Hn. rewrite of_Z_1e9.
  assert (H64 : 2 ^ 64 = 18446744073709551616) by done.
  destruct (Z.eq_dec n 0) as [->|Hn0]; [done|].
  pose proof (Zdigits2_abs_lt n 64 ltac:(lia) ltac:(lia)).
  pose proof (Zdigits2_pos_ge_1 n Hn0).
  destruct (of_Z_spec n (-1200) Hn0 ltac:(lia) ltac:(lia))
    as (m & e & -> & He & _ & _ & Hmag).
  rewrite fexp_eq in He.
  destruct (div_finite (n <? 0) m e false 8388608000000000 (-23) (-1200))
    as (mr & er & -> & _ & Hmagr & _).
  { change (Z.pos (digits2_pos 8388608000000000)) with 53. lia. }
  { lia. }
  { lia. }
  change (Z.pos (digits2_pos 8388608000000000)) with 53 in Hmagr.
  replace (n <? 0) with false by (symmetry; apply Z.ltb_ge; lia).
  split; [lia|]. split; [done|lia].
Qed.

Lemma to_seconds_range_witness :
  match TimestampOps.to_seconds (mkTimestamp 1700000000000000000) with
  | S754_zero s => 1700000000000000000 = 0 /\ s = false
  | S754_finite s m e =>
      0 < 1700000000000000000 /\ s = false /\
      Zdigits2 1700000000000000000 - 32 <= Z.pos (digits2_pos m) + e
        <= Zdigits2 1700000000000000000 - 27
  | S754_infinity _ | S754_nan => False
  end.
Proof.
  apply (to_seconds_range (mkTimestamp 1700000000000000000)). simpl. lia.
Defined.

Lemma of_Z_100 : Double.of_Z 100 = S754_finite false 7036874417766400 (-46).
Proof. vm_compute. reflexivity. Qed.

(** X17: for positive bid and ask below [2^40] units that are not both one
    unit, [spread_pct()] is defined and takes the division branch: the
    result is never a NaN or an infinity; it is [+0.0] exactly when bid and
    ask are equal, positive when [bid < ask] and negative when
    [ask < bid]. *)
Theorem spread_pct_sign_matches_quotes t :
  0 < value (bid t) < 2 ^ 40 -> 0 < value (ask t) < 2 ^ 40 ->
  3 <= value (bid t) + value (ask t) ->
  exists r, MarketTickOps.spread_pct t = Some r /\
    match r with
    | S754_zero s => value (bid t) = value (ask t) /\ s = false
    | S754_finite s m e =>
        value (bid t) <> value (ask t) /\ s = (value (ask t) <? value (bid t))
    | S754_infinity _ | S754_nan => False
    end.
Proof.
  intros Hb Ha Hsum.
  destruct (midpoint_spec t Hb Ha) as ([mid] & Hmid & Hm). cbn [value] in Hm.
  pose proof (spread_spec t Hb Ha) as Hsp.
  unfold MarketTickOps.spread_pct. rewrite Hmid.
  assert (H40 : 2 ^ 40 = 1099511627776) by done.
  assert (Hmid1 : 0 < mid < 2 ^ 40).
  { assert (1 <= (value (bid t) + value (ask t) - 1) / 2)
      by (apply Z.div_le_lower_bound; lia).
    assert ((value (bid t) + value (ask t)) / 2 < 2 ^ 40)
      by (apply Z.div_lt_upper_bound; lia).
    lia. }
  destruct (to_double_quote mid (-1200) Hmid1 ltac:(lia))
    as (mm & em & Htm & Hem & Hmagm & _).
  rewrite Htm, of_Z_100. change (Double.of_Z 0) with (S754_zero false).
  cbn [Double.gtb SFltb SFcompare].
  destruct (MarketTickOps.spread t) as [s|s| |s ms es]; try done.
  - destruct Hsp as [Heq ->]. eexists. split; [reflexivity|]. done.
  - destruct Hsp as (Hne & -> & Hes & Hmags).
    destruct (div_finite (value (ask t) <? value (bid t)) ms es false mm em (-1200)
                ltac:(lia) ltac:(lia) ltac:(lia)) as (md & ed & Hd & Hed & Hmagd & _).
    rewrite Hd.
    destruct (mul_finite (xorb (value (ask t) <? value (bid t)) false) md ed
                false 7036874417766400 (-46)) as (mr & er & Hr & _).
    { change (Z.pos (digits2_pos 7036874417766400)) with 53. lia. }
    { lia. }
    rewrite Hr. eexists. split; [reflexivity|].
    split; [done|]. by destruct (value (ask t) <? value (bid t)).
Qed.

Lemma spread_pct_sign_matches_quotes_witness :
  exists r, MarketTickOps.spread_pct (tick_of 1495000 1495500) = Some r /\
    match r with
    | S754_zero s => 1495000 = 1495500 /\ s = false
    | S754_finite s m e => 1495000 <> 1495500 /\ s = (1495500 <? 1495000)
    | S754_infinity _ | S754_nan => False
    end.
Proof.
  apply (spread_pct_sign_matches_quotes (tick_of 1495000 1495500)); simpl; lia.
Defined.
